(** * Ordered indexes of the collection: AVL tree, Treap and B+tree

    A shallow embedding of [9.1-avl-tree.js], [19-treap.js] and
    [21-b+tree.js].  Keys are JavaScript numbers used as integers and are
    modelled by [Z].  A dereference of [null] or [undefined] raises a
    [TypeError] in the source; the embedding makes every such place
    explicit. *)

From Stdlib Require Import ZArith List Lia Bool QArith Sorted Permutation.
From stdpp Require Import list sorting.
From Equations Require Import Equations.
From Stdlib Require Import String.
Import ListNotations.

(** ** Shared vocabulary *)

(** [x] is the [k]-th smallest element of [l] (counting from 1): it occurs
    in [l] and exactly [k - 1] elements of [l] are smaller. *)
Definition kth_smallest_of (l : list Z) (k : Z) (x : Z) : Prop :=
  In x l /\ Z.of_nat (List.length (List.filter (fun y => (y <? x)%Z) l)) = (k - 1)%Z.

(** A value together with the equation that names it, for definitions
    that recurse on the result of a call. *)
Definition inspect {A : Type} (a : A) : {b : A | a = b} := exist _ a eq_refl.

(** * AVL tree ([9.1-avl-tree.js]) *)
Module AVL.
Local Open Scope Z_scope.

(** [class AVLNode]; [Null] is the JavaScript [null]. *)
Inductive AVLNode : Type :=
| Null
| Node (left : AVLNode) (value : Z) (height : Z) (right : AVLNode).

(** [class AVLTree]: the only field is [root]. *)
Record AVLTree : Type := mkAVLTree { root : AVLNode }.

Definition empty : AVLTree := mkAVLTree Null.

(** [height(node)]: [node ? node.height : 0]. *)
Definition height (node : AVLNode) : Z :=
  match node with
  | Null => 0
  | Node _ _ h _ => h
  end.

(** [balanceFactor(node)]; reading [node.left] of [null] is a TypeError. *)
Definition balanceFactor (node : AVLNode) : option Z :=
  match node with
  | Null => None
  | Node l _ _ r => Some (height l - height r)
  end.

(** [updateHeight(node)]: assigns [node.height]. *)
Definition updateHeight (node : AVLNode) : option AVLNode :=
  match node with
  | Null => None
  | Node l v _ r => Some (Node l v (1 + Z.max (height l) (height r)) r)
  end.

(** [rotateRight(y)]: [x = y.left; T2 = x.right; x.right = y; y.left = T2],
    then the two height updates, [y] first. *)
Definition rotateRight (y : AVLNode) : option AVLNode :=
  match y with
  | Node (Node xl xv xh T2) yv yh yr =>
      y' ← updateHeight (Node T2 yv yh yr);
      updateHeight (Node xl xv xh y')
  | _ => None
  end.

(** [rotateLeft(x)]: [y = x.right; T2 = y.left; y.left = x; x.right = T2],
    then the two height updates, [x] first. *)
Definition rotateLeft (x : AVLNode) : option AVLNode :=
  match x with
  | Node xl xv xh (Node T2 yv yh yr) =>
      x' ← updateHeight (Node xl xv xh T2);
      updateHeight (Node x' yv yh yr)
  | _ => None
  end.

(** Lines 118-149 of [_insert]: what happens to [node] once the recursive
    call has stored the new child. *)
Definition rebalance (node : AVLNode) (value : Z) : option AVLNode :=
  node ← updateHeight node;
  balance ← balanceFactor node;
  match node with
  | Null => None
  | Node l v h r =>
      if 1 <? balance then
        match l with
        | Null => None
        | Node _ lv _ _ =>
            if value <? lv then rotateRight node
            else l' ← rotateLeft l; rotateRight (Node l' v h r)
        end
      else if balance <? -1 then
        match r with
        | Null => None
        | Node _ rv _ _ =>
            if rv <? value then rotateLeft node
            else r' ← rotateRight r; rotateLeft (Node l v h r')
        end
      else Some node
  end.

(** [_insert(node, value)]. *)
Fixpoint _insert (node : AVLNode) (value : Z) : option AVLNode :=
  match node with
  | Null => Some (Node Null value 1 Null)
  | Node l v h r =>
      if value <? v then
        l' ← _insert l value; rebalance (Node l' v h r) value
      else if v <? value then
        r' ← _insert r value; rebalance (Node l v h r') value
      else Some node
  end.

(** [insert(value)]: [this.root = this._insert(this.root, value)]. *)
Definition insert (this : AVLTree) (value : Z) : option AVLTree :=
  mkAVLTree <$> _insert (root this) value.

(** [[...].forEach((val) => avl.insert(val))]. *)
Fixpoint insertAll (this : AVLTree) (values : list Z) : option AVLTree :=
  match values with
  | [] => Some this
  | v :: rest => this' ← insert this v; insertAll this' rest
  end.

(** [inorderTraversal(node)]: the lines written to the console, each a
    pair (value, height). *)
Fixpoint inorderTraversal (node : AVLNode) : list (Z * Z) :=
  match node with
  | Null => []
  | Node l v h r => inorderTraversal l ++ (v, h) :: inorderTraversal r
  end.

(** The values of the in-order traversal. *)
Definition inorder (node : AVLNode) : list Z := (inorderTraversal node).*1.

(** The object [{ count, value }] that [kthSmallest] threads through the
    helper. *)
Record KthResult : Type := mkKthResult { count : Z; kvalue : option Z }.

(** [_kthSmallestHelper(node, k, result)]; the [return] after a hit leaves
    only the current call, the callers go on counting. *)
Fixpoint _kthSmallestHelper (node : AVLNode) (k : Z) (result : KthResult) : KthResult :=
  match node with
  | Null => result
  | Node l v _ r =>
      let result := _kthSmallestHelper l k result in
      let result := mkKthResult (count result + 1) (kvalue result) in
      if count result =? k then mkKthResult (count result) (Some v)
      else _kthSmallestHelper r k result
  end.

(** [kthSmallest(k)]: the tree object after the call and the returned
    value ([None] is [null]). *)
Definition kthSmallest (this : AVLTree) (k : Z) : AVLTree * option Z :=
  (this, kvalue (_kthSmallestHelper (root this) k (mkKthResult 0 None))).

(** *** Invariants *)

Fixpoint allT (P : Z -> Prop) (t : AVLNode) : Prop :=
  match t with
  | Null => True
  | Node l v _ r => P v /\ allT P l /\ allT P r
  end.

(** Ordering: keys of the left subtree < node key < keys of the right
    subtree, at every node. *)
Fixpoint bst (t : AVLNode) : Prop :=
  match t with
  | Null => True
  | Node l v _ r => allT (fun y => y < v) l /\ allT (fun y => v < y) r /\ bst l /\ bst r
  end.

(** The height of the subtree, recomputed from its shape. *)
Fixpoint true_height (t : AVLNode) : Z :=
  match t with
  | Null => 0
  | Node l _ _ r => 1 + Z.max (true_height l) (true_height r)
  end.

(** Balance: at every node the stored height is the true height and the
    heights of the two subtrees differ by at most one. *)
Fixpoint balanced (t : AVLNode) : Prop :=
  match t with
  | Null => True
  | Node l _ h r =>
      balanced l /\ balanced r /\ h = true_height t /\
      -1 <= true_height l - true_height r <= 1
  end.

(** The subtree [t'] has just grown by an insertion of [x] below its root:
    [x] is not the root key and the side [x] went to is the taller one. *)
Definition grew (x : Z) (t' : AVLNode) : Prop :=
  match t' with
  | Null => False
  | Node l v _ r =>
      x <> v /\
      (x < v -> true_height l = true_height r + 1) /\
      (v < x -> true_height r = true_height l + 1)
  end.

(** What every sequence of [insert] calls establishes, starting from the
    empty tree. *)
Definition avl_inv (t : AVLNode) : Prop := balanced t /\ bst t.

End AVL.

(** * Treap ([19-treap.js]) *)
Module Treap.
Local Open Scope Z_scope.

(** [class TreapNode].  [priority] is the value [Math.random()] returned
    when the node was created: a double in [0,1), hence a rational. *)
Inductive TreapNode : Type :=
| Null
| Node (left : TreapNode) (value : Z) (priority : Q) (right : TreapNode).

(** [class Treap]: the only field is [root]. *)
Record Treap : Type := mkTreap { root : TreapNode }.

Definition empty : Treap := mkTreap Null.

(** [a > b] on priorities. *)
Definition Qgtb (a b : Q) : bool := negb (Qle_bool a b).

(** [rotateRight(y)]: [x = y.left; y.left = x.right; x.right = y]. *)
Definition rotateRight (y : TreapNode) : option TreapNode :=
  match y with
  | Node (Node xl xv xp xr) yv yp yr => Some (Node xl xv xp (Node xr yv yp yr))
  | _ => None
  end.

(** [rotateLeft(x)]: [y = x.right; x.right = y.left; y.left = x]. *)
Definition rotateLeft (x : TreapNode) : option TreapNode :=
  match x with
  | Node xl xv xp (Node yl yv yp yr) => Some (Node (Node xl xv xp yl) yv yp yr)
  | _ => None
  end.

(** [_insert(node, value)].  [random] is the number that [Math.random()]
    returns in the one [new TreapNode(value)] of the call. *)
Fixpoint _insert (node : TreapNode) (value : Z) (random : Q) : option TreapNode :=
  match node with
  | Null => Some (Node Null value random Null)
  | Node l v p r =>
      if value <? v then
        l' ← _insert l value random;
        match l' with
        | Null => None
        | Node _ _ lp _ =>
            if Qgtb lp p then rotateRight (Node l' v p r) else Some (Node l' v p r)
        end
      else
        r' ← _insert r value random;
        match r' with
        | Null => None
        | Node _ _ rp _ =>
            if Qgtb rp p then rotateLeft (Node l v p r') else Some (Node l v p r')
        end
  end.

(** [insert(value)]. *)
Definition insert (this : Treap) (value : Z) (random : Q) : option Treap :=
  mkTreap <$> _insert (root this) value random.

(** A sequence of [insert] calls, each with its random draw. *)
Fixpoint insertAll (this : Treap) (values : list (Z * Q)) : option Treap :=
  match values with
  | [] => Some this
  | (v, p) :: rest => this' ← insert this v p; insertAll this' rest
  end.

(** Number of nodes. *)
Fixpoint size (node : TreapNode) : nat :=
  match node with
  | Null => 0
  | Node l _ _ r => S (size l + size r)
  end.

(** [_delete(node, value)].  In the two-children case the node is rotated
    down and the call recurses on the child that now holds it. *)
Equations? _delete (node : TreapNode) (value : Z) : option TreapNode
  by wf (size node) lt :=
_delete Null value := Some Null;
_delete (Node l v p r) value with (value <? v), (v <? value) := {
  | true, _ => l' ← _delete l value; Some (Node l' v p r)
  | false, true => r' ← _delete r value; Some (Node l v p r')
  | false, false with l, r := {
    | Null, Null => Some Null
    | Null, Node _ _ _ _ => Some r
    | Node _ _ _ _, Null => Some l
    | Node ll lv lp lr, Node rl rv rp rr with Qgtb lp rp := {
      | true with inspect (rotateRight (Node (Node ll lv lp lr) v p (Node rl rv rp rr))) := {
        | exist _ (Some (Node nl nv np nr)) _ =>
            nr' ← _delete nr value; Some (Node nl nv np nr')
        | exist _ _ _ => None }
      | false with inspect (rotateLeft (Node (Node ll lv lp lr) v p (Node rl rv rp rr))) := {
        | exist _ (Some (Node nl nv np nr)) _ =>
            nl' ← _delete nl value; Some (Node nl' nv np nr)
        | exist _ _ _ => None } } } }.
Proof.
  all: simpl in *; lia.
Qed.

(** [delete(value)]. *)
Definition delete (this : Treap) (value : Z) : option Treap :=
  mkTreap <$> _delete (root this) value.

(** [_search(node, value)]. *)
Fixpoint _search (node : TreapNode) (value : Z) : bool :=
  match node with
  | Null => false
  | Node l v _ r =>
      if v =? value then true
      else if value <? v then _search l value
      else _search r value
  end.

(** [search(value)]. *)
Definition search (this : Treap) (value : Z) : bool := _search (root this) value.

(** [inorderTraversal(node)]: the lines written to the console, each a
    pair (value, priority). *)
Fixpoint inorderTraversal (node : TreapNode) : list (Z * Q) :=
  match node with
  | Null => []
  | Node l v p r => inorderTraversal l ++ (v, p) :: inorderTraversal r
  end.

Definition inorder (node : TreapNode) : list Z := (inorderTraversal node).*1.

End Treap.

(** * B+tree ([21-b+tree.js]) *)
Module BPlus.
Local Open Scope Z_scope.

(** Node objects live in a store and are named by their position in it. *)
Abbreviation loc := nat.

(** An element of [childPointers]: a node (internal nodes), a datum (leaves;
    the test stores strings), or [null] / a hole. *)
Inductive pointer : Type :=
| PNode (l : loc)
| PData (v : string)
| PNull.

(** [class BPlusTreeNode]. *)
Record BPlusTreeNode : Type := mkBNode {
  keys : list Z;
  childPointers : list pointer;
  isLeaf : bool;
  nextLeaf : option loc
}.

(** The store: every object made by [new BPlusTreeNode], in allocation
    order. *)
Abbreviation store := (list BPlusTreeNode).

(** [class BPlusTree], together with the store its nodes live in. *)
Record BPlusTree : Type := mkBPlusTree {
  nodes : store;
  root : option loc;
  minimumDegree : Z;
  maxKeysPerNode : Z
}.

(** [constructor(minimumDegree)]. *)
Definition new_BPlusTree (minimumDegree : Z) : BPlusTree :=
  mkBPlusTree [] None minimumDegree (2 * minimumDegree - 1).

(** How a call ends.  [TypeError] is the JavaScript exception raised by a
    property access on [null] or [undefined].  The other two are limits of
    the embedding: [OutOfFuel] when a recursion or loop bound of the
    embedding is used up, [Stuck] where the source would go on with a value
    the embedding has no room for ([undefined] stored as a key, a reference
    to an object that was never allocated). *)
Inductive outcome (A : Type) : Type :=
| Done (a : A)
| TypeError
| OutOfFuel
| Stuck.
Arguments Done {A} a.
Arguments TypeError {A}.
Arguments OutOfFuel {A}.
Arguments Stuck {A}.

(** Statements that read and write the store. *)
Definition M (A : Type) : Type := store -> store * outcome A.

Definition ret {A : Type} (a : A) : M A := fun h => (h, Done a).

Definition throw {A : Type} (e : outcome unit) : M A :=
  fun h => (h, match e with
               | Done _ => Stuck
               | TypeError => TypeError
               | OutOfFuel => OutOfFuel
               | Stuck => Stuck
               end).

Definition bind {A B : Type} (m : M A) (f : A -> M B) : M B :=
  fun h =>
    match m h with
    | (h', Done a) => f a h'
    | (h', TypeError) => (h', TypeError)
    | (h', OutOfFuel) => (h', OutOfFuel)
    | (h', Stuck) => (h', Stuck)
    end.

Notation "'do' x <- m ; f" := (bind m (fun x => f))
  (at level 10, x name, m at level 100, f at level 200).
Notation "m ;; f" := (bind m (fun _ => f))
  (at level 100, f at level 200, right associativity).

(** [new BPlusTreeNode(isLeaf)]. *)
Definition new_node (leaf : bool) : M loc :=
  fun h => (h ++ [mkBNode [] [] leaf None], Done (List.length h)).

(** Reading the fields of the object at [l]. *)
Definition read (l : loc) : M BPlusTreeNode :=
  fun h => match h !! l with
           | Some n => (h, Done n)
           | None => (h, Stuck)
           end.

(** Assigning fields of the object at [l]. *)
Definition modify (l : loc) (f : BPlusTreeNode -> BPlusTreeNode) : M unit :=
  fun h => match h !! l with
           | Some n => (<[l := f n]> h, Done tt)
           | None => (h, Stuck)
           end.

(** Using an array element as a node object: a property access on
    [undefined] or [null] throws, and so does the first use of a property of
    a string. *)
Definition as_node (p : option pointer) : M loc :=
  match p with
  | Some (PNode l) => ret l
  | _ => throw TypeError
  end.

Definition set_keys (ks : list Z) (n : BPlusTreeNode) : BPlusTreeNode :=
  mkBNode ks (childPointers n) (isLeaf n) (nextLeaf n).
Definition set_childPointers (cps : list pointer) (n : BPlusTreeNode) : BPlusTreeNode :=
  mkBNode (keys n) cps (isLeaf n) (nextLeaf n).
Definition set_nextLeaf (nl : option loc) (n : BPlusTreeNode) : BPlusTreeNode :=
  mkBNode (keys n) (childPointers n) (isLeaf n) nl.

(** *** Arrays *)

(** [a[i] = x]: past the end the array grows, the gap filled with holes. *)
Definition js_set {A : Type} (hole : A) (i : nat) (x : A) (a : list A) : list A :=
  if (i <? List.length a)%nat then <[i := x]> a
  else a ++ replicate (i - List.length a) hole ++ [x].

(** The position at which [splice(start, ...)] acts on an array of length
    [len]: a negative [start] counts from the end, and the result is clamped
    to [0 .. len]. *)
Definition splice_start (len : nat) (start : Z) : nat :=
  if start <? 0 then Z.to_nat (Z.max (Z.of_nat len + start) 0)
  else Z.to_nat (Z.min start (Z.of_nat len)).

(** [a.splice(start, 0, x)]. *)
Definition splice_insert {A : Type} (start : Z) (x : A) (a : list A) : list A :=
  let n := splice_start (List.length a) start in
  take n a ++ x :: drop n a.

(** [a.splice(start)]: what stays in [a] and what is returned. *)
Definition splice_from {A : Type} (start : Z) (a : list A) : list A * list A :=
  let n := splice_start (List.length a) start in
  (take n a, drop n a).

(** [a[i]] for a number [i]: [undefined] when [i] is not an index. *)
Definition js_get {A : Type} (a : list A) (i : Z) : option A :=
  if i <? 0 then None else a !! Z.to_nat i.

(** The loop [while (keyIndex < keys.length && keyToFind > keys[keyIndex])
    keyIndex++], from [keyIndex = 0]. *)
Fixpoint scanUp (ks : list Z) (keyToFind : Z) : nat :=
  match ks with
  | [] => 0%nat
  | x :: rest => if x <? keyToFind then S (scanUp rest keyToFind) else 0%nat
  end.

(** The loop [while (keyIndex >= 0 && keyToInsert < keys[keyIndex])
    keyIndex--] followed by [keyIndex++]; [n] is [keyIndex + 1]. *)
Fixpoint scanDown (n : nat) (ks : list Z) (keyToInsert : Z) : nat :=
  match n with
  | O => 0%nat
  | S i =>
      match ks !! i with
      | Some x => if keyToInsert <? x then scanDown i ks keyToInsert else S i
      | None => S i
      end
  end.

(** The shifting loop of the leaf case of [_insertNonFull]; [n] is
    [keyIndex + 1].  Returns [keyIndex + 1] at loop exit and the arrays. *)
Fixpoint leafShift (n : nat) (keyToInsert : Z) (ks : list Z) (cps : list pointer)
  : nat * list Z * list pointer :=
  match n with
  | O => (0%nat, ks, cps)
  | S i =>
      match ks !! i with
      | Some x =>
          if keyToInsert <? x then
            leafShift i keyToInsert
              (js_set 0 (S i) x ks)
              (js_set PNull (S i) (default PNull (cps !! i)) cps)
          else (S i, ks, cps)
      | None => (S i, ks, cps)
      end
  end.

(** The leaf case of [_insertNonFull] (lines 140-149), on the node's
    fields.  [push(null)] appends [0] to the keys: in a comparison [null]
    counts as [0], and the slot is overwritten before the call ends. *)
Definition leafInsert (keyToInsert : Z) (valueToInsert : string) (n : BPlusTreeNode)
  : BPlusTreeNode :=
  let '(j, ks, cps) :=
    leafShift (List.length (keys n)) keyToInsert (keys n ++ [0]) (childPointers n ++ [PNull]) in
  mkBNode (js_set 0 j keyToInsert ks) (js_set PNull j (PData valueToInsert) cps)
          (isLeaf n) (nextLeaf n).

(** *** Methods *)

(** [_recursiveSearch(currentNode, keyToFind)]; the result is the datum
    found, [PNull] for [null].  [fuel] bounds the number of nested calls. *)
Fixpoint _recursiveSearch (fuel : nat) (currentNode : option pointer) (keyToFind : Z)
  : M pointer :=
  match fuel with
  | O => throw OutOfFuel
  | S fuel =>
      do c <- as_node currentNode;
      do n <- read c;
      let keyIndex := scanUp (keys n) keyToFind in
      if isLeaf n then
        match keys n !! keyIndex with
        | Some x =>
            if x =? keyToFind then ret (default PNull (childPointers n !! keyIndex))
            else ret PNull
        | None => ret PNull
        end
      else _recursiveSearch fuel (childPointers n !! keyIndex) keyToFind
  end.

(** [search(keyToFind)]. *)
Definition search (this : BPlusTree) (keyToFind : Z) : outcome pointer :=
  match root this with
  | None => Done PNull
  | Some r =>
      snd (_recursiveSearch (S (List.length (nodes this))) (Some (PNode r)) keyToFind
             (nodes this))
  end.

(** [_splitChild(parentNode, childIndex)] for [minimumDegree = t]. *)
Definition _splitChild (t : Z) (parentNode : loc) (childIndex : nat) : M unit :=
  do p <- read parentNode;
  do childNode <- as_node (childPointers p !! childIndex);
  do c <- read childNode;
  do newNode <- new_node (isLeaf c);
  modify parentNode
    (fun p => set_childPointers
                (splice_insert (Z.of_nat childIndex + 1) (PNode newNode) (childPointers p)) p);;
  do c <- read childNode;
  match js_get (keys c) (t - 1) with
  | None => throw Stuck
  | Some median =>
      modify parentNode
        (fun p => set_keys (splice_insert (Z.of_nat childIndex) median (keys p)) p);;
      do c <- read childNode;
      modify childNode (set_keys (fst (splice_from (t - 1) (keys c))));;
      modify newNode (set_keys (snd (splice_from (t - 1) (keys c))));;
      do c <- read childNode;
      if negb (isLeaf c) then
        modify childNode (set_childPointers (fst (splice_from t (childPointers c))));;
        modify newNode (set_childPointers (snd (splice_from t (childPointers c))))
      else
        modify childNode (set_childPointers (fst (splice_from (t - 1) (childPointers c))));;
        modify newNode (set_childPointers (snd (splice_from (t - 1) (childPointers c))));;
        do c <- read childNode;
        modify newNode (set_nextLeaf (nextLeaf c));;
        modify childNode (set_nextLeaf (Some newNode))
  end.

(** [_insertNonFull(currentNode, keyToInsert, valueToInsert)] for
    [minimumDegree = t] and [maxKeysPerNode = maxKeys].  Each call of the
    source descends one level; [fuel] bounds the number of nested calls. *)
Fixpoint _insertNonFull (fuel : nat) (t maxKeys : Z) (currentNode : option pointer)
    (keyToInsert : Z) (valueToInsert : string) : M unit :=
  match fuel with
  | O => throw OutOfFuel
  | S fuel =>
      do cur <- as_node currentNode;
      do n <- read cur;
      if isLeaf n then modify cur (leafInsert keyToInsert valueToInsert)
      else
        let keyIndex := scanDown (List.length (keys n)) (keys n) keyToInsert in
        do child <- as_node (childPointers n !! keyIndex);
        do c <- read child;
        if Z.of_nat (List.length (keys c)) =? maxKeys then
          _splitChild t cur keyIndex;;
          do n <- read cur;
          let keyIndex :=
            match keys n !! keyIndex with
            | Some x => if x <? keyToInsert then S keyIndex else keyIndex
            | None => keyIndex
            end in
          _insertNonFull fuel t maxKeys (childPointers n !! keyIndex) keyToInsert valueToInsert
        else
          _insertNonFull fuel t maxKeys (childPointers n !! keyIndex) keyToInsert valueToInsert
  end.

(** [insert(keyToInsert, valueToInsert)]: the tree object and the store
    after the call, and how the call ended.  The descent gets as many nested
    calls as there are nodes, which is more than the tree is high. *)
Definition insert (this : BPlusTree) (keyToInsert : Z) (valueToInsert : string)
  : BPlusTree * outcome unit :=
  let t := minimumDegree this in
  let maxKeys := maxKeysPerNode this in
  let upd h r := mkBPlusTree h r t maxKeys in
  match root this with
  | None =>
      let '(h, o) :=
        (do r <- new_node true;
         modify r (fun n => set_keys (keys n ++ [keyToInsert]) n);;
         modify r (fun n => set_childPointers (childPointers n ++ [PData valueToInsert]) n);;
         ret r) (nodes this) in
      match o with
      | Done r => (upd h (Some r), Done tt)
      | TypeError => (upd h None, TypeError)
      | OutOfFuel => (upd h None, OutOfFuel)
      | Stuck => (upd h None, Stuck)
      end
  | Some r =>
      let '(h, o) :=
        (do n <- read r;
         if Z.of_nat (List.length (keys n)) =? maxKeys then
           do newRoot <- new_node false;
           modify newRoot (fun n => set_childPointers (childPointers n ++ [PNode r]) n);;
           _splitChild t newRoot 0;;
           ret newRoot
         else ret r) (nodes this) in
      match o with
      | Done r' =>
          let '(h, o) :=
            _insertNonFull (List.length h) t maxKeys (Some (PNode r'))
              keyToInsert valueToInsert h in
          (upd h (Some r'), o)
      | TypeError => (upd h (Some r), TypeError)
      | OutOfFuel => (upd h (Some r), OutOfFuel)
      | Stuck => (upd h (Some r), Stuck)
      end
  end.

(** [[...].forEach((value, index) => bPlusTree.insert(value, ...))]: the
    calls in order, up to the first one that throws. *)
Fixpoint insertAll (this : BPlusTree) (entries : list (Z * string))
  : BPlusTree * outcome unit :=
  match entries with
  | [] => (this, Done tt)
  | (k, v) :: rest =>
      match insert this k v with
      | (this', Done _) => insertAll this' rest
      | (this', o) => (this', o)
      end
  end.

(** [_findLeafNode(currentNode, keyToFind)]. *)
Fixpoint _findLeafNode (fuel : nat) (currentNode : option pointer) (keyToFind : Z)
  : M loc :=
  match fuel with
  | O => throw OutOfFuel
  | S fuel =>
      do c <- as_node currentNode;
      do n <- read c;
      if isLeaf n then ret c
      else _findLeafNode fuel (childPointers n !! scanUp (keys n) keyToFind) keyToFind
  end.

(** The [for] loop of [rangeQuery] over one leaf, from index [i] on, [ks]
    being the keys from [i] on.  The flag tells that [return result] was
    reached. *)
Fixpoint scanLeaf (ks : list Z) (i : nat) (cps : list pointer) (startKey endKey : Z)
    (result : list (Z * pointer)) : list (Z * pointer) * bool :=
  match ks with
  | [] => (result, false)
  | x :: rest =>
      let result :=
        if (startKey <=? x) && (x <=? endKey)
        then result ++ [(x, default PNull (cps !! i))]
        else result in
      if endKey <? x then (result, true)
      else scanLeaf rest (S i) cps startKey endKey result
  end.

(** The [while (leafNode !== null)] loop of [rangeQuery]. *)
Fixpoint walkLeaves (fuel : nat) (leafNode : option loc) (startKey endKey : Z)
    (result : list (Z * pointer)) : M (list (Z * pointer)) :=
  match fuel with
  | O => throw OutOfFuel
  | S fuel =>
      match leafNode with
      | None => ret result
      | Some l =>
          do n <- read l;
          let '(result, returned) :=
            scanLeaf (keys n) 0 (childPointers n) startKey endKey result in
          if returned then ret result
          else walkLeaves fuel (nextLeaf n) startKey endKey result
      end
  end.

(** [rangeQuery(startKey, endKey)]: the array of [{key, value}]. *)
Definition rangeQuery (this : BPlusTree) (startKey endKey : Z)
  : outcome (list (Z * pointer)) :=
  snd ((do leafNode <- _findLeafNode (S (List.length (nodes this)))
                         (PNode <$> root this) startKey;
        walkLeaves (S (List.length (nodes this))) (Some leafNode) startKey endKey [])
         (nodes this)).

(** *** Shape of the tree *)


(** What holds of the node [n] stored at [l], in a tree of minimum degree
    [t] and root [r]; [lvl] gives the height of every node above the
    leaves. *)
Record node_wf (t : Z) (h : store) (lvl : loc -> nat) (r l : loc) (n : BPlusTreeNode)
  : Prop := mkNodeWf {
  wf_upper : Z.of_nat (List.length (keys n)) <= 2 * t - 1;
  wf_lower : l <> r -> t - 1 <= Z.of_nat (List.length (keys n));
  wf_leaf : isLeaf n = true -> lvl l = 0%nat;
  wf_kids : isLeaf n = false -> forall q, q ∈ childPointers n ->
            exists c, q = PNode c /\ (c < List.length h)%nat /\ lvl l = S (lvl c) /\ c <> r;
  wf_lvl : (lvl l < List.length h)%nat
}.

Definition store_wf (t : Z) (h : store) (lvl : loc -> nat) (r : loc) : Prop :=
  (r < List.length h)%nat /\ forall l n, h !! l = Some n -> node_wf t h lvl r l n.

(** The states of a tree of minimum degree [t] that the proofs go
    through. *)
Definition tree_wf (t : Z) (this : BPlusTree) : Prop :=
  minimumDegree this = t /\ maxKeysPerNode this = 2 * t - 1 /\
  match root this with
  | None => nodes this = []
  | Some r => exists lvl, store_wf t (nodes this) lvl r
  end.

(** The index states: what [insert] calls make of a new tree, whether a
    call returned or threw. *)
Inductive reachable (t : Z) : BPlusTree -> Prop :=
| reachable_new : reachable t (new_BPlusTree t)
| reachable_insert this k v :
    reachable t this -> reachable t (fst (insert this k v)).

End BPlus.

(** * Scenarios and statements of the specification *)
Module Scenario.
Local Open Scope Z_scope.
Local Open Scope string_scope.

(** The values [1 .. 6] and then [0], inserted into a B+tree of minimum
    degree 2: the seventh call splits the full internal root. *)
Definition run_root_split : list (Z * string) :=
  [(1, "a"); (2, "b"); (3, "c"); (4, "d"); (5, "e"); (6, "f"); (0, "g")].

(** Ten insertions into a B+tree of minimum degree 2, all of which
    return. *)
Definition run_misrouted : list (Z * string) :=
  [(10, "a"); (20, "b"); (30, "c"); (40, "d"); (50, "e");
   (25, "f"); (5, "g"); (7, "h"); (1, "i"); (22, "j")].

(** The test of [21-b+tree.js]. *)
Definition run_test : list (Z * string) :=
  [(3, "data0"); (7, "data1"); (1, "data2"); (5, "data3"); (11, "data4");
   (17, "data5"); (13, "data6"); (2, "data7"); (19, "data8"); (23, "data9")].

Definition after (t : Z) (entries : list (Z * string)) : BPlus.BPlusTree :=
  fst (BPlus.insertAll (BPlus.new_BPlusTree t) entries).




(** C3 as the specification states it for the Treap: the in-order
    traversal after any insertions is strictly ascending. *)
Definition treap_strictly_ascending : Prop :=
  forall (values : list (Z * Q)) (treap : Treap.Treap),
    Treap.insertAll Treap.empty values = Some treap ->
    StronglySorted Z.lt (Treap.inorder (Treap.root treap)).

End Scenario.

(** * Further vocabulary *)

(** ** The heap order of a treap *)
Module TreapHeap.
Import Treap.

(** The priority at the root of [t] is at most [p]; [null] has none. *)
Definition root_le (p : Q) (t : TreapNode) : Prop :=
  match t with
  | Null => True
  | Node _ _ q _ => (q <= p)%Q
  end.

(** The priorities at the roots of the children of [t] are at most [p]. *)
Definition kids_le (p : Q) (t : TreapNode) : Prop :=
  match t with
  | Null => True
  | Node l _ _ r => root_le p l /\ root_le p r
  end.

(** Heap property: no node has a priority below that of a child. *)
Fixpoint heap (t : TreapNode) : Prop :=
  match t with
  | Null => True
  | Node l _ p r => root_le p l /\ root_le p r /\ heap l /\ heap r
  end.

End TreapHeap.

(** ** Binary search ([19-treap.js], [binarySearch]) *)
Module BinarySearch.
Local Open Scope Z_scope.

(** The [while (left <= right)] loop of [binarySearch]; [left_] and
    [right_] are the variables [left] and [right].  An index outside the
    array reads [undefined], which is neither equal to nor greater than the
    target, so the search goes on to the right of it. *)
Equations? loop (sortedArray : list Z) (targetValue : Z) (left_ right_ : Z) : Z
  by wf (Z.to_nat (right_ - left_ + 1)) lt :=
loop sortedArray targetValue left_ right_ with inspect (left_ <=? right_) := {
  | exist _ false _ => -1
  | exist _ true _ with inspect (sortedArray !! Z.to_nat ((left_ + right_) / 2)) := {
    | exist _ None _ => loop sortedArray targetValue ((left_ + right_) / 2 + 1) right_
    | exist _ (Some middleValue) _ =>
        if middleValue =? targetValue then (left_ + right_) / 2
        else if targetValue <? middleValue
             then loop sortedArray targetValue left_ ((left_ + right_) / 2 - 1)
             else loop sortedArray targetValue ((left_ + right_) / 2 + 1) right_ } }.
Proof.
  all: apply Z.leb_le in e;
       pose proof (Z.div_mod (left_ + right_) 2 ltac:(lia));
       pose proof (Z.mod_pos_bound (left_ + right_) 2 ltac:(lia)); lia.
Qed.

(** [binarySearch(sortedArray, targetValue)]. *)
Definition binarySearch (sortedArray : list Z) (targetValue : Z) : Z :=
  loop sortedArray targetValue 0 (Z.of_nat (List.length sortedArray) - 1).

End BinarySearch.

(** ** Singly linked list ([19-treap.js], [class LinkedList]) *)
Module LinkedList.
Local Open Scope Z_scope.

(** [class Node]; [Null] is [null]. *)
Inductive Node : Type :=
| Null
| mkNode (data : Z) (next : Node).

(** [class LinkedList]: the only field is [head]. *)
Record LinkedList : Type := mkLinkedList { head : Node }.

Definition empty : LinkedList := mkLinkedList Null.

(** The loop of [insert] from [current] on, [current] not [null]: walk to
    the last node and hang [newNode] behind it. *)
Fixpoint insert_loop (current : Node) (newNode : Node) : Node :=
  match current with
  | Null => Null
  | mkNode d Null => mkNode d newNode
  | mkNode d next => mkNode d (insert_loop next newNode)
  end.

(** [insert(data)]. *)
Definition insert (this : LinkedList) (data : Z) : LinkedList :=
  let newNode := mkNode data Null in
  match head this with
  | Null => mkLinkedList newNode
  | current => mkLinkedList (insert_loop current newNode)
  end.

(** The loop of [delete] from [current] on: unlink the first node behind
    [current] that holds [data]. *)
Fixpoint delete_loop (current : Node) (data : Z) : Node :=
  match current with
  | Null => Null
  | mkNode d Null => mkNode d Null
  | mkNode d (mkNode d' next' as next) =>
      if d' =? data then mkNode d next'
      else mkNode d (delete_loop next data)
  end.

(** [delete(data)]. *)
Definition delete (this : LinkedList) (data : Z) : LinkedList :=
  match head this with
  | Null => this
  | mkNode d next =>
      if d =? data then mkLinkedList next
      else mkLinkedList (delete_loop (mkNode d next) data)
  end.

(** The loop of [search]. *)
Fixpoint search_loop (current : Node) (data : Z) : bool :=
  match current with
  | Null => false
  | mkNode d next => if d =? data then true else search_loop next data
  end.

(** [search(data)]. *)
Definition search (this : LinkedList) (data : Z) : bool :=
  search_loop (head this) data.

(** The loop of [reverse]: [next = current.next; current.next = prev;
    prev = current; current = next]. *)
Fixpoint reverse_loop (prev current : Node) : Node :=
  match current with
  | Null => prev
  | mkNode d next => reverse_loop (mkNode d prev) next
  end.

(** [reverse()]. *)
Definition reverse (this : LinkedList) : LinkedList :=
  mkLinkedList (reverse_loop Null (head this)).

(** The loop of [findMiddle]: [slow] moves one node while [fast] moves
    two; at the end [slow.data] is returned.  [None] is the TypeError of
    reading a field of [null], [Some None] the result [null]. *)
Fixpoint findMiddle_loop (slow fast : Node) : option (option Z) :=
  match fast with
  | mkNode _ (mkNode _ fast') =>
      match slow with
      | mkNode _ slow' => findMiddle_loop slow' fast'
      | Null => None
      end
  | _ => match slow with
         | mkNode d _ => Some (Some d)
         | Null => None
         end
  end.

(** [findMiddle()]. *)
Definition findMiddle (this : LinkedList) : option (option Z) :=
  match head this with
  | Null => Some None
  | h => findMiddle_loop h h
  end.

(** The inner loop of [removeDuplicates] on the nodes behind [runner]:
    every node that holds [data] is unlinked. *)
Fixpoint unlink_all (chain : Node) (data : Z) : Node :=
  match chain with
  | Null => Null
  | mkNode d next =>
      if d =? data then unlink_all next data
      else mkNode d (unlink_all next data)
  end.

(** Number of nodes. *)
Fixpoint len (n : Node) : nat :=
  match n with
  | Null => 0
  | mkNode _ next => S (len next)
  end.

Lemma len_unlink_all chain data : (len (unlink_all chain data) <= len chain)%nat.
Proof.
  induction chain as [|d next IH]; simpl; [lia|].
  destruct (d =? data); simpl; lia.
Qed.

(** The outer loop of [removeDuplicates] from [current] on. *)
Equations? removeDuplicates_loop (current : Node) : Node by wf (len current) lt :=
removeDuplicates_loop Null := Null;
removeDuplicates_loop (mkNode d next) := mkNode d (removeDuplicates_loop (unlink_all next d)).
Proof. pose proof (len_unlink_all next d). lia. Qed.

(** [removeDuplicates()]. *)
Definition removeDuplicates (this : LinkedList) : LinkedList :=
  mkLinkedList (removeDuplicates_loop (head this)).

(** [print()]: the array [result] whose elements are joined and logged. *)
Fixpoint print_loop (current : Node) : list Z :=
  match current with
  | Null => []
  | mkNode d next => d :: print_loop next
  end.

Definition print (this : LinkedList) : list Z := print_loop (head this).

End LinkedList.

(** ** Linked lists in a store ([19-treap.js], [hasCycle]) *)
Module LinkedListHeap.

(** [class Node] as an object in a store: [next] is [null] or the position
    of a node, so that a list can run back into itself. *)
Record Node : Type := mkNode { data : Z; next : option nat }.

Abbreviation store := (list Node).

(** How a call ends: with a result, with the TypeError of reading a field
    of [null], or with the model's fuel used up. *)
Inductive outcome : Type :=
| Return (b : bool)
| TypeError
| OutOfFuel.

(** [p.next]; [None] when [p] is [null] (a TypeError) or no node of the
    store. *)
Definition get_next (h : store) (p : option nat) : option (option nat) :=
  l ← p; n ← h !! l; Some (next n).

(** The loop of [hasCycle]: [while (fast && fast.next) { slow = slow.next;
    fast = fast.next.next; if (slow === fast) return true; } return
    false]. *)
Fixpoint hasCycle_loop (fuel : nat) (h : store) (slow fast : option nat) : outcome :=
  match fuel with
  | O => OutOfFuel
  | S fuel =>
      match fast with
      | None => Return false
      | Some _ =>
          match get_next h fast with
          | None => TypeError
          | Some None => Return false
          | Some (Some f1) =>
              match get_next h slow, get_next h (Some f1) with
              | Some slow', Some fast' =>
                  if decide (slow' = fast') then Return true
                  else hasCycle_loop fuel h slow' fast'
              | _, _ => TypeError
              end
          end
      end
  end.

(** [hasCycle()] on the list that starts at [head].  The loop gets one
    round per node of the store and one more. *)
Definition hasCycle (h : store) (head : option nat) : outcome :=
  match head with
  | None => Return false
  | Some _ => hasCycle_loop (S (List.length h)) h head head
  end.

(** One step along [next]; [null] stays [null]. *)
Definition step (h : store) (p : option nat) : option nat :=
  l ← p; n ← h !! l; next n.

(** Where [k] steps from [p] lead. *)
Definition walk (h : store) (k : nat) (p : option nat) : option nat :=
  Nat.iter k (step h) p.

(** [p] is [null] or a node of the store. *)
Definition in_store (h : store) (p : option nat) : bool :=
  match p with
  | None => true
  | Some l => (l <? List.length h)%nat
  end.

(** Every reference is to a node of the store. *)
Definition closed (h : store) (head : option nat) : bool :=
  in_store h head && forallb (fun n => in_store h (next n)) h.

End LinkedListHeap.

(** ** Entries, typing and leaf chain of a B+tree store *)
Module BPlusExt.
Import BPlus.
Local Open Scope Z_scope.

Definition is_data (p : pointer) : Prop :=
  match p with PData _ => True | _ => False end.

Definition is_node (p : pointer) : Prop :=
  match p with PNode _ => True | _ => False end.

(** A leaf holds one datum per key and nothing else, and its keys are in
    ascending order; an internal node holds node references and no
    datum. *)
Definition node_typed (n : BPlusTreeNode) : Prop :=
  if isLeaf n
  then List.length (childPointers n) = List.length (keys n) /\
       Forall is_data (childPointers n) /\
       StronglySorted Z.le (keys n)
  else Forall is_node (childPointers n).

(** The (key, value) pairs of a node: those of its two arrays when it is a
    leaf, none otherwise. *)
Definition leaf_entries (n : BPlusTreeNode) : list (Z * pointer) :=
  if isLeaf n then zip (keys n) (childPointers n) else [].

(** All stored pairs, leaf by leaf in allocation order. *)
Definition entries (h : store) : list (Z * pointer) := flat_map leaf_entries h.

(** [chain h first ls]: following [nextLeaf] from [first] visits the nodes
    [ls] in this order and then reaches [null]. *)
Inductive chain (h : store) : option loc -> list loc -> Prop :=
| chain_end : chain h None []
| chain_step l n ls :
    h !! l = Some n -> chain h (nextLeaf n) ls -> chain h (Some l) (l :: ls).

(** [x] is the pair found at some index of the two arrays of a node. *)
Definition stored_in (h : store) (x : Z * pointer) : Prop :=
  exists l n i, h !! l = Some n /\ keys n !! i = Some (fst x) /\
                snd x = default PNull (childPointers n !! i).

(** [x] is stored and its key lies between [lo] and [hi]. *)
Definition in_range (lo hi : Z) (h : store) (x : Z * pointer) : Prop :=
  lo <= fst x <= hi /\ stored_in h x.

(** [L] with [new] put right after [c]. *)
Fixpoint ins_after (c new : loc) (L : list loc) : list loc :=
  match L with
  | [] => []
  | l :: ls => if (l =? c)%nat then l :: new :: ls else l :: ins_after c new ls
  end.

Definition leaf_at (h : store) (l : loc) : Prop :=
  exists n, h !! l = Some n /\ isLeaf n = true.

(** Following [nextLeaf] from the node allocated first visits every leaf
    once and no other node. *)
Definition leaves_linked (h : store) : Prop :=
  h <> [] ->
  exists L, chain h (Some 0%nat) L /\ NoDup L /\ forall l, l ∈ L <-> leaf_at h l.

Definition ext_inv (h : store) : Prop := Forall node_typed h /\ leaves_linked h.

(** The stored pairs after a call of [insert(k, v)] that ended with [o]. *)
Definition grown (k : Z) (v : string) (E : list (Z * pointer)) (o : outcome unit)
  : list (Z * pointer) :=
  match o with Done _ => (k, PData v) :: E | _ => E end.

(** A returned pair is one of the stored pairs and its key lies in the
    range. *)
Definition answer (lo hi : Z) (h : store) (x : Z * pointer) : Prop :=
  lo <= fst x <= hi /\ x ∈ entries h.

End BPlusExt.

(** ** The traversal of a B+tree ([inorderTraversal]) *)
Module BPlusTraversal.
Import BPlus BPlusExt.
Local Open Scope Z_scope.

(** A line written by [console.log]: [key: value] for a pair of a leaf, the
    key alone for a key of an internal node. *)
Inductive line : Type :=
| PairLine (k : Z) (v : pointer)
| KeyLine (k : Z).

(** The [for] loop of [_recursiveInorderTraversal] over a leaf, from index
    [i] on, [ks] being the keys from [i] on. *)
Fixpoint leafLines (ks : list Z) (i : nat) (cps : list pointer) : list line :=
  match ks with
  | [] => []
  | k :: rest => PairLine k (default PNull (cps !! i)) :: leafLines rest (S i) cps
  end.

(** The [for] loop over an internal node, from index [i] on; [recurse] is
    the recursive call. *)
Fixpoint internalLines (recurse : option pointer -> M (list line))
    (ks : list Z) (i : nat) (cps : list pointer) : M (list line) :=
  match ks with
  | [] => ret []
  | k :: rest =>
      do a <- recurse (cps !! i);
      do b <- internalLines recurse rest (S i) cps;
      ret (a ++ KeyLine k :: b)
  end.

(** [_recursiveInorderTraversal(currentNode)]: the lines it writes.
    [if (currentNode)] skips [null], [undefined] and the empty string; a
    non-empty string has no [keys], whose [length] is then a TypeError.
    [fuel] bounds the number of nested calls. *)
Fixpoint _recursiveInorderTraversal (fuel : nat) (currentNode : option pointer)
  : M (list line) :=
  match fuel with
  | O => throw OutOfFuel
  | S fuel =>
      match currentNode with
      | None | Some PNull => ret []
      | Some (PData s) => if String.eqb s EmptyString then ret [] else throw TypeError
      | Some (PNode c) =>
          do n <- read c;
          if isLeaf n then ret (leafLines (keys n) 0 (childPointers n))
          else
            do a <- internalLines (_recursiveInorderTraversal fuel) (keys n) 0
                      (childPointers n);
            do b <- _recursiveInorderTraversal fuel
                      (childPointers n !! List.length (keys n));
            ret (a ++ b)
      end
  end.

(** [inorderTraversal()]. *)
Definition inorderTraversal (this : BPlusTree) : outcome (list line) :=
  snd (_recursiveInorderTraversal (S (List.length (nodes this))) (PNode <$> root this)
         (nodes this)).

(** The pair of a [key: value] line is held in a leaf. *)
Definition line_stored (h : store) (l : line) : Prop :=
  match l with
  | PairLine k v => (k, v) ∈ entries h
  | KeyLine _ => True
  end.

End BPlusTraversal.

(** * Counting nodes *)
Module AVLExt.
Import AVL.
Local Open Scope Z_scope.

(** Number of nodes. *)
Fixpoint size (t : AVLNode) : Z :=
  match t with
  | Null => 0
  | Node l _ _ r => 1 + size l + size r
  end.

End AVLExt.

Module AVLFacts.
Import AVL.
Local Open Scope Z_scope.

Lemma inorder_node l v h r : inorder (Node l v h r) = inorder l ++ v :: inorder r.
Proof. unfold inorder. simpl. now rewrite fmap_app. Qed.

Lemma allT_Forall P t : allT P t <-> Forall P (inorder t).
Proof.
  induction t as [|l IHl v h r IHr].
  - simpl. split; auto.
  - rewrite inorder_node, Forall_app, Forall_cons. simpl. tauto.
Qed.

Lemma sorted_app_cons (a b : list Z) v :
  StronglySorted Z.lt (a ++ v :: b) <->
  StronglySorted Z.lt a /\ StronglySorted Z.lt b /\
  Forall (fun y => y < v) a /\ Forall (fun y => v < y) b.
Proof.
  induction a as [|y a IH]; simpl.
  - split.
    + intros H. inversion H; subst. repeat split; auto. constructor.
    + intros (_ & Hb & _ & Hvb). constructor; auto.
  - split.
    + intros H. inversion H as [|? ? Hs Hf]; subst.
      apply IH in Hs as (Ha & Hb & Hav & Hvb).
      rewrite Forall_app, Forall_cons in Hf. destruct Hf as (Hya & Hyv & Hyb).
      repeat split; auto. constructor; auto.
    + intros (Ha & Hb & Hav & Hvb).
      inversion Ha as [|? ? Hs Hf]; subst. inversion Hav as [|? ? Hyv Hav']; subst.
      constructor.
      * apply IH. auto.
      * rewrite Forall_app, Forall_cons. repeat split; auto.
        eapply Forall_impl; [exact Hvb|]. simpl. intros; lia.
Qed.

Lemma bst_sorted t : bst t <-> StronglySorted Z.lt (inorder t).
Proof.
  induction t as [|l IHl v h r IHr].
  - simpl. split; auto. intros _. constructor.
  - rewrite inorder_node, sorted_app_cons. simpl.
    rewrite !allT_Forall, IHl, IHr. tauto.
Qed.

Lemma true_height_nonneg t : 0 <= true_height t.
Proof. induction t; simpl; lia. Qed.

Lemma height_true t : balanced t -> height t = true_height t.
Proof. destruct t; simpl; tauto. Qed.

Ltac inorder_norm :=
  rewrite ?inorder_node; simpl; rewrite <- ?app_assoc; simpl; rewrite <- ?app_assoc;
  try reflexivity.

Lemma rotateRight_inorder y t : rotateRight y = Some t -> inorder t = inorder y.
Proof.
  destruct y as [|[|xl xv xh T2] yv yh yr]; simpl; try discriminate.
  intros [= <-]. inorder_norm.
Qed.

Lemma rotateLeft_inorder x t : rotateLeft x = Some t -> inorder t = inorder x.
Proof.
  destruct x as [|xl xv xh [|T2 yv yh yr]]; simpl; try discriminate.
  intros [= <-]. inorder_norm.
Qed.

Lemma rebalance_inorder node x t : rebalance node x = Some t -> inorder t = inorder node.
Proof.
  destruct node as [|l v h r]; [discriminate|].
  unfold rebalance. simpl.
  destruct (1 <? height l - height r).
  - destruct l as [|ll lv lh lr]; [discriminate|].
    destruct (x <? lv).
    + simpl. intros [= <-]. inorder_norm.
    + destruct lr as [|lrl lrv lrh lrr]; [discriminate|].
      simpl. intros [= <-]. inorder_norm.
  - destruct (height l - height r <? -1).
    + destruct r as [|rl rv rh rr]; [discriminate|].
      destruct (rv <? x).
      * simpl. intros [= <-]. inorder_norm.
      * destruct rl as [|rll rlv rlh rlr]; [discriminate|].
        simpl. intros [= <-]. inorder_norm.
    + intros [= <-]. inorder_norm.
Qed.

Ltac heights :=
  repeat match goal with
  | H : balanced ?t |- context [height ?t] => rewrite (height_true t H)
  end;
  repeat match goal with
  | |- context [true_height ?t] =>
      lazymatch goal with
      | _ : 0 <= true_height t |- _ => fail
      | _ => pose proof (true_height_nonneg t)
      end
  end.

Lemma rebalance_balanced l v h r x :
  balanced l -> balanced r ->
  -2 <= true_height l - true_height r <= 2 ->
  (true_height l - true_height r = 2 -> grew x l) ->
  (true_height l - true_height r = -2 -> grew x r) ->
  exists t', rebalance (Node l v h r) x = Some t' /\ balanced t' /\
    ((-1 <= true_height l - true_height r <= 1 /\
      t' = Node l v (1 + Z.max (true_height l) (true_height r)) r) \/
     ((true_height l - true_height r = 2 \/ true_height l - true_height r = -2) /\
      true_height t' = Z.max (true_height l) (true_height r))).
Proof.
  intros Hl Hr Hd Hgl Hgr. unfold rebalance. simpl.
  rewrite (height_true l Hl), (height_true r Hr).
  destruct (Z.ltb_spec 1 (true_height l - true_height r)) as [H2|H2].
  - assert (Hd2 : true_height l - true_height r = 2) by lia.
    specialize (Hgl Hd2). clear Hgr.
    destruct l as [|ll lv lh lr]; [contradiction|].
    simpl in Hgl, Hl, Hd2. destruct Hl as (Hll & Hlr & Hlh & Hlb).
    destruct Hgl as (Hne & Hlt & Hgt).
    destruct (Z.ltb_spec x lv) as [Hx|Hx].
    + specialize (Hlt Hx). simpl. eexists. split; [reflexivity|].
      heights. simpl. heights. split; [|right]; repeat split; auto; lia.
    + assert (Hx' : lv < x) by lia. specialize (Hgt Hx').
      destruct lr as [|lrl lrv lrh lrr]; [simpl in *; heights; lia|].
      simpl in Hlr, Hgt, Hd2, Hlb. destruct Hlr as (Hlrl & Hlrr & Hlrh & Hlrb).
      simpl. eexists. split; [reflexivity|].
      heights. simpl. heights. split; [|right]; repeat split; auto; lia.
  - destruct (Z.ltb_spec (true_height l - true_height r) (-1)) as [H3|H3].
    + assert (Hd2 : true_height l - true_height r = -2) by lia.
      specialize (Hgr Hd2). clear Hgl.
      destruct r as [|rl rv rh rr]; [contradiction|].
      simpl in Hgr, Hr, Hd2. destruct Hr as (Hrl & Hrr & Hrh & Hrb).
      destruct Hgr as (Hne & Hlt & Hgt).
      destruct (Z.ltb_spec rv x) as [Hx|Hx].
      * specialize (Hgt Hx). simpl. eexists. split; [reflexivity|].
        heights. simpl. heights. split; [|right]; repeat split; auto; lia.
      * assert (Hx' : x < rv) by lia. specialize (Hlt Hx').
        destruct rl as [|rll rlv rlh rlr]; [simpl in *; heights; lia|].
        simpl in Hrl, Hlt, Hd2, Hrb. destruct Hrl as (Hrll & Hrlr & Hrlh & Hrlb).
        simpl. eexists. split; [reflexivity|].
        heights. simpl. heights. split; [|right]; repeat split; auto; lia.
    + eexists. split; [reflexivity|]. simpl. split; [|left]; repeat split; auto; lia.
Qed.

Lemma _insert_balanced t x :
  balanced t ->
  exists t', _insert t x = Some t' /\ balanced t' /\
    (true_height t' = true_height t \/
     (true_height t' = true_height t + 1 /\ (t <> Null -> grew x t'))).
Proof.
  induction t as [|l IHl v h r IHr]; intros Hb.
  - simpl. eexists. split; [reflexivity|]. simpl. split; [repeat split; lia|].
    right. split; [lia|]. congruence.
  - simpl in Hb. destruct Hb as (Hl & Hr & Hh & Hd). simpl.
    destruct (Z.ltb_spec x v) as [Hxv|Hxv].
    + destruct (IHl Hl) as (l' & -> & Hl' & Hg). simpl.
      destruct (rebalance_balanced l' v h r x) as (t' & -> & Ht' & Hs); auto.
      * pose proof (true_height_nonneg l). lia.
      * intros H2. destruct Hg as [Hg|[Hg1 Hg2]]; [lia|]. apply Hg2.
        intros ->. simpl in *. pose proof (true_height_nonneg r). lia.
      * intros H2. pose proof (true_height_nonneg l). lia.
      * eexists. split; [reflexivity|]. split; [exact Ht'|].
        destruct Hs as [[Hd' ->]|[Hd' Hth]]; simpl.
        -- destruct Hg as [Hg|[Hg1 Hg2]]; [left; lia|].
           destruct (Z.eq_dec (true_height l) (true_height r - 1)); [left; lia|].
           right. split; [lia|]. intros _. repeat split; lia.
        -- left. lia.
    + destruct (Z.ltb_spec v x) as [Hvx|Hvx].
      * destruct (IHr Hr) as (r' & -> & Hr' & Hg). simpl.
        destruct (rebalance_balanced l v h r' x) as (t' & -> & Ht' & Hs); auto.
        -- pose proof (true_height_nonneg r). lia.
        -- intros H2. pose proof (true_height_nonneg r). lia.
        -- intros H2. destruct Hg as [Hg|[Hg1 Hg2]]; [lia|]. apply Hg2.
           intros ->. simpl in *. pose proof (true_height_nonneg l). lia.
        -- eexists. split; [reflexivity|]. split; [exact Ht'|].
           destruct Hs as [[Hd' ->]|[Hd' Hth]]; simpl.
           ++ destruct Hg as [Hg|[Hg1 Hg2]]; [left; lia|].
              destruct (Z.eq_dec (true_height r) (true_height l - 1)); [left; lia|].
              right. split; [lia|]. intros _. repeat split; lia.
           ++ left. lia.
      * eexists. split; [reflexivity|]. simpl. split; [repeat split; auto; lia|].
        left. reflexivity.
Qed.

Lemma _insert_inorder t x t' :
  StronglySorted Z.lt (inorder t) -> _insert t x = Some t' ->
  StronglySorted Z.lt (inorder t') /\
  (forall y, In y (inorder t') <-> y = x \/ In y (inorder t)).
Proof.
  revert t'. induction t as [|l IHl v h r IHr]; intros t' Hs.
  - simpl. intros [= <-]. rewrite inorder_node. simpl. split.
    + repeat constructor.
    + intros y. intuition.
  - rewrite inorder_node in Hs. apply sorted_app_cons in Hs as (Hsl & Hsr & Hlv & Hvr).
    simpl. destruct (Z.ltb_spec x v) as [Hxv|Hxv].
    + destruct (_insert l x) as [l'|] eqn:El; [|discriminate]. simpl.
      intros Hreb. apply rebalance_inorder in Hreb. rewrite Hreb, !inorder_node.
      destruct (IHl l' Hsl eq_refl) as [Hsl' Hin]. split.
      * apply sorted_app_cons. repeat split; auto.
        rewrite Forall_forall. intros y Hy. apply list_elem_of_In, Hin in Hy.
        destruct Hy as [->|Hy]; [lia|]. rewrite Forall_forall in Hlv.
        apply Hlv, list_elem_of_In, Hy.
      * intros y. rewrite !in_app_iff. simpl. rewrite Hin. tauto.
    + destruct (Z.ltb_spec v x) as [Hvx|Hvx].
      * destruct (_insert r x) as [r'|] eqn:Er; [|discriminate]. simpl.
        intros Hreb. apply rebalance_inorder in Hreb. rewrite Hreb, !inorder_node.
        destruct (IHr r' Hsr eq_refl) as [Hsr' Hin]. split.
        -- apply sorted_app_cons. repeat split; auto.
           rewrite Forall_forall. intros y Hy. apply list_elem_of_In, Hin in Hy.
           destruct Hy as [->|Hy]; [lia|]. rewrite Forall_forall in Hvr.
           apply Hvr, list_elem_of_In, Hy.
        -- intros y. rewrite !in_app_iff. simpl. rewrite Hin. tauto.
      * intros [= <-]. rewrite inorder_node. split.
        -- apply sorted_app_cons. auto.
        -- assert (x = v) by lia. subst. intros y. rewrite !in_app_iff. simpl. intuition.
Qed.


Lemma helper_after t k res :
  k <= count res ->
  kvalue (_kthSmallestHelper t k res) = kvalue res /\
  k <= count (_kthSmallestHelper t k res).
Proof.
  revert res. induction t as [|l IHl v h r IHr]; intros res Hk.
  - simpl. auto.
  - cbn [_kthSmallestHelper]. destruct (IHl res Hk) as [Hv Hc].
    set (resl := _kthSmallestHelper l k res) in *. cbn [count kvalue].
    destruct (Z.eqb_spec (count resl + 1) k) as [E|E]; [lia|].
    destruct (IHr (mkKthResult (count resl + 1) (kvalue resl))) as [Hv' Hc'].
    + simpl. lia.
    + simpl in Hv'. split; [now rewrite Hv', Hv|exact Hc'].
Qed.

Lemma helper_before t k res :
  count res < k ->
  (k <= count res + Z.of_nat (List.length (inorder t)) ->
     kvalue (_kthSmallestHelper t k res)
       = nth_error (inorder t) (Z.to_nat (k - count res - 1)) /\
     k <= count (_kthSmallestHelper t k res)) /\
  (count res + Z.of_nat (List.length (inorder t)) < k ->
     kvalue (_kthSmallestHelper t k res) = kvalue res /\
     count (_kthSmallestHelper t k res)
       = count res + Z.of_nat (List.length (inorder t))).
Proof.
  revert res. induction t as [|l IHl v h r IHr]; intros res Hk.
  - simpl. split; intros; [lia|split; [reflexivity|lia]].
  - rewrite inorder_node, length_app. simpl List.length.
    cbn [_kthSmallestHelper].
    destruct (IHl res Hk) as [IHl1 IHl2].
    set (nl := List.length (inorder l)) in *.
    set (resl := _kthSmallestHelper l k res) in *.
    destruct (Z_le_gt_dec k (count res + Z.of_nat nl)) as [Hle|Hgt].
    + destruct (IHl1 Hle) as [Hv Hc]. cbn [count kvalue].
      destruct (Z.eqb_spec (count resl + 1) k) as [E|E]; [lia|].
      destruct (helper_after r k (mkKthResult (count resl + 1) (kvalue resl)))
        as [Hv' Hc']; [simpl; lia|]. simpl in Hv'.
      split; [intros _|intros; lia]. split; [|exact Hc'].
      rewrite Hv', Hv. symmetry. apply nth_error_app1. fold nl. lia.
    + destruct (IHl2 ltac:(lia)) as [Hv Hc]. cbn [count kvalue].
      destruct (Z.eqb_spec (count resl + 1) k) as [E|E].
      * split; [intros _|intros; lia]. cbn [count kvalue]. split; [|lia].
        replace (Z.to_nat (k - count res - 1)) with (nl + 0)%nat by lia.
        rewrite nth_error_app2 by (fold nl; lia). fold nl.
        replace (nl + 0 - nl)%nat with 0%nat by lia. reflexivity.
      * destruct (IHr (mkKthResult (count resl + 1) (kvalue resl))) as [IHr1 IHr2];
          [simpl; lia|]. cbn [count kvalue] in IHr1, IHr2. split.
        -- intros Hk2. destruct IHr1 as [Hv' Hc']; [lia|]. split; [|exact Hc'].
           rewrite Hv'. rewrite nth_error_app2 by (fold nl; lia). fold nl.
           replace (Z.to_nat (k - count res - 1) - nl)%nat
             with (S (Z.to_nat (k - (count resl + 1) - 1))) by lia.
           reflexivity.
        -- intros Hk2. destruct IHr2 as [Hv' Hc']; [lia|]. rewrite Hv', Hc'.
           split; [exact Hv|lia].
Qed.

Lemma sorted_nth_kth (l : list Z) i x :
  StronglySorted Z.lt l -> nth_error l i = Some x ->
  kth_smallest_of l (Z.of_nat i + 1) x.
Proof.
  intros Hs Hn. destruct (nth_error_split l i Hn) as (a & b & -> & Hlen).
  apply sorted_app_cons in Hs as (_ & _ & Ha & Hb). split.
  - apply in_app_iff. right. left. reflexivity.
  - rewrite List.filter_app. simpl. rewrite Z.ltb_irrefl, length_app.
    assert (Ea : List.filter (fun y => y <? x) a = a).
    { clear Hlen Hn. induction Ha as [|y a Hy Ha IH]; simpl; [reflexivity|].
      destruct (Z.ltb_spec y x); [|lia]. now rewrite IH. }
    assert (Eb : List.filter (fun y => y <? x) b = []).
    { clear Hn. induction Hb as [|y b Hy Hb IH]; simpl; [reflexivity|].
      destruct (Z.ltb_spec y x); [lia|]. exact IH. }
    rewrite Ea, Eb. simpl. lia.
Qed.

Lemma insert_inv this x :
  avl_inv (root this) ->
  exists this', insert this x = Some this' /\ avl_inv (root this').
Proof.
  intros [Hb Hs]. destruct (_insert_balanced (root this) x Hb) as (t' & E & Hb' & _).
  unfold insert. rewrite E. simpl. eexists. split; [reflexivity|]. simpl.
  split; [exact Hb'|]. apply bst_sorted. apply bst_sorted in Hs.
  apply (_insert_inorder _ _ _ Hs E).
Qed.

Lemma insertAll_inv values : forall this,
  avl_inv (root this) ->
  exists this', insertAll this values = Some this' /\ avl_inv (root this').
Proof.
  induction values as [|v rest IH]; intros this Hi; simpl.
  - eauto.
  - destruct (insert_inv this v Hi) as (this1 & -> & Hi1). simpl. auto.
Qed.

Lemma empty_inv : avl_inv (root empty).
Proof. split; exact I. Qed.

Lemma insertAll_built values avl :
  insertAll empty values = Some avl -> avl_inv (root avl).
Proof.
  intros E. destruct (insertAll_inv values empty empty_inv) as (avl' & E' & Hinv).
  congruence.
Qed.

End AVLFacts.

Module BPlusFacts.
Import BPlus.
Local Open Scope Z_scope.

Lemma bind_ret {A B} (a : A) (f : A -> M B) h : bind (ret a) f h = f a h.
Proof. reflexivity. Qed.

Lemma bind_read {B} l n (f : BPlusTreeNode -> M B) (h : store) :
  h !! l = Some n -> bind (read l) f h = f n h.
Proof. intros H. unfold bind, read. now rewrite H. Qed.

Lemma bind_modify {B} l n g (f : unit -> M B) (h : store) :
  h !! l = Some n -> bind (modify l g) f h = f tt (<[l := g n]> h).
Proof. intros H. unfold bind, modify. now rewrite H. Qed.

Lemma run_modify l n g (h : store) :
  h !! l = Some n -> modify l g h = (<[l := g n]> h, Done tt).
Proof. intros H. unfold modify. now rewrite H. Qed.

Lemma bind_new {B} b (f : loc -> M B) (h : store) :
  bind (new_node b) f h = f (List.length h) (h ++ [mkBNode [] [] b None]).
Proof. reflexivity. Qed.

Lemma bind_as_node {B} l (f : loc -> M B) (h : store) :
  bind (as_node (Some (PNode l))) f h = f l h.
Proof. reflexivity. Qed.

Lemma splitChild_run t (h : store) p i P c C median :
  h !! p = Some P -> childPointers P !! i = Some (PNode c) -> h !! c = Some C ->
  p <> c -> js_get (keys C) (t - 1) = Some median ->
  exists h',
    _splitChild t p i h = (h', Done tt) /\
    List.length h' = S (List.length h) /\
    h' !! p = Some (mkBNode (splice_insert (Z.of_nat i) median (keys P))
                      (splice_insert (Z.of_nat i + 1) (PNode (List.length h)) (childPointers P))
                      (isLeaf P) (nextLeaf P)) /\
    h' !! c = Some (mkBNode (fst (splice_from (t - 1) (keys C)))
                      (fst (splice_from (if isLeaf C then t - 1 else t) (childPointers C)))
                      (isLeaf C)
                      (if isLeaf C then Some (List.length h) else nextLeaf C)) /\
    h' !! List.length h =
      Some (mkBNode (snd (splice_from (t - 1) (keys C)))
              (snd (splice_from (if isLeaf C then t - 1 else t) (childPointers C)))
              (isLeaf C)
              (if isLeaf C then nextLeaf C else None)) /\
    (forall l, l <> p -> l <> c -> l <> List.length h -> h' !! l = h !! l).
Proof.
  intros Hp Hi Hc Hne Hmed.
  pose proof (lookup_lt_Some _ _ _ Hp) as Hpl.
  pose proof (lookup_lt_Some _ _ _ Hc) as Hcl.
  unfold _splitChild.
  rewrite (bind_read _ _ _ _ Hp), Hi, bind_as_node, (bind_read _ _ _ _ Hc), bind_new.
  set (new := List.length h) in *.
  set (h1 := h ++ [mkBNode [] [] (isLeaf C) None]).
  assert (H1p : h1 !! p = Some P) by (apply lookup_app_l_Some; exact Hp).
  assert (H1c : h1 !! c = Some C) by (apply lookup_app_l_Some; exact Hc).
  assert (H1n : h1 !! new = Some (mkBNode [] [] (isLeaf C) None)).
  { unfold h1, new. rewrite lookup_app_r by lia. now rewrite Nat.sub_diag. }
  assert (Hl1 : List.length h1 = S new) by (unfold h1; rewrite length_app; simpl; lia).
  rewrite (bind_modify _ _ _ _ _ H1p).
  match goal with |- context [<[p := ?x]> h1] => set (P1 := x); set (h2 := <[p := P1]> h1) end.
  assert (H2c : h2 !! c = Some C) by (unfold h2; now rewrite list_lookup_insert_ne).
  assert (H2p : h2 !! p = Some P1) by (unfold h2; apply list_lookup_insert_eq; lia).
  rewrite (bind_read _ _ _ _ H2c), Hmed.
  rewrite (bind_modify _ _ _ _ _ H2p).
  match goal with |- context [<[p := ?x]> h2] => set (P2 := x); set (h3 := <[p := P2]> h2) end.
  assert (H3c : h3 !! c = Some C) by (unfold h3; now rewrite list_lookup_insert_ne).
  rewrite (bind_read _ _ _ _ H3c), (bind_modify _ _ _ _ _ H3c).
  match goal with |- context [<[c := ?x]> h3] => set (C1 := x); set (h4 := <[c := C1]> h3) end.
  assert (H4n : h4 !! new = Some (mkBNode [] [] (isLeaf C) None)).
  { unfold h4, h3, h2. rewrite !list_lookup_insert_ne by lia. exact H1n. }
  rewrite (bind_modify _ _ _ _ _ H4n).
  match goal with |- context [<[new := ?x]> h4] => set (N1 := x); set (h5 := <[new := N1]> h4) end.
  assert (Hl5 : List.length h5 = S new).
  { unfold h5, h4, h3, h2. now rewrite !length_insert. }
  assert (H5c : h5 !! c = Some C1).
  { unfold h5. rewrite list_lookup_insert_ne by lia. unfold h4.
    apply list_lookup_insert_eq. unfold h3, h2. rewrite !length_insert. lia. }
  assert (H5n : h5 !! new = Some N1).
  { unfold h5. apply list_lookup_insert_eq. unfold h4, h3, h2. rewrite !length_insert. lia. }
  assert (H5p : h5 !! p = Some P2).
  { unfold h5, h4. rewrite !list_lookup_insert_ne by lia. unfold h3.
    apply list_lookup_insert_eq. unfold h2. rewrite !length_insert. lia. }
  assert (H5o : forall l, l <> p -> l <> c -> l <> new -> h5 !! l = h !! l).
  { intros l ? ? ?. unfold h5, h4, h3, h2. rewrite !list_lookup_insert_ne by lia.
    unfold h1. destruct (decide (l < new)%nat).
    - now rewrite lookup_app_l.
    - rewrite (lookup_ge_None_2 h) by (fold new; lia).
      apply lookup_ge_None_2. rewrite length_app. simpl. fold new. lia. }
  rewrite (bind_read _ _ _ _ H5c).
  clearbody h5. clear H4n h4 H3c h3 H2p H2c h2 H1n H1c H1p Hl1 h1.
  unfold C1, N1, P2, P1 in *. clear C1 N1 P2 P1.
  unfold set_keys, set_childPointers, set_nextLeaf in *.
  cbn [isLeaf childPointers keys nextLeaf] in *.
  destruct (isLeaf C) eqn:Eleaf; cbn [negb]; cbv iota.
  - rewrite (bind_modify _ _ _ _ _ H5c).
    match goal with |- context [<[c := ?x]> h5] => set (C2 := x); set (h6 := <[c := C2]> h5) end.
    assert (H6n : h6 !! new = Some _) by (unfold h6; rewrite list_lookup_insert_ne by lia; exact H5n).
    rewrite (bind_modify _ _ _ _ _ H6n).
    match goal with |- context [<[new := ?x]> h6] => set (N2 := x); set (h7 := <[new := N2]> h6) end.
    assert (H7c : h7 !! c = Some C2).
    { unfold h7. rewrite list_lookup_insert_ne by lia. unfold h6.
      apply list_lookup_insert_eq. lia. }
    assert (H7n : h7 !! new = Some N2).
    { unfold h7. apply list_lookup_insert_eq. unfold h6. rewrite !length_insert. lia. }
    rewrite (bind_read _ _ _ _ H7c), (bind_modify _ _ _ _ _ H7n).
    match goal with |- context [<[new := ?x]> h7] => set (N3 := x); set (h8 := <[new := N3]> h7) end.
    assert (H8c : h8 !! c = Some C2).
    { unfold h8. rewrite list_lookup_insert_ne by lia. exact H7c. }
    rewrite (run_modify _ _ _ _ H8c).
    eexists. split; [reflexivity|].
    assert (Hl8 : List.length h8 = S new).
    { unfold h8, h7, h6. now rewrite !length_insert. }
    split; [rewrite length_insert; exact Hl8|].
    split; [|split; [|split]].
    + unfold h8, h7, h6. rewrite !list_lookup_insert_ne by lia. rewrite H5p. reflexivity.
    + rewrite list_lookup_insert_eq by lia. unfold C2. reflexivity.
    + rewrite list_lookup_insert_ne by lia. unfold h8.
      rewrite list_lookup_insert_eq by (unfold h7, h6; rewrite !length_insert; lia).
      unfold N3, N2, C2. reflexivity.
    + intros l ? ? ?. unfold h8, h7, h6. rewrite !list_lookup_insert_ne by lia. auto.
  - rewrite (bind_modify _ _ _ _ _ H5c).
    match goal with |- context [<[c := ?x]> h5] => set (C2 := x); set (h6 := <[c := C2]> h5) end.
    assert (H6n : h6 !! new = Some _) by (unfold h6; rewrite list_lookup_insert_ne by lia; exact H5n).
    rewrite (run_modify _ _ _ _ H6n).
    eexists. split; [reflexivity|].
    assert (Hl6 : List.length h6 = S new) by (unfold h6; now rewrite !length_insert).
    split; [rewrite length_insert; exact Hl6|].
    split; [|split; [|split]].
    + unfold h6. rewrite !list_lookup_insert_ne by lia. rewrite H5p. reflexivity.
    + rewrite list_lookup_insert_ne by lia. unfold h6.
      rewrite list_lookup_insert_eq by lia. unfold C2. reflexivity.
    + rewrite list_lookup_insert_eq by lia. reflexivity.
    + intros l ? ? ?. unfold h6. rewrite !list_lookup_insert_ne by lia. auto.
Qed.

(** *** Arrays *)

Lemma splice_start_in (len : nat) (s : Z) :
  0 <= s <= Z.of_nat len -> splice_start len s = Z.to_nat s.
Proof.
  intros H. unfold splice_start. destruct (Z.ltb_spec s 0); lia.
Qed.

Lemma length_splice_insert {A} (s : Z) (x : A) (a : list A) :
  List.length (splice_insert s x a) = S (List.length a).
Proof.
  unfold splice_insert. rewrite length_app. simpl. rewrite length_take, length_drop. lia.
Qed.

Lemma elem_of_splice_insert {A} (s : Z) (x y : A) (a : list A) :
  y ∈ splice_insert s x a -> y = x \/ y ∈ a.
Proof.
  unfold splice_insert. rewrite elem_of_app, elem_of_cons.
  intros [H|[H|H]]; auto; right.
  - now apply (subseteq_take _ _ _ H).
  - now apply (subseteq_drop _ _ _ H).
Qed.

Lemma splice_insert_lookup {A} (i : nat) (x y : A) (a : list A) :
  a !! i = Some y ->
  splice_insert (Z.of_nat i + 1) x a !! i = Some y /\
  splice_insert (Z.of_nat i + 1) x a !! S i = Some x.
Proof.
  intros H. pose proof (lookup_lt_Some _ _ _ H) as Hlt.
  unfold splice_insert. rewrite splice_start_in by lia.
  replace (Z.to_nat (Z.of_nat i + 1)) with (S i) by lia. split.
  - rewrite lookup_app_l by (rewrite length_take; lia).
    now rewrite lookup_take_lt by lia.
  - rewrite lookup_app_r by (rewrite length_take; lia).
    rewrite length_take. replace (S i - S i `min` List.length a)%nat with 0%nat by lia.
    reflexivity.
Qed.

Lemma elem_of_splice_from {A} (s : Z) (y : A) (a : list A) :
  y ∈ fst (splice_from s a) \/ y ∈ snd (splice_from s a) -> y ∈ a.
Proof.
  unfold splice_from. simpl. intros [H|H].
  - now apply (subseteq_take _ _ _ H).
  - now apply (subseteq_drop _ _ _ H).
Qed.

Lemma length_splice_from {A} (s : Z) (a : list A) :
  0 <= s <= Z.of_nat (List.length a) ->
  Z.of_nat (List.length (fst (splice_from s a))) = s /\
  Z.of_nat (List.length (snd (splice_from s a))) = Z.of_nat (List.length a) - s.
Proof.
  intros H. unfold splice_from. simpl. rewrite splice_start_in by lia.
  rewrite length_take, length_drop. lia.
Qed.

Lemma length_js_set_in {A} (hole : A) i x (a : list A) :
  (i < List.length a)%nat -> List.length (js_set hole i x a) = List.length a.
Proof.
  intros H. unfold js_set. destruct (Nat.ltb_spec i (List.length a)); [|lia].
  apply length_insert.
Qed.

Lemma leafShift_keys n k (ks : list Z) cps :
  (n < List.length ks)%nat ->
  (fst (fst (leafShift n k ks cps)) <= n)%nat /\
  List.length (snd (fst (leafShift n k ks cps))) = List.length ks.
Proof.
  revert ks cps. induction n as [|i IH]; intros ks cps Hn; simpl.
  - split; [lia|reflexivity].
  - destruct (ks !! i) as [x|]; [|simpl; split; [lia|reflexivity]].
    destruct (k <? x); [|simpl; split; [lia|reflexivity]].
    destruct (IH (js_set 0 (S i) x ks) (js_set PNull (S i) (default PNull (cps !! i)) cps))
      as [H1 H2].
    + rewrite length_js_set_in; lia.
    + rewrite length_js_set_in in H2 by lia. split; [lia|exact H2].
Qed.

Lemma leafInsert_spec k v n :
  List.length (keys (leafInsert k v n)) = S (List.length (keys n)) /\
  isLeaf (leafInsert k v n) = isLeaf n /\
  nextLeaf (leafInsert k v n) = nextLeaf n.
Proof.
  unfold leafInsert.
  pose proof (leafShift_keys (List.length (keys n)) k (keys n ++ [0])
                (childPointers n ++ [PNull])) as H.
  destruct (leafShift _ _ _ _) as [[j ks] cps]. simpl in *.
  destruct H as [Hj Hl]; [rewrite length_app; simpl; lia|].
  rewrite length_app in Hl. simpl in Hl.
  rewrite length_js_set_in by lia. repeat split. lia.
Qed.

Lemma Some_eq_inv {A} (x y : A) : Some x = Some y -> x = y.
Proof. congruence. Qed.

Ltac fields := cbn [keys childPointers isLeaf nextLeaf].

#[local] Arguments splice_from : simpl never.
#[local] Arguments splice_insert : simpl never.

(** Whatever the store, the split of a full internal child leaves the
    median as first key of the new node, which gets [t] keys and [t]
    children. *)
Lemma splitChild_internal_new_node t (h : store) p i P c C :
  h !! p = Some P -> childPointers P !! i = Some (PNode c) -> h !! c = Some C ->
  p <> c -> isLeaf C = false -> 1 <= t ->
  Z.of_nat (List.length (keys C)) = 2 * t - 1 ->
  Z.of_nat (List.length (childPointers C)) = 2 * t ->
  exists h' median n,
    _splitChild t p i h = (h', Done tt) /\
    keys C !! Z.to_nat (t - 1) = Some median /\
    h' !! List.length h = Some n /\
    keys n !! 0%nat = Some median /\
    Z.of_nat (List.length (keys n)) = t /\
    Z.of_nat (List.length (childPointers n)) = t.
Proof.
  intros Hp Hi Hc Hne Hleaf Ht Hk Hcp.
  destruct (lookup_lt_is_Some_2 (keys C) (Z.to_nat (t - 1)) ltac:(lia)) as [median Hmed].
  assert (Hget : js_get (keys C) (t - 1) = Some median).
  { unfold js_get. destruct (Z.ltb_spec (t - 1) 0); [lia|exact Hmed]. }
  destruct (splitChild_run t h p i P c C median Hp Hi Hc Hne Hget)
    as (h' & Hrun & _ & _ & _ & Hn & _).
  rewrite Hleaf in Hn. eexists h', median, _.
  split; [exact Hrun|]. split; [exact Hmed|]. split; [exact Hn|]. cbn [keys childPointers].
  unfold splice_from. cbn [fst snd]. rewrite !splice_start_in by lia.
  rewrite lookup_drop, Nat.add_0_r, !length_drop. repeat split; [exact Hmed|lia|lia].
Qed.

(** The split of a leaf links the new leaf right behind the original. *)
Lemma splitChild_leaf_links t (h : store) p i P c C median :
  h !! p = Some P -> childPointers P !! i = Some (PNode c) -> h !! c = Some C ->
  p <> c -> isLeaf C = true -> js_get (keys C) (t - 1) = Some median ->
  exists h' c' n',
    _splitChild t p i h = (h', Done tt) /\
    h' !! c = Some c' /\ nextLeaf c' = Some (List.length h) /\
    h' !! List.length h = Some n' /\ nextLeaf n' = nextLeaf C /\
    childPointers P !! i = Some (PNode c) /\
    (exists p', h' !! p = Some p' /\
       childPointers p' !! S i = Some (PNode (List.length h))).
Proof.
  intros Hp Hi Hc Hne Hleaf Hget.
  destruct (splitChild_run t h p i P c C median Hp Hi Hc Hne Hget)
    as (h' & Hrun & _ & Hp' & Hc' & Hn & _).
  rewrite Hleaf in Hc', Hn. eexists h', _, _.
  split; [exact Hrun|]. split; [exact Hc'|]. split; [reflexivity|].
  split; [exact Hn|]. split; [reflexivity|]. split; [exact Hi|].
  eexists. split; [exact Hp'|]. cbn [childPointers].
  apply (splice_insert_lookup i (PNode (List.length h)) _ _ Hi).
Qed.

Lemma insertAll_reachable t entries : forall this,
  reachable t this -> reachable t (fst (insertAll this entries)).
Proof.
  induction entries as [|[k v] rest IH]; intros this Hr; simpl; [exact Hr|].
  pose proof (reachable_insert t this k v Hr) as Hr'.
  destruct (insert this k v) as [this' [[]| | |]]; simpl in *; auto.
Qed.

(** *** The key-count and depth invariant *)

Section Invariant.
Variable t : Z.
Hypothesis Ht : 2 <= t.

Lemma split_wf (h : store) lvl r p i P c C :
  store_wf t h lvl r ->
  h !! p = Some P -> isLeaf P = false ->
  Z.of_nat (List.length (keys P)) < 2 * t - 1 ->
  childPointers P !! i = Some (PNode c) ->
  h !! c = Some C -> Z.of_nat (List.length (keys C)) = 2 * t - 1 ->
  exists h' lvl' P' c1 C1 c2 C2,
    _splitChild t p i h = (h', Done tt) /\
    store_wf t h' lvl' r /\
    h' !! p = Some P' /\ isLeaf P' = false /\
    childPointers P' !! i = Some (PNode c1) /\
    childPointers P' !! S i = Some (PNode c2) /\
    h' !! c1 = Some C1 /\ h' !! c2 = Some C2 /\
    Z.of_nat (List.length (keys C1)) < 2 * t - 1 /\
    Z.of_nat (List.length (keys C2)) < 2 * t - 1 /\
    lvl' p = lvl p /\ lvl' c1 = lvl c /\ lvl' c2 = lvl c /\ lvl p = S (lvl c).
Proof.
  intros [Hr Hwf] Hp HPl HPn Hi Hc HCn.
  destruct (wf_kids _ _ _ _ _ _ (Hwf _ _ Hp) HPl (PNode c)) as (c' & [= <-] & Hcl & Hlv & Hcr).
  { eapply list_elem_of_lookup_2; eauto. }
  assert (Hne : p <> c) by (intros ->; lia).
  pose proof (lookup_lt_Some _ _ _ Hp) as Hpl.
  assert (Hmed : exists median, js_get (keys C) (t - 1) = Some median).
  { unfold js_get. destruct (Z.ltb_spec (t - 1) 0); [lia|].
    apply lookup_lt_is_Some_2. lia. }
  destruct Hmed as [median Hmed].
  destruct (splitChild_run t h p i P c C median Hp Hi Hc Hne Hmed)
    as (h' & Hrun & Hlen & Hp' & Hc' & Hn' & Hother).
  set (new := List.length h) in *.
  set (lvl' := fun l => if (l =? new)%nat then lvl c else lvl l).
  assert (Hlvl_old : forall l, (l < new)%nat -> lvl' l = lvl l).
  { intros l Hl. unfold lvl'. destruct (Nat.eqb_spec l new); [lia|reflexivity]. }
  assert (Hlvl_new : lvl' new = lvl c).
  { unfold lvl'. now rewrite Nat.eqb_refl. }
  assert (Hkid : forall l n q, h !! l = Some n -> isLeaf n = false -> q ∈ childPointers n ->
            exists c0, q = PNode c0 /\ (c0 < List.length h')%nat /\
                       lvl l = S (lvl' c0) /\ c0 <> r).
  { intros l n q Hl Hleaf Hq.
    destruct (wf_kids _ _ _ _ _ _ (Hwf _ _ Hl) Hleaf q Hq) as (c0 & -> & H1 & H2 & H3).
    exists c0. rewrite Hlvl_old by exact H1. repeat split; auto. lia. }
  destruct (splice_insert_lookup i (PNode new) _ _ Hi) as [Hi1 Hi2].
  assert (HkC : 0 <= t - 1 <= Z.of_nat (List.length (keys C))) by lia.
  destruct (length_splice_from (t - 1) (keys C) HkC) as [Hk1 Hk2].
  eexists h', lvl', _, c, _, new, _.
  split; [exact Hrun|]. split.
  2: { repeat split; try eassumption; fields; auto; lia. }
  split; [lia|]. intros l n Hl.
  destruct (decide (l = p)) as [->|Hlp]; [|destruct (decide (l = c)) as [->|Hlc];
    [|destruct (decide (l = new)) as [->|Hln]]].
  - rewrite Hp' in Hl. apply Some_eq_inv in Hl; subst n. pose proof (Hwf _ _ Hp) as W.
    constructor; fields.
    + rewrite length_splice_insert. lia.
    + intros Hpr. pose proof (wf_lower _ _ _ _ _ _ W Hpr). rewrite length_splice_insert. lia.
    + congruence.
    + intros _ q Hq. apply elem_of_splice_insert in Hq as [->|Hq].
      * exists new. rewrite Hlvl_new, Hlvl_old by lia. repeat split; auto; lia.
      * rewrite Hlvl_old by lia. eapply Hkid; eauto.
    + rewrite Hlvl_old by lia. pose proof (wf_lvl _ _ _ _ _ _ W). lia.
  - rewrite Hc' in Hl. apply Some_eq_inv in Hl; subst n. pose proof (Hwf _ _ Hc) as W.
    constructor; fields.
    + lia.
    + lia.
    + intros HCl. rewrite Hlvl_old by lia. exact (wf_leaf _ _ _ _ _ _ W HCl).
    + intros HCl q Hq. rewrite HCl in Hq. rewrite Hlvl_old by lia.
      eapply Hkid; eauto. eapply elem_of_splice_from. left. exact Hq.
    + rewrite Hlvl_old by lia. pose proof (wf_lvl _ _ _ _ _ _ W). lia.
  - rewrite Hn' in Hl. apply Some_eq_inv in Hl; subst n. pose proof (Hwf _ _ Hc) as W.
    constructor; fields.
    + lia.
    + lia.
    + intros HCl. rewrite Hlvl_new. exact (wf_leaf _ _ _ _ _ _ W HCl).
    + intros HCl q Hq. rewrite HCl in Hq. rewrite Hlvl_new.
      eapply Hkid; eauto. eapply elem_of_splice_from. right. exact Hq.
    + rewrite Hlvl_new. pose proof (wf_lvl _ _ _ _ _ _ W). lia.
  - rewrite Hother in Hl by assumption. pose proof (Hwf _ _ Hl) as W.
    pose proof (lookup_lt_Some _ _ _ Hl) as Hll.
    constructor.
    + exact (wf_upper _ _ _ _ _ _ W).
    + exact (wf_lower _ _ _ _ _ _ W).
    + intros HCl. rewrite Hlvl_old by exact Hll. exact (wf_leaf _ _ _ _ _ _ W HCl).
    + intros HCl q Hq. rewrite Hlvl_old by exact Hll. eapply Hkid; eauto.
    + rewrite Hlvl_old by exact Hll. pose proof (wf_lvl _ _ _ _ _ _ W). lia.
Qed.

Lemma bind_run {A B} (m : M A) (f : A -> M B) h h1 a :
  m h = (h1, Done a) -> bind m f h = f a h1.
Proof. intros H. unfold bind. now rewrite H. Qed.

Lemma node_wf_length (h h' : store) lvl r l n :
  (List.length h <= List.length h')%nat ->
  node_wf t h lvl r l n -> node_wf t h' lvl r l n.
Proof.
  intros Hlen [H1 H2 H3 H4 H5]. constructor; auto; [|lia].
  intros Hl q Hq. destruct (H4 Hl q Hq) as (c & -> & Hc & Hlv & Hr).
  exists c. repeat split; auto. lia.
Qed.

Lemma store_wf_update (h : store) lvl r l n n' :
  store_wf t h lvl r -> h !! l = Some n ->
  (node_wf t h lvl r l n -> node_wf t h lvl r l n') ->
  store_wf t (<[l := n']> h) lvl r.
Proof.
  intros [Hr Hwf] Hl Hn. split; [now rewrite length_insert|].
  intros l0 n0 H0. apply list_lookup_insert_Some in H0 as [(-> & -> & _)|(Hne & H0)].
  - eapply node_wf_length; [|apply Hn, Hwf, Hl]. now rewrite length_insert.
  - eapply node_wf_length; [|apply Hwf, H0]. now rewrite length_insert.
Qed.

Lemma insertNonFull_wf fuel : forall (h : store) lvl r cur n k v,
  store_wf t h lvl r -> h !! cur = Some n ->
  Z.of_nat (List.length (keys n)) < 2 * t - 1 -> (lvl cur < fuel)%nat ->
  exists h' lvl' o,
    _insertNonFull fuel t (2 * t - 1) (Some (PNode cur)) k v h = (h', o) /\
    store_wf t h' lvl' r /\ (o = Done tt \/ o = TypeError).
Proof.
  induction fuel as [|fuel IH]; intros h lvl r cur n k v Hwf Hcur Hn Hfuel; [lia|].
  cbn [_insertNonFull]. rewrite bind_as_node, (bind_read _ _ _ _ Hcur).
  pose proof (proj2 Hwf _ _ Hcur) as W.
  destruct (isLeaf n) eqn:Hleaf.
  - rewrite (run_modify _ _ _ _ Hcur). exists (<[cur := leafInsert k v n]> h), lvl, (Done tt).
    split; [reflexivity|]. split; [|auto].
    eapply store_wf_update; eauto. intros [H1 H2 H3 H4 H5].
    destruct (leafInsert_spec k v n) as (Hk & Hl & _).
    constructor; auto; rewrite ?Hk, ?Hl; try lia; try congruence.
  - set (keyIndex := scanDown (List.length (keys n)) (keys n) k).
    destruct (childPointers n !! keyIndex) as [q|] eqn:Hq.
    2: { exists h, lvl, TypeError. split; [reflexivity|]. auto. }
    destruct (wf_kids _ _ _ _ _ _ W Hleaf q) as (c & -> & Hc & Hlv & Hcr).
    { eapply list_elem_of_lookup_2; eauto. }
    destruct (lookup_lt_is_Some_2 h c Hc) as [C HC].
    rewrite bind_as_node, (bind_read _ _ _ _ HC).
    destruct (Z.eqb_spec (Z.of_nat (List.length (keys C))) (2 * t - 1)) as [Hfull|Hfull].
    + destruct (split_wf h lvl r cur keyIndex n c C Hwf Hcur Hleaf Hn Hq HC Hfull)
        as (h1 & lvl1 & P' & c1 & C1 & c2 & C2 & Hrun & Hwf1 & HP' & HP'l & Hi1 & Hi2 &
            HC1 & HC2 & Hn1 & Hn2 & Hl0 & Hl1 & Hl2 & Hl3).
      rewrite (bind_run _ _ _ _ _ Hrun), (bind_read _ _ _ _ HP').
      destruct (keys P' !! keyIndex) as [x|]; [destruct (x <? k)|].
      * rewrite Hi2. eapply IH; eauto. lia.
      * rewrite Hi1. eapply IH; eauto. lia.
      * rewrite Hi1. eapply IH; eauto. lia.
    + eapply IH; eauto; [|lia].
      pose proof (wf_upper _ _ _ _ _ _ (proj2 Hwf _ _ HC)). lia.
Qed.

Lemma insert_wf this k v :
  tree_wf t this ->
  tree_wf t (fst (insert this k v)) /\
  (snd (insert this k v) = Done tt \/ snd (insert this k v) = TypeError).
Proof.
  destruct this as [h [r|] t' mk]. 2: {
    intros (Ht' & Hmk & Hh). simpl in *. subst. simpl. split; [|auto].
    split; [reflexivity|]. split; [reflexivity|]. simpl. exists (fun _ => 0%nat).
    split; [simpl; lia|]. intros [|l] n; [|discriminate]. intros [= <-].
    constructor; simpl; try lia; try congruence. }
  intros (Ht' & Hmk & lvl & Hwf). simpl in Ht', Hmk, Hwf. subst t' mk.
  unfold insert. cbn [root nodes minimumDegree maxKeysPerNode].
  destruct (lookup_lt_is_Some_2 h r (proj1 Hwf)) as [R HR].
  rewrite (bind_read _ _ _ _ HR).
  pose proof (proj2 Hwf _ _ HR) as WR.
  destruct (Z.eqb_spec (Z.of_nat (List.length (keys R))) (2 * t - 1)) as [Hfull|Hfull].
  - rewrite bind_new. set (new := List.length h).
    set (h1 := h ++ [mkBNode [] [] false None]).
    assert (H1n : h1 !! new = Some (mkBNode [] [] false None)).
    { unfold h1, new. rewrite lookup_app_r by lia. now rewrite Nat.sub_diag. }
    rewrite (bind_modify _ _ _ _ _ H1n).
    unfold set_childPointers. fields. simpl app.
    set (N := mkBNode [] [PNode r] false None). set (h2 := <[new := N]> h1).
    assert (Hl2 : List.length h2 = S new).
    { unfold h2, h1. rewrite length_insert, length_app. simpl. lia. }
    assert (H2n : h2 !! new = Some N).
    { unfold h2. apply list_lookup_insert_eq. unfold h1. rewrite length_app. simpl. lia. }
    assert (H2o : forall l, l <> new -> h2 !! l = h !! l).
    { intros l Hl. unfold h2, h1. rewrite list_lookup_insert_ne by lia.
      destruct (decide (l < new)%nat); [now rewrite lookup_app_l|].
      rewrite (lookup_ge_None_2 h) by (fold new; lia).
      apply lookup_ge_None_2. rewrite length_app. simpl. fold new. lia. }
    set (lvl2 := fun l => if (l =? new)%nat then S (lvl r) else lvl l).
    pose proof (proj1 Hwf) as Hr.
    assert (Hwf2 : store_wf t h2 lvl2 new).
    { split; [lia|]. intros l n Hl. destruct (decide (l = new)) as [->|Hln].
      - rewrite H2n in Hl. apply Some_eq_inv in Hl. subst n. unfold N.
        constructor; fields; simpl List.length; try lia; try congruence.
        + intros _ q Hq. apply list_elem_of_singleton in Hq as ->. exists r.
          unfold lvl2. rewrite Nat.eqb_refl.
          destruct (Nat.eqb_spec r new); [lia|]. repeat split; auto; lia.
        + unfold lvl2. rewrite Nat.eqb_refl. pose proof (wf_lvl _ _ _ _ _ _ WR). fold new in H. lia.
      - rewrite H2o in Hl by exact Hln. pose proof (proj2 Hwf _ _ Hl) as [H1 H2 H3 H4 H5].
        pose proof (lookup_lt_Some _ _ _ Hl) as Hll. fold new in Hll.
        assert (El : lvl2 l = lvl l).
        { unfold lvl2. destruct (Nat.eqb_spec l new); [lia|reflexivity]. }
        constructor; rewrite ?El; auto; try lia.
        + intros _. destruct (decide (l = r)) as [->|Hlr]; [|auto].
          replace n with R by congruence. lia.
        + intros Hleaf q Hq. destruct (H4 Hleaf q Hq) as (c & -> & Hc & Hlv & Hcr).
          fold new in Hc. exists c. unfold lvl2.
          destruct (Nat.eqb_spec c new); [lia|]. repeat split; auto; lia. }
    assert (H2r : h2 !! r = Some R) by (rewrite H2o by lia; exact HR).
    assert (HNk : Z.of_nat (List.length (keys N)) < 2 * t - 1) by (simpl; lia).
    destruct (split_wf h2 lvl2 new new 0%nat N r R Hwf2 H2n eq_refl HNk eq_refl H2r Hfull)
      as (h3 & lvl3 & P' & c1 & C1 & c2 & C2 & Hrun & Hwf3 & HP' & HP'l & Hi1 & Hi2 &
          HC1 & HC2 & Hn1 & Hn2 & Hl0 & Hl1 & Hl2' & Hl3).
    rewrite (bind_run _ _ _ _ _ Hrun). unfold ret. cbv beta iota.
    assert (HPk : Z.of_nat (List.length (keys P')) < 2 * t - 1).
    { pose proof (splitChild_run t h2 new 0%nat N r R) as Hs.
      unfold js_get in Hs. destruct (Z.ltb_spec (t - 1) 0); [lia|].
      destruct (lookup_lt_is_Some_2 (keys R) (Z.to_nat (t - 1)) ltac:(lia)) as [med Hmed].
      destruct (Hs med H2n eq_refl H2r ltac:(lia) Hmed) as (h3' & Hrun' & _ & Hp3 & _).
      rewrite Hrun in Hrun'. injection Hrun' as <-. rewrite HP' in Hp3.
      apply Some_eq_inv in Hp3. subst P'. fields. rewrite length_splice_insert. simpl. lia. }
    destruct (insertNonFull_wf (List.length h3) h3 lvl3 new new P' k v Hwf3 HP' HPk)
      as (h4 & lvl4 & o & Hins & Hwf4 & Ho).
    { exact (wf_lvl _ _ _ _ _ _ (proj2 Hwf3 _ _ HP')). }
    rewrite Hins. simpl. split; [|exact Ho].
    split; [reflexivity|]. split; [reflexivity|]. simpl. eauto.
  - unfold ret. cbv beta iota.
    assert (HRk : Z.of_nat (List.length (keys R)) < 2 * t - 1).
    { pose proof (wf_upper _ _ _ _ _ _ WR). lia. }
    destruct (insertNonFull_wf (List.length h) h lvl r r R k v Hwf HR HRk)
      as (h4 & lvl4 & o & Hins & Hwf4 & Ho).
    { exact (wf_lvl _ _ _ _ _ _ WR). }
    rewrite Hins. simpl. split; [|exact Ho].
    split; [reflexivity|]. split; [reflexivity|]. simpl. eauto.
Qed.

Lemma reachable_wf this : reachable t this -> tree_wf t this.
Proof.
  induction 1 as [|this k v _ IH].
  - repeat split.
  - apply insert_wf, IH.
Qed.


End Invariant.


End BPlusFacts.

Module TreapFacts.
Import Treap.
Local Open Scope Z_scope.

Lemma treap_inorder_node l v p r : inorder (Node l v p r) = inorder l ++ v :: inorder r.
Proof. unfold inorder. simpl. now rewrite fmap_app. Qed.

Lemma inorder_size t : List.length (inorder t) = size t.
Proof.
  induction t as [|l IHl v p r IHr]; [reflexivity|].
  rewrite treap_inorder_node, length_app. simpl. lia.
Qed.

Lemma sorted_le_app_cons (a b : list Z) v :
  StronglySorted Z.le (a ++ v :: b) <->
  StronglySorted Z.le a /\ StronglySorted Z.le b /\
  Forall (fun y => y <= v) a /\ Forall (fun y => v <= y) b.
Proof.
  induction a as [|y a IH]; simpl.
  - split.
    + intros H. inversion H; subst. repeat split; auto. constructor.
    + intros (_ & Hb & _ & Hvb). constructor; auto.
  - split.
    + intros H. inversion H as [|? ? Hs Hf]; subst.
      apply IH in Hs as (Ha & Hb & Hav & Hvb).
      rewrite Forall_app, Forall_cons in Hf. destruct Hf as (Hya & Hyv & Hyb).
      repeat split; auto. constructor; auto.
    + intros (Ha & Hb & Hav & Hvb).
      inversion Ha as [|? ? Hs Hf]; subst. inversion Hav as [|? ? Hyv Hav']; subst.
      constructor.
      * apply IH. auto.
      * rewrite Forall_app, Forall_cons. repeat split; auto.
        eapply Forall_impl; [exact Hvb|]. simpl. intros; lia.
Qed.

Lemma sorted_le_app (a b : list Z) :
  StronglySorted Z.le (a ++ b) -> StronglySorted Z.le a /\ StronglySorted Z.le b.
Proof.
  induction a as [|y a IH]; simpl; intros H.
  - split; [constructor|exact H].
  - inversion H as [|? ? Hs Hf]; subst. destruct (IH Hs) as [Ha Hb].
    rewrite Forall_app in Hf. split; [constructor; tauto|exact Hb].
Qed.

Lemma treap_rotateRight_inorder y t : rotateRight y = Some t -> inorder t = inorder y.
Proof.
  destruct y as [|[|xl xv xp xr] yv yp yr]; simpl; try discriminate.
  intros [= <-]. rewrite !treap_inorder_node, <- app_assoc. reflexivity.
Qed.

Lemma treap_rotateLeft_inorder x t : rotateLeft x = Some t -> inorder t = inorder x.
Proof.
  destruct x as [|xl xv xp [|yl yv yp yr]]; simpl; try discriminate.
  intros [= <-]. rewrite !treap_inorder_node, <- app_assoc. reflexivity.
Qed.

(** [_insert] always returns, and puts the new value behind the stored
    values that are not greater and before those that are greater. *)
Lemma treap_insert_inorder t v p :
  StronglySorted Z.le (inorder t) ->
  exists t' a b,
    _insert t v p = Some t' /\ inorder t = a ++ b /\ inorder t' = a ++ v :: b /\
    Forall (fun y => y <= v) a /\ Forall (fun y => v < y) b.
Proof.
  induction t as [|l IHl u q r IHr]; intros Hs.
  - exists (Node Null v p Null), [], []. simpl. repeat split; auto.
  - rewrite treap_inorder_node in Hs. apply sorted_le_app_cons in Hs as (Hsl & Hsr & Hlu & Hur).
    simpl. destruct (Z.ltb_spec v u) as [Hvu|Hvu].
    + destruct (IHl Hsl) as (l' & a & b & -> & Ea & El' & Ha & Hb). simpl.
      assert (Hin : forall t', inorder t' = inorder (Node l' u q r) ->
                inorder (Node l u q r) = a ++ (b ++ u :: inorder r) /\
                inorder t' = a ++ v :: (b ++ u :: inorder r)).
      { intros t' ->. rewrite !treap_inorder_node, Ea, El', <- !app_assoc. auto. }
      assert (Hb' : Forall (fun y => v < y) (b ++ u :: inorder r)).
      { rewrite Forall_app, Forall_cons. repeat split; auto.
        eapply Forall_impl; [exact Hur|]. simpl. intros; lia. }
      destruct l' as [|ll lv lp lr]; [destruct a; discriminate|].
      destruct (Qgtb lp q).
      * eexists _, a, _. split; [reflexivity|]. destruct (Hin _ eq_refl) as [H1 H2].
        rewrite H1. repeat split; auto.
        rewrite <- H2, !treap_inorder_node, <- !app_assoc. reflexivity.
      * eexists _, a, _. split; [reflexivity|]. destruct (Hin _ eq_refl) as [H1 H2].
        repeat split; eauto.
    + destruct (IHr Hsr) as (r' & a & b & -> & Ea & Er' & Ha & Hb). simpl.
      assert (Ha' : Forall (fun y => y <= v) (inorder l ++ u :: a)).
      { rewrite Forall_app, Forall_cons. repeat split; auto.
        eapply Forall_impl; [exact Hlu|]. simpl. intros; lia. }
      assert (Hin : forall t', inorder t' = inorder (Node l u q r') ->
                inorder (Node l u q r) = (inorder l ++ u :: a) ++ b /\
                inorder t' = (inorder l ++ u :: a) ++ v :: b).
      { intros t' ->. rewrite !treap_inorder_node, Ea, Er', <- !app_assoc. auto. }
      destruct r' as [|rl rv rp rr]; [destruct a; discriminate|].
      destruct (Qgtb rp q).
      * eexists _, (inorder l ++ u :: a), b. split; [reflexivity|].
        destruct (Hin _ eq_refl) as [H1 H2]. rewrite H1. repeat split; auto.
        rewrite <- H2, !treap_inorder_node, <- !app_assoc. reflexivity.
      * eexists _, (inorder l ++ u :: a), b. split; [reflexivity|].
        destruct (Hin _ eq_refl) as [H1 H2]. repeat split; eauto.
Qed.

Lemma _insert_sorted t v p :
  StronglySorted Z.le (inorder t) ->
  exists t', _insert t v p = Some t' /\ StronglySorted Z.le (inorder t') /\
             Permutation (inorder t') (v :: inorder t) /\ size t' = S (size t).
Proof.
  intros Hs. destruct (treap_insert_inorder t v p Hs) as (t' & a & b & E & Ea & Et' & Ha & Hb).
  exists t'. split; [exact E|]. rewrite Ea in Hs. apply sorted_le_app in Hs as [Hsa Hsb].
  split; [|split].
  - rewrite Et'. apply sorted_le_app_cons. repeat split; auto.
    eapply Forall_impl; [exact Hb|]. simpl. intros; lia.
  - rewrite Et', Ea. symmetry. apply Permutation_middle.
  - rewrite <- !inorder_size, Et', Ea, !length_app. simpl. lia.
Qed.

Lemma sorted_le_NoDup (l : list Z) :
  StronglySorted Z.le l -> List.NoDup l -> StronglySorted Z.lt l.
Proof.
  induction 1 as [|x l Hs IH Hf]; intros Hnd; [constructor|].
  inversion Hnd as [|? ? Hx Hnd']; subst. constructor; [auto|].
  rewrite Forall_forall in *. intros y Hy. specialize (Hf y Hy).
  assert (x <> y) by (intros ->; apply Hx, list_elem_of_In, Hy). lia.
Qed.

Lemma insertAll_sorted values : forall this,
  StronglySorted Z.le (inorder (root this)) ->
  exists this', insertAll this values = Some this' /\
    StronglySorted Z.le (inorder (root this')) /\
    Permutation (inorder (root this')) (rev values.*1 ++ inorder (root this)).
Proof.
  induction values as [|[v p] rest IH]; intros this Hs; simpl.
  - exists this. repeat split; auto.
  - destruct (_insert_sorted (root this) v p Hs) as (t' & E & Hs' & Hp & _).
    unfold insert. rewrite E. simpl.
    destruct (IH (mkTreap t') Hs') as (this' & E' & Hs'' & Hp').
    exists this'. split; [exact E'|]. split; [exact Hs''|].
    rewrite Hp'. simpl. rewrite <- app_assoc. simpl.
    apply Permutation_app_head. exact Hp.
Qed.

Lemma treap_insertAll_built values treap :
  insertAll empty values = Some treap -> StronglySorted Z.le (inorder (root treap)).
Proof.
  intros E. destruct (insertAll_sorted values empty) as (treap' & E' & Hs & _).
  - constructor.
  - congruence.
Qed.

Lemma _search_absent t x : ~ In x (inorder t) -> _search t x = false.
Proof.
  induction t as [|l IHl v p r IHr]; [reflexivity|].
  rewrite treap_inorder_node, in_app_iff. simpl. intros H.
  destruct (Z.eqb_spec v x) as [->|Hne]; [tauto|].
  destruct (x <? v); [apply IHl|apply IHr]; tauto.
Qed.

(** [_delete] of a stored value returns, and takes one occurrence of the
    value out of the in-order sequence. *)
Lemma _delete_present t x :
  StronglySorted Z.le (inorder t) -> In x (inorder t) ->
  exists t' a b, _delete t x = Some t' /\ inorder t = a ++ x :: b /\ inorder t' = a ++ b.
Proof.
  funelim (_delete t x); intros Hs Hin; try clear Heqcall.
  - inversion Hin.
  - apply Z.ltb_lt in Heq. rewrite treap_inorder_node in Hs, Hin.
    apply sorted_le_app_cons in Hs as (Hsl & Hsr & Hlv & Hvr).
    apply in_app_iff in Hin as [Hin|[Hin|Hin]]; [|lia|].
    2: { rewrite Forall_forall in Hvr. apply list_elem_of_In, Hvr in Hin. lia. }
    destruct (H Hsl Hin) as (t' & a & b & -> & Ea & Et'). simpl.
    exists (Node t' v p r), a, (b ++ v :: inorder r).
    rewrite !treap_inorder_node, Ea, Et', <- !app_assoc. auto.
  - apply Z.ltb_lt in Heq. rewrite treap_inorder_node in Hs, Hin.
    apply sorted_le_app_cons in Hs as (Hsl & Hsr & Hlv & Hvr).
    apply in_app_iff in Hin as [Hin|[Hin|Hin]]; [|lia|].
    { rewrite Forall_forall in Hlv. apply list_elem_of_In, Hlv in Hin. lia. }
    destruct (H Hsr Hin) as (t' & a & b & -> & Ea & Et'). simpl.
    exists (Node l v p t'), (inorder l ++ v :: a), b.
    rewrite !treap_inorder_node, Ea, Et', <- !app_assoc. auto.
  - apply Z.ltb_ge in Heq, Heq0. assert (value = v) by lia. subst.
    exists Null, [], []. auto.
  - apply Z.ltb_ge in Heq, Heq0. assert (value = v) by lia. subst.
    eexists _, [], _. split; [reflexivity|]. rewrite treap_inorder_node. auto.
  - apply Z.ltb_ge in Heq, Heq0. assert (value = v) by lia. subst.
    eexists _, _, []. split; [reflexivity|]. rewrite treap_inorder_node, app_nil_r. auto.
  - discriminate.
  - apply Z.ltb_ge in Heq0, Heq1. assert (value = v) by lia. subst.
    injection H0 as <- <- <- <-.
    rewrite !treap_inorder_node in Hs. rewrite !treap_inorder_node.
    assert (Hs' : StronglySorted Z.le (inorder lr ++ v :: inorder rl ++ rv :: inorder rr)).
    { rewrite <- app_assoc in Hs. simpl in Hs. apply sorted_le_app in Hs as [_ Hs].
      inversion Hs; auto. }
    destruct H as (t' & a & b & -> & Ea & Et').
    { rewrite !treap_inorder_node. exact Hs'. }
    { rewrite !treap_inorder_node. apply in_app_iff. right. left. reflexivity. }
    simpl. rewrite !treap_inorder_node in Ea.
    exists (Node ll lv lp t'), (inorder ll ++ lv :: a), b.
    rewrite !treap_inorder_node, Et', <- !app_assoc. simpl. rewrite Ea. auto.
  - discriminate.
  - apply Z.ltb_ge in Heq0, Heq1. assert (value = v) by lia. subst.
    injection H0 as <- <- <- <-.
    rewrite !treap_inorder_node in Hs. rewrite !treap_inorder_node.
    assert (E : (inorder ll ++ lv :: inorder lr) ++ v :: inorder rl ++ rv :: inorder rr
                = ((inorder ll ++ lv :: inorder lr) ++ v :: inorder rl) ++ rv :: inorder rr).
    { rewrite <- !app_assoc. simpl. rewrite <- ?app_assoc. reflexivity. }
    assert (Hs' : StronglySorted Z.le ((inorder ll ++ lv :: inorder lr) ++ v :: inorder rl)).
    { rewrite E in Hs. apply sorted_le_app in Hs as [Hs _]. exact Hs. }
    destruct H as (t' & a & b & -> & Ea & Et').
    { rewrite !treap_inorder_node. exact Hs'. }
    { rewrite !treap_inorder_node. apply in_app_iff. right. left. reflexivity. }
    simpl. rewrite !treap_inorder_node in Ea.
    exists (Node t' rv rp rr), a, (b ++ rv :: inorder rr).
    rewrite !treap_inorder_node, Et'.
    split; [reflexivity|]. split; [|now rewrite <- app_assoc].
    rewrite E, Ea, <- app_assoc. reflexivity.
Qed.

(** After [delete(x)] on a treap that holds [x] exactly once, [search(x)]
    reports not-found. *)
Lemma delete_search this x :
  StronglySorted Z.le (inorder (root this)) ->
  count_occ Z.eq_dec (inorder (root this)) x = 1%nat ->
  exists this', delete this x = Some this' /\ search this' x = false.
Proof.
  intros Hs Hc.
  assert (Hin : In x (inorder (root this))).
  { apply (count_occ_In Z.eq_dec). lia. }
  destruct (_delete_present _ _ Hs Hin) as (t' & a & b & E & Ea & Et').
  exists (mkTreap t'). unfold delete. rewrite E. split; [reflexivity|].
  unfold search. simpl. apply _search_absent. rewrite Et'. intros Hin'.
  rewrite Ea, count_occ_app in Hc. simpl in Hc.
  destruct (Z.eq_dec x x); [|congruence].
  apply in_app_iff in Hin' as [Hin'|Hin'];
    apply (count_occ_In Z.eq_dec) in Hin'; lia.
Qed.

(** On an ordered treap [_search] finds every stored value. *)
Lemma _search_present t x :
  StronglySorted Z.le (inorder t) -> In x (inorder t) -> _search t x = true.
Proof.
  induction t as [|l IHl v p r IHr]; intros Hs Hin; [inversion Hin|].
  rewrite treap_inorder_node in Hs, Hin.
  apply sorted_le_app_cons in Hs as (Hsl & Hsr & Hlv & Hvr).
  rewrite Forall_forall in Hlv, Hvr. simpl.
  destruct (Z.eqb_spec v x) as [|Hne]; [reflexivity|].
  apply in_app_iff in Hin as [Hin|[Hin|Hin]]; [|congruence|].
  - pose proof (Hlv _ (proj2 (list_elem_of_In _ _) Hin)).
    destruct (Z.ltb_spec x v); [|lia]. auto.
  - pose proof (Hvr _ (proj2 (list_elem_of_In _ _) Hin)).
    destruct (Z.ltb_spec x v); [lia|]. auto.
Qed.

End TreapFacts.

(** * The properties of the specification, C1 to C10 *)

Module Properties.
Import Scenario.
Local Open Scope Z_scope.
Local Open Scope string_scope.

Example test_insertAll_returns :
  snd (BPlus.insertAll (BPlus.new_BPlusTree 3) run_test) = BPlus.Done tt.
Proof. vm_compute. reflexivity. Qed.

(** The scenario of the test: keys 5, 7, 11, 13 in ascending order. *)
Example test_rangeQuery :
  BPlus.rangeQuery (after 3 run_test) 5 15
  = BPlus.Done [(5, BPlus.PData "data3"); (7, BPlus.PData "data1");
                (11, BPlus.PData "data4"); (13, BPlus.PData "data6")].
Proof. vm_compute. reflexivity. Qed.

(** ** C1 *)




(** ** C2 *)

(** C2, evaluated on minimum degree 2: after 1 .. 6 the root (node 1) is a
    full internal node with keys 2, 3, 4 and four children.  [insert(0)]
    splits it under a new root (node 5).  The median 3 moves up into the
    new root, the original keeps key 2 and two children, but the new node
    (node 6) receives the keys 3, 4, the median among them, and two
    children: its child count equals its key count. *)
Theorem C2_split_internal_keeps_median :
  BPlus.nodes (after 2 (take 6 run_root_split)) !! 1%nat
    = Some (BPlus.mkBNode [2; 3; 4]
              [BPlus.PNode 0; BPlus.PNode 2; BPlus.PNode 3; BPlus.PNode 4] false None) /\
  BPlus.root (after 2 (take 6 run_root_split)) = Some 1%nat /\
  BPlus.insert (after 2 (take 6 run_root_split)) 0 "g"
    = (after 2 run_root_split, BPlus.Done tt) /\
  BPlus.root (after 2 run_root_split) = Some 5%nat /\
  BPlus.nodes (after 2 run_root_split) !! 5%nat
    = Some (BPlus.mkBNode [3] [BPlus.PNode 1; BPlus.PNode 6] false None) /\
  BPlus.nodes (after 2 run_root_split) !! 1%nat
    = Some (BPlus.mkBNode [2] [BPlus.PNode 0; BPlus.PNode 2] false None) /\
  BPlus.nodes (after 2 run_root_split) !! 6%nat
    = Some (BPlus.mkBNode [3; 4] [BPlus.PNode 3; BPlus.PNode 4] false None).
Proof. vm_compute. repeat split; reflexivity. Qed.

(** ** C3 *)

(** C3, counterexample: [insert(5)] twice gives a treap whose in-order
    traversal is 5, 5. *)
Lemma C3_ordering_counterexample : ~ treap_strictly_ascending.
Proof.
  intros H. specialize (H [(5, 1#2); (5, 1#4)] _ eq_refl).
  vm_compute in H. inversion H as [|? ? _ Hf]. inversion Hf as [|? ? Hlt _].
  discriminate Hlt.
Qed.

(** C3, amended: every sequence of AVL insertions returns a tree whose
    in-order traversal is strictly ascending and in which, at every node,
    the keys on the left are smaller and the keys on the right are greater
    than the node's key.  Every sequence of Treap insertions returns a treap
    whose in-order traversal is ascending, equal keys next to each other,
    and strictly ascending when no value is inserted twice. *)
Theorem C3_ordering (values : list Z) (tvalues : list (Z * Q)) :
  (exists avl, AVL.insertAll AVL.empty values = Some avl /\
     StronglySorted Z.lt (AVL.inorder (AVL.root avl)) /\ AVL.bst (AVL.root avl)) /\
  (exists treap, Treap.insertAll Treap.empty tvalues = Some treap /\
     StronglySorted Z.le (Treap.inorder (Treap.root treap)) /\
     (List.NoDup tvalues.*1 -> StronglySorted Z.lt (Treap.inorder (Treap.root treap)))).
Proof.
  split.
  - destruct (AVLFacts.insertAll_inv values AVL.empty AVLFacts.empty_inv)
      as (avl & E & _ & Hs).
    exists avl. split; [exact E|]. split; [|exact Hs]. now apply AVLFacts.bst_sorted.
  - destruct (TreapFacts.insertAll_sorted tvalues Treap.empty) as (treap & E & Hs & Hp).
    { constructor. }
    exists treap. split; [exact E|]. split; [exact Hs|]. intros Hnd.
    apply TreapFacts.sorted_le_NoDup; [exact Hs|].
    simpl in Hp. rewrite app_nil_r in Hp.
    eapply Permutation_NoDup; [symmetry; exact Hp|].
    apply NoDup_rev. exact Hnd.
Qed.

Lemma C3_ordering_witness :
  (exists avl, AVL.insertAll AVL.empty [3; 1; 2] = Some avl /\
     StronglySorted Z.lt (AVL.inorder (AVL.root avl)) /\ AVL.bst (AVL.root avl)) /\
  (exists treap,
     Treap.insertAll Treap.empty [(5, 1#2); (2, 3#4); (6, 1#4)] = Some treap /\
     StronglySorted Z.le (Treap.inorder (Treap.root treap)) /\
     (List.NoDup [5; 2; 6] -> StronglySorted Z.lt (Treap.inorder (Treap.root treap)))).
Proof. apply (C3_ordering [3; 1; 2] [(5, 1#2); (2, 3#4); (6, 1#4)]). Defined.

(** ** C4 *)

(** C4, evaluated on minimum degree 2.  After the ten insertions of
    [run_misrouted], all of which return, key 25 is stored in the leaf at
    node 2, yet [rangeQuery(24, 26)] returns the empty array, and
    [rangeQuery(0, 100)] lists 25 before 22.  After [run_root_split],
    [rangeQuery(5, 6)] throws a TypeError instead of returning the entries
    5 and 6. *)
Theorem C4_rangeQuery_misses_entries :
  snd (BPlus.insertAll (BPlus.new_BPlusTree 2) run_misrouted) = BPlus.Done tt /\
  BPlus.nodes (after 2 run_misrouted) !! 2%nat
    = Some (BPlus.mkBNode [20; 25] [BPlus.PData "b"; BPlus.PData "f"] true (Some 3%nat)) /\
  BPlus.rangeQuery (after 2 run_misrouted) 24 26 = BPlus.Done [] /\
  (fun r => match r with BPlus.Done l => Some l.*1 | _ => None end)
    (BPlus.rangeQuery (after 2 run_misrouted) 0 100)
    = Some [1; 5; 7; 10; 20; 25; 22; 30; 40; 50] /\
  snd (BPlus.insertAll (BPlus.new_BPlusTree 2) run_root_split) = BPlus.Done tt /\
  BPlus.rangeQuery (after 2 run_root_split) 5 6 = BPlus.TypeError.
Proof. vm_compute. repeat split; reflexivity. Qed.

(** ** C5 *)




(** The bound [2 <= t] of C5 is needed: with minimum degree 1 the second
    insertion already leaves a leaf (node 3) with two keys, more than
    [2t - 1 = 1]. *)
Example minimum_degree_one_overfull :
  snd (BPlus.insertAll (BPlus.new_BPlusTree 1) [(1, "a"); (2, "b")]) = BPlus.Done tt /\
  BPlus.root (after 1 [(1, "a"); (2, "b")]) = Some 1%nat /\
  BPlus.nodes (after 1 [(1, "a"); (2, "b")]) !! 3%nat
    = Some (BPlus.mkBNode [1; 2] [BPlus.PData "a"; BPlus.PData "b"] true None).
Proof. vm_compute. repeat split; reflexivity. Qed.

(** ** C6 *)

(** C6, evaluated: on the empty index [rangeQuery(5, 1)] throws a TypeError
    ([_findLeafNode] reads [isLeaf] of the [null] root), where [search]
    tests for the [null] root and returns [null].  After [run_root_split]
    on minimum degree 2, [rangeQuery(7, 6)] throws as well. *)
Theorem C6_rangeQuery_throws :
  BPlus.rangeQuery (BPlus.new_BPlusTree 3) 5 1 = BPlus.TypeError /\
  BPlus.search (BPlus.new_BPlusTree 3) 5 = BPlus.Done BPlus.PNull /\
  snd (BPlus.insertAll (BPlus.new_BPlusTree 2) run_root_split) = BPlus.Done tt /\
  BPlus.rangeQuery (after 2 run_root_split) 7 6 = BPlus.TypeError.
Proof. vm_compute. repeat split; reflexivity. Qed.

(** ** C7 *)

(** C7, evaluated on minimum degree 2 after the ten insertions of
    [run_misrouted]: the leaf at node 2 holds the keys 20, 25 and its
    [nextLeaf] is node 3, which holds the keys 22, 30; walking the chain
    from the first leaf meets 25 before 22. *)
Theorem C7_leaf_chain_not_ascending :
  snd (BPlus.insertAll (BPlus.new_BPlusTree 2) run_misrouted) = BPlus.Done tt /\
  BPlus.nodes (after 2 run_misrouted) !! 2%nat
    = Some (BPlus.mkBNode [20; 25] [BPlus.PData "b"; BPlus.PData "f"] true (Some 3%nat)) /\
  BPlus.nodes (after 2 run_misrouted) !! 3%nat
    = Some (BPlus.mkBNode [22; 30] [BPlus.PData "j"; BPlus.PData "c"] true (Some 7%nat)) /\
  (fun o => match o with (_, BPlus.Done l) => Some l.*1 | _ => None end)
    (BPlus.walkLeaves 9 (Some 0%nat) 0 100 [] (BPlus.nodes (after 2 run_misrouted)))
    = Some [1; 5; 7; 10; 20; 25; 22; 30; 40; 50].
Proof. vm_compute. repeat split; reflexivity. Qed.

(** ** C8 *)

(** C8, evaluated.  Minimum degree 2: after 1 .. 6, [insert(7, ...)] of the
    new key 7 throws a TypeError, and so does [search(7)] on the tree it
    leaves behind.  Minimum degree 3: after 1 .. 6, all returned,
    [search(3)] returns [null] although 3 is stored in the leaf at node
    2. *)
Theorem C8_insert_then_search_fails :
  snd (BPlus.insertAll (BPlus.new_BPlusTree 2) (take 6 run_root_split)) = BPlus.Done tt /\
  snd (BPlus.insert (after 2 (take 6 run_root_split)) 7 "g") = BPlus.TypeError /\
  BPlus.search (fst (BPlus.insert (after 2 (take 6 run_root_split)) 7 "g")) 7
    = BPlus.TypeError /\
  snd (BPlus.insertAll (BPlus.new_BPlusTree 3) (take 6 run_root_split)) = BPlus.Done tt /\
  BPlus.nodes (after 3 (take 6 run_root_split)) !! 2%nat
    = Some (BPlus.mkBNode [3; 4; 5; 6]
              [BPlus.PData "c"; BPlus.PData "d"; BPlus.PData "e"; BPlus.PData "f"]
              true None) /\
  BPlus.search (after 3 (take 6 run_root_split)) 3 = BPlus.Done BPlus.PNull.
Proof. vm_compute. repeat split; reflexivity. Qed.

(** ** C9 *)

(** C9: inserting 10, 20, 30, 40, 50, 25 into an empty AVL tree gives the
    in-order traversal 10, 20, 25, 30, 40, 50, and [kthSmallest(3)] returns
    25. *)
Theorem C9_avl_scenario :
  exists avl,
    AVL.insertAll AVL.empty [10; 20; 30; 40; 50; 25] = Some avl /\
    (AVL.inorderTraversal (AVL.root avl)).*1 = [10; 20; 25; 30; 40; 50] /\
    snd (AVL.kthSmallest avl 3) = Some 25.
Proof. eexists. vm_compute. repeat split; reflexivity. Qed.

(** ** C10 *)

(** C10: on an AVL tree built by insertions that holds [n] keys,
    [kthSmallest(k)] leaves the tree as it is, returns [null] when [k < 1]
    or [k > n], and returns the [k]-th smallest stored key when
    [1 <= k <= n]. *)
Theorem C10_kthSmallest (values : list Z) (avl : AVL.AVLTree) (k : Z) :
  AVL.insertAll AVL.empty values = Some avl ->
  fst (AVL.kthSmallest avl k) = avl /\
  (k < 1 \/ Z.of_nat (List.length (AVL.inorder (AVL.root avl))) < k ->
     snd (AVL.kthSmallest avl k) = None) /\
  (1 <= k <= Z.of_nat (List.length (AVL.inorder (AVL.root avl))) ->
     exists x, snd (AVL.kthSmallest avl k) = Some x /\
               kth_smallest_of (AVL.inorder (AVL.root avl)) k x).
Proof.
  intros Ha. destruct (AVLFacts.insertAll_built _ _ Ha) as [_ Hs].
  apply AVLFacts.bst_sorted in Hs.
  split; [reflexivity|]. unfold AVL.kthSmallest. simpl.
  set (res0 := AVL.mkKthResult 0 None). split.
  - intros [Hk|Hk].
    + destruct (AVLFacts.helper_after (AVL.root avl) k res0) as [Hv _]; [simpl; lia|].
      exact Hv.
    + destruct (AVLFacts.helper_before (AVL.root avl) k res0) as [_ H]; [simpl; lia|].
      destruct H as [Hv _]; [simpl; lia|]. exact Hv.
  - intros Hk.
    destruct (AVLFacts.helper_before (AVL.root avl) k res0) as [H _]; [simpl; lia|].
    destruct H as [Hv _]; [simpl; lia|]. simpl in Hv.
    destruct (nth_error (AVL.inorder (AVL.root avl)) (Z.to_nat (k - 0 - 1))) as [x|] eqn:En.
    + exists x. split; [exact Hv|].
      replace k with (Z.of_nat (Z.to_nat (k - 0 - 1)) + 1) at 1 by lia.
      apply AVLFacts.sorted_nth_kth; assumption.
    + apply nth_error_None in En. lia.
Qed.

Lemma C10_kthSmallest_witness :
  let avl := AVL.mkAVLTree
    (AVL.Node (AVL.Node (AVL.Node AVL.Null 10 1 AVL.Null) 20 2 (AVL.Node AVL.Null 25 1 AVL.Null))
       30 3 (AVL.Node AVL.Null 40 2 (AVL.Node AVL.Null 50 1 AVL.Null))) in
  fst (AVL.kthSmallest avl 3) = avl /\
  (3 < 1 \/ Z.of_nat (List.length (AVL.inorder (AVL.root avl))) < 3 ->
     snd (AVL.kthSmallest avl 3) = None) /\
  (1 <= 3 <= Z.of_nat (List.length (AVL.inorder (AVL.root avl))) ->
     exists x, snd (AVL.kthSmallest avl 3) = Some x /\
               kth_smallest_of (AVL.inorder (AVL.root avl)) 3 x).
Proof.
  intros avl. apply (C10_kthSmallest [10; 20; 30; 40; 50; 25] avl 3).
  vm_compute. reflexivity.
Defined.

End Properties.

(** * Further facts about the AVL tree *)
Module AVLMore.
Import AVL AVLFacts AVLExt.
Local Open Scope Z_scope.

(** [_insert] of a value that is not stored puts it at its place in the
    in-order sequence. *)
Lemma _insert_absent t x t' :
  StronglySorted Z.lt (inorder t) -> ~ In x (inorder t) -> _insert t x = Some t' ->
  exists a b, inorder t = a ++ b /\ inorder t' = a ++ x :: b /\
              Forall (fun y => y < x) a /\ Forall (fun y => x < y) b.
Proof.
  revert t'. induction t as [|l IHl v h r IHr]; intros t' Hs Hnin.
  - simpl. intros [= <-]. exists [], []. rewrite AVLFacts.inorder_node. simpl. auto.
  - rewrite AVLFacts.inorder_node in Hs, Hnin.
    apply sorted_app_cons in Hs as (Hsl & Hsr & Hlv & Hvr).
    rewrite in_app_iff in Hnin. simpl in Hnin. simpl.
    destruct (Z.ltb_spec x v) as [Hxv|Hxv].
    + destruct (_insert l x) as [l'|] eqn:El; [|discriminate]. simpl.
      intros Hreb. apply rebalance_inorder in Hreb.
      destruct (IHl l' Hsl ltac:(tauto) eq_refl) as (a & b & Ea & El' & Ha & Hb).
      exists a, (b ++ v :: inorder r).
      rewrite Hreb, !AVLFacts.inorder_node, Ea, El', <- !app_assoc. repeat split; auto.
      rewrite Forall_app, Forall_cons. repeat split; auto.
      eapply Forall_impl; [exact Hvr|]. simpl. intros; lia.
    + destruct (Z.ltb_spec v x) as [Hvx|Hvx]; [|exfalso; assert (v = x) by lia; tauto].
      destruct (_insert r x) as [r'|] eqn:Er; [|discriminate]. simpl.
      intros Hreb. apply rebalance_inorder in Hreb.
      destruct (IHr r' Hsr ltac:(tauto) eq_refl) as (a & b & Ea & Er' & Ha & Hb).
      exists (inorder l ++ v :: a), b.
      rewrite Hreb, !AVLFacts.inorder_node, Ea, Er', <- !app_assoc. repeat split; auto.
      rewrite Forall_app, Forall_cons. repeat split; auto.
      eapply Forall_impl; [exact Hlv|]. simpl. intros; lia.
Qed.

Lemma size_inorder t : size t = Z.of_nat (List.length (inorder t)).
Proof.
  induction t as [|l IHl v h r IHr]; [reflexivity|].
  rewrite AVLFacts.inorder_node, length_app. simpl. lia.
Qed.

Lemma pow2_half_mono a b : 0 <= a <= b -> 2 ^ (a / 2) <= 2 ^ (b / 2).
Proof.
  intros H. apply Z.pow_le_mono_r; [lia|]. apply Z.div_le_mono; lia.
Qed.

(** A balanced tree of height [h] has at least [2 ^ (h / 2) - 1] nodes. *)
Lemma balanced_size t : balanced t -> 2 ^ (true_height t / 2) <= size t + 1.
Proof.
  induction t as [|l IHl v h r IHr]; intros Hb.
  - vm_compute. congruence.
  - simpl in Hb. destruct Hb as (Hl & Hr & _ & Hd).
    specialize (IHl Hl). specialize (IHr Hr).
    pose proof (true_height_nonneg l). pose proof (true_height_nonneg r).
    cbn [true_height size].
    set (hl := true_height l) in *. set (hr := true_height r) in *.
    assert (Hcase : forall a b sa sb, 0 <= a -> 0 <= b -> b <= a <= b + 1 ->
              2 ^ (a / 2) <= sa + 1 -> 2 ^ (b / 2) <= sb + 1 ->
              2 ^ ((1 + a) / 2) <= 1 + sa + sb + 1).
    { intros a b sa sb Ha0 Hb0 Hab Hsa Hsb.
      assert (0 < 2 ^ (b / 2)) by (apply Z.pow_pos_nonneg; [lia|apply Z.div_pos; lia]).
      destruct (Z.eq_dec (a mod 2) 0) as [Ev|Od].
      - replace ((1 + a) / 2) with (a / 2); [lia|].
        pose proof (Z.div_mod a 2 ltac:(lia)). pose proof (Z.div_mod (1 + a) 2 ltac:(lia)).
        pose proof (Z.mod_pos_bound (1 + a) 2 ltac:(lia)). lia.
      - pose proof (Z.mod_pos_bound a 2 ltac:(lia)).
        assert (Ea : (1 + a) / 2 = a / 2 + 1).
        { pose proof (Z.div_mod a 2 ltac:(lia)). pose proof (Z.div_mod (1 + a) 2 ltac:(lia)).
          pose proof (Z.mod_pos_bound (1 + a) 2 ltac:(lia)). lia. }
        rewrite Ea, Z.pow_add_r by (try apply Z.div_pos; lia).
        assert (Eb : a / 2 <= b / 2).
        { pose proof (Z.div_mod a 2 ltac:(lia)). pose proof (Z.div_mod b 2 ltac:(lia)).
          pose proof (Z.mod_pos_bound b 2 ltac:(lia)). lia. }
        assert (2 ^ (a / 2) <= 2 ^ (b / 2)).
        { apply Z.pow_le_mono_r; lia. }
        lia. }
    destruct (Z.le_ge_cases hr hl) as [Hle|Hge].
    + rewrite Z.max_l by lia. apply Hcase with (b := hr); lia.
    + rewrite Z.max_r by lia.
      replace (1 + size l + size r + 1) with (1 + size r + size l + 1) by lia.
      apply Hcase with (b := hl); lia.
Qed.

Lemma rotateRight_rotateLeft y t :
  balanced y -> rotateRight y = Some t -> rotateLeft t = Some y.
Proof.
  destruct y as [|[|xl xv xh T2] yv yh yr]; simpl; try discriminate.
  intros ((Hxl & HT2 & Hxh & _) & Hyr & Hyh & _) [= <-]. simpl.
  rewrite (height_true xl Hxl), (height_true T2 HT2), (height_true yr Hyr).
  subst xh yh. simpl. reflexivity.
Qed.

Lemma rotateLeft_rotateRight x t :
  balanced x -> rotateLeft x = Some t -> rotateRight t = Some x.
Proof.
  destruct x as [|xl xv xh [|T2 yv yh yr]]; simpl; try discriminate.
  intros (Hxl & (HT2 & Hyr & Hyh & _) & Hxh & _) [= <-]. simpl.
  rewrite (height_true xl Hxl), (height_true T2 HT2), (height_true yr Hyr).
  subst xh yh. simpl. reflexivity.
Qed.

End AVLMore.

(** * Further facts about the Treap *)
Module TreapMore.
Import Treap TreapFacts TreapHeap.
Local Open Scope Z_scope.

Lemma root_le_trans p b t : root_le p t -> (p <= b)%Q -> root_le b t.
Proof. destruct t; simpl; [auto|]. intros H1 H2. eapply Qle_trans; eauto. Qed.

Lemma Qgtb_false a b : Qgtb a b = false -> (a <= b)%Q.
Proof. unfold Qgtb. intros H. apply negb_false_iff in H. now apply Qle_bool_iff. Qed.

Lemma Qgtb_true a b : Qgtb a b = true -> (b <= a)%Q.
Proof.
  unfold Qgtb. intros H. apply negb_true_iff in H.
  apply Qlt_le_weak, Qnot_le_lt. intros Hle. apply Qle_bool_iff in Hle. congruence.
Qed.

Lemma _insert_not_null t v rnd : _insert t v rnd <> Some Null.
Proof.
  destruct t as [|l u q r]; simpl; [discriminate|].
  destruct (v <? u).
  - destruct (_insert l v rnd) as [[|? ? lp ?]|]; simpl; try discriminate.
    destruct (Qgtb lp q); simpl; discriminate.
  - destruct (_insert r v rnd) as [[|? ? rp ?]|]; simpl; try discriminate.
    destruct (Qgtb rp q); simpl; discriminate.
Qed.

(** [_insert] keeps the heap order: a rotation lifts the child whose
    priority is greater. *)
Lemma _insert_heap t v rnd :
  heap t ->
  exists t', _insert t v rnd = Some t' /\ heap t' /\
             (forall b, root_le b t -> kids_le b t').
Proof.
  induction t as [|l IHl u q r IHr]; intros Hh.
  - eexists. split; [reflexivity|]. simpl. auto.
  - simpl in Hh. destruct Hh as (Hql & Hqr & Hl & Hr). simpl.
    destruct (v <? u).
    + destruct (IHl Hl) as (l' & El & Hl' & Hk). rewrite El. simpl.
      specialize (Hk q Hql).
      destruct l' as [|ll lv lp lr]; [exfalso; eapply _insert_not_null; eauto|].
      simpl in Hk, Hl'. destruct Hk as [Hk1 Hk2]. destruct Hl' as (H1 & H2 & H3 & H4).
      destruct (Qgtb lp q) eqn:Hg.
      * apply Qgtb_true in Hg. eexists. split; [reflexivity|]. simpl.
        split; [repeat split; auto|].
        intros b Hb. split; [eapply root_le_trans; eauto|exact Hb].
      * apply Qgtb_false in Hg. eexists. split; [reflexivity|]. simpl.
        split; [repeat split; auto|].
        intros b Hb. split; [eapply Qle_trans; eauto|eapply root_le_trans; eauto].
    + destruct (IHr Hr) as (r' & Er & Hr' & Hk). rewrite Er. simpl.
      specialize (Hk q Hqr).
      destruct r' as [|rl rv rp rr]; [exfalso; eapply _insert_not_null; eauto|].
      simpl in Hk, Hr'. destruct Hk as [Hk1 Hk2]. destruct Hr' as (H1 & H2 & H3 & H4).
      destruct (Qgtb rp q) eqn:Hg.
      * apply Qgtb_true in Hg. eexists. split; [reflexivity|]. simpl.
        split; [repeat split; auto|].
        intros b Hb. split; [exact Hb|eapply root_le_trans; eauto].
      * apply Qgtb_false in Hg. eexists. split; [reflexivity|]. simpl.
        split; [repeat split; auto|].
        intros b Hb. split; [eapply root_le_trans; eauto|eapply Qle_trans; eauto].
Qed.

(** [_delete] keeps the heap order: the child with the greater priority is
    rotated up, and the node that goes down is the one that is removed. *)
Lemma _delete_heap t x :
  heap t ->
  exists t', _delete t x = Some t' /\ heap t' /\
    (forall b, root_le b t -> root_le b t') /\
    (forall b, match t with Null => True | Node _ v _ _ => v = x end ->
               kids_le b t -> root_le b t').
Proof.
  funelim (_delete t x); intros Hh; try clear Heqcall.
  - exists Null. simpl. auto.
  - apply Z.ltb_lt in Heq. simpl in Hh. destruct Hh as (Hpl & Hpr & Hl & Hr).
    destruct (H Hl) as (l' & -> & Hl' & Hb & _). simpl.
    eexists. split; [reflexivity|]. simpl. split; [auto|]. split; [auto|].
    intros b Hv. lia.
  - apply Z.ltb_lt in Heq. simpl in Hh. destruct Hh as (Hpl & Hpr & Hl & Hr).
    destruct (H Hr) as (r' & -> & Hr' & Hb & _). simpl.
    eexists. split; [reflexivity|]. simpl. split; [auto|]. split; [auto|].
    intros b Hv. lia.
  - exists Null. simpl. auto.
  - simpl in Hh. destruct Hh as (Hpl & Hpr & Hl & Hr).
    eexists. split; [reflexivity|]. split; [exact Hr|]. split.
    + intros b Hb. simpl in Hb. eapply root_le_trans; eauto.
    + intros b _ [_ Hk]. exact Hk.
  - simpl in Hh. destruct Hh as (Hpl & Hpr & Hl & Hr).
    eexists. split; [reflexivity|]. split; [exact Hl|]. split.
    + intros b Hb. simpl in Hb. eapply root_le_trans; eauto.
    + intros b _ [Hk _]. exact Hk.
  - discriminate.
  - apply Z.ltb_ge in Heq0, Heq1. assert (value = v) by lia. subst.
    injection H0 as <- <- <- <-. apply Qgtb_true in Heq.
    simpl in Hh. destruct Hh as (Hpl & Hpr & (Hll & Hlr & Hhll & Hhlr) & Hr).
    destruct H as (t' & -> & Ht' & _ & Hroot).
    { simpl. simpl in Hr. repeat split; try tauto.
      eapply root_le_trans; eauto. }
    simpl. specialize (Hroot lp eq_refl).
    eexists. split; [reflexivity|]. simpl. split.
    + repeat split; auto. apply Hroot. simpl. auto.
    + split; intros b Hb; simpl in Hb.
      * eapply Qle_trans; eauto.
      * intros [Hk _]. exact Hk.
  - discriminate.
  - apply Z.ltb_ge in Heq0, Heq1. assert (value = v) by lia. subst.
    injection H0 as <- <- <- <-. apply Qgtb_false in Heq.
    simpl in Hh. destruct Hh as (Hpl & Hpr & Hl & (Hrl & Hrr & Hhrl & Hhrr)).
    destruct H as (t' & -> & Ht' & _ & Hroot).
    { simpl. simpl in Hl. repeat split; try tauto.
      eapply root_le_trans; eauto. }
    simpl. specialize (Hroot rp eq_refl).
    eexists. split; [reflexivity|]. simpl. split.
    + repeat split; auto. apply Hroot. simpl. auto.
    + split; intros b Hb; simpl in Hb.
      * eapply Qle_trans; eauto.
      * intros [_ Hk]. exact Hk.
Qed.

(** [_delete] of a value that is not stored gives back the treap. *)
Lemma _delete_absent t x : ~ In x (inorder t) -> _delete t x = Some t.
Proof.
  funelim (_delete t x); intros Hnin; try clear Heqcall;
    try (exfalso; apply Z.ltb_ge in Heq, Heq0; assert (value = v) by lia; subst;
         apply Hnin; rewrite treap_inorder_node; apply in_app_iff; right; left;
         reflexivity).
  - reflexivity.
  - rewrite treap_inorder_node, in_app_iff in Hnin. rewrite H by tauto. reflexivity.
  - rewrite treap_inorder_node, in_app_iff in Hnin. simpl in Hnin.
    rewrite H by tauto. reflexivity.
  - discriminate.
  - exfalso. apply Z.ltb_ge in Heq0, Heq1. assert (value = v) by lia. subst.
    apply Hnin. rewrite treap_inorder_node. apply in_app_iff. right. left. reflexivity.
  - discriminate.
  - exfalso. apply Z.ltb_ge in Heq0, Heq1. assert (value = v) by lia. subst.
    apply Hnin. rewrite treap_inorder_node. apply in_app_iff. right. left. reflexivity.
Qed.

Lemma sorted_le_remove (a b : list Z) x :
  StronglySorted Z.le (a ++ x :: b) -> StronglySorted Z.le (a ++ b).
Proof.
  intros H. apply sorted_le_app_cons in H as (Ha & Hb & Hax & Hxb).
  apply StronglySorted_app_2; auto.
  rewrite Forall_forall in Hax, Hxb. intros x1 x2 H1 H2.
  specialize (Hax _ H1). specialize (Hxb _ H2). simpl in *. lia.
Qed.

(** [_insert] followed by [_delete] of the same value gives back the
    in-order sequence. *)
Lemma _insert_delete t x rnd :
  StronglySorted Z.le (inorder t) ->
  exists t' t'', _insert t x rnd = Some t' /\ _delete t' x = Some t'' /\
                 inorder t'' = inorder t.
Proof.
  intros Hs. destruct (_insert_sorted t x rnd Hs) as (t' & E & Hs' & Hp & _).
  assert (Hin : In x (inorder t')).
  { apply list_elem_of_In. rewrite Hp. left. }
  destruct (_delete_present t' x Hs' Hin) as (t'' & a & b & E' & Ea & Et'').
  exists t', t''. split; [exact E|]. split; [exact E'|].
  apply (StronglySorted_unique Z.le).
  - rewrite Et''. eapply sorted_le_remove. rewrite <- Ea. exact Hs'.
  - exact Hs.
  - apply (Permutation_cons_inv (a := x)). rewrite <- Hp, Ea, Et''.
    apply Permutation_middle.
Qed.

(** The heap order holds after every sequence of [insert] calls. *)
Lemma insertAll_heap values : forall this,
  heap (root this) ->
  exists this', insertAll this values = Some this' /\ heap (root this').
Proof.
  induction values as [|[v p] values IH]; intros this Hh; cbn [insertAll].
  - eauto.
  - destruct (_insert_heap (root this) v p Hh) as (t' & Hins & Hh' & _).
    unfold insert. rewrite Hins. simpl. apply (IH (mkTreap t')). exact Hh'.
Qed.
End TreapMore.

(** * Facts about [binarySearch] *)
Module BinarySearchFacts.
Import BinarySearch.
Local Open Scope Z_scope.

Lemma sorted_lookup_le (l : list Z) i j x y :
  StronglySorted Z.le l -> (i <= j)%nat -> l !! i = Some x -> l !! j = Some y -> x <= y.
Proof.
  intros Hs. revert i j. induction Hs as [|a l Hs IH Hf]; intros i j Hij Hi Hj.
  - discriminate.
  - destruct i as [|i], j as [|j]; simpl in *; try lia.
    + injection Hi as ->. injection Hj as ->. lia.
    + injection Hi as ->. rewrite Forall_forall in Hf.
      apply Hf. eapply list_elem_of_lookup_2; eauto.
    + eapply IH; [|eauto..]. lia.
Qed.

(** What the loop returns is [-1] or an index of the window that holds the
    target. *)
Lemma loop_sound arr target l r :
  0 <= l ->
  loop arr target l r = -1 \/
  (l <= loop arr target l r <= r /\
   arr !! Z.to_nat (loop arr target l r) = Some target).
Proof.
  funelim (loop arr target l r); intros Hl; try clear Heqcall.
  - left. reflexivity.
  - pose proof (proj1 (Z.leb_le _ _) e) as Hle.
    pose proof (Z.div_mod (left_ + right_) 2 ltac:(lia)).
    pose proof (Z.mod_pos_bound (left_ + right_) 2 ltac:(lia)).
    destruct (Z.eqb_spec middleValue targetValue) as [->|Hne].
    + right. split; [lia|exact e0].
    + destruct (targetValue <? middleValue).
      * destruct (H Hl) as [E|[E1 E2]]; [left; exact E|right; split; [lia|exact E2]].
      * destruct (H0 ltac:(lia)) as [E|[E1 E2]]; [left; exact E|right; split; [lia|exact E2]].
  - pose proof (proj1 (Z.leb_le _ _) e) as Hle.
    pose proof (Z.div_mod (left_ + right_) 2 ltac:(lia)).
    pose proof (Z.mod_pos_bound (left_ + right_) 2 ltac:(lia)).
    destruct (H ltac:(lia)) as [E|[E1 E2]]; [left; exact E|right; split; [lia|exact E2]].
Qed.

(** On an ascending array the loop finds the target when the window holds
    it. *)
Lemma loop_complete arr target l r :
  StronglySorted Z.le arr -> 0 <= l -> r < Z.of_nat (List.length arr) ->
  (exists i, l <= Z.of_nat i <= r /\ arr !! i = Some target) ->
  loop arr target l r <> -1.
Proof.
  funelim (loop arr target l r); intros Hs Hl Hr (i & Hi & Hai); try clear Heqcall.
  - pose proof (proj1 (Z.leb_gt _ _) e). lia.
  - pose proof (proj1 (Z.leb_le _ _) e) as Hle.
    pose proof (Z.div_mod (left_ + right_) 2 ltac:(lia)).
    pose proof (Z.mod_pos_bound (left_ + right_) 2 ltac:(lia)).
    destruct (Z.eqb_spec middleValue targetValue) as [->|Hne]; [lia|].
    destruct (Z.ltb_spec targetValue middleValue) as [Hlt|Hge].
    + apply H; auto; [lia|]. exists i. split; [|exact Hai].
      destruct (Z_lt_le_dec (Z.of_nat i) ((left_ + right_) / 2)); [lia|].
      pose proof (sorted_lookup_le sortedArray (Z.to_nat ((left_ + right_) / 2)) i
                    middleValue targetValue Hs ltac:(lia) e0 Hai). lia.
    + apply H0; auto; [lia|]. exists i. split; [|exact Hai].
      destruct (Z_lt_le_dec ((left_ + right_) / 2) (Z.of_nat i)); [lia|].
      pose proof (sorted_lookup_le sortedArray i (Z.to_nat ((left_ + right_) / 2))
                    targetValue middleValue Hs ltac:(lia) Hai e0). lia.
  - pose proof (proj1 (Z.leb_le _ _) e) as Hle.
    pose proof (Z.div_mod (left_ + right_) 2 ltac:(lia)).
    pose proof (Z.mod_pos_bound (left_ + right_) 2 ltac:(lia)).
    pose proof (lookup_ge_None_1 _ _ e0). lia.
Qed.

End BinarySearchFacts.

(** * Facts about the linked list *)
Module LinkedListFacts.
Import LinkedList.
Local Open Scope Z_scope.

Lemma print_loop_inj n m : print_loop n = print_loop m -> n = m.
Proof.
  revert m. induction n as [|d n IH]; intros [|d' m]; simpl; try discriminate; auto.
  intros [= -> H]. f_equal. auto.
Qed.

Lemma print_insert_loop n newNode :
  n <> Null -> print_loop (insert_loop n newNode) = print_loop n ++ print_loop newNode.
Proof.
  induction n as [|d n IH]; intros Hn; [congruence|].
  destruct n as [|d' n']; [reflexivity|].
  change (insert_loop (mkNode d (mkNode d' n')) newNode)
    with (mkNode d (insert_loop (mkNode d' n') newNode)).
  cbn [print_loop]. cbn [print_loop] in IH. rewrite IH by discriminate. reflexivity.
Qed.

Lemma delete_loop_absent n data d :
  ~ In data (print_loop n) -> delete_loop (mkNode d n) data = mkNode d n.
Proof.
  revert d. induction n as [|d' n IH]; intros d Hnin; [reflexivity|].
  change (delete_loop (mkNode d (mkNode d' n)) data)
    with (if d' =? data then mkNode d n else mkNode d (delete_loop (mkNode d' n) data)).
  simpl in Hnin. destruct (Z.eqb_spec d' data); [tauto|].
  rewrite IH by tauto. reflexivity.
Qed.

Lemma delete_loop_present n data d a b :
  print_loop n = a ++ data :: b -> ~ In data a ->
  print_loop (delete_loop (mkNode d n) data) = d :: a ++ b.
Proof.
  revert d a. induction n as [|d' n IH]; intros d a E Ha.
  - destruct a; discriminate.
  - change (delete_loop (mkNode d (mkNode d' n)) data)
      with (if d' =? data then mkNode d n else mkNode d (delete_loop (mkNode d' n) data)).
    destruct a as [|x a]; simpl in E; injection E as -> E.
    + rewrite Z.eqb_refl. simpl. now rewrite E.
    + simpl in Ha. destruct (Z.eqb_spec x data); [tauto|].
      cbn [print_loop]. rewrite (IH x a) by tauto. reflexivity.
Qed.

Lemma search_loop_In n data : search_loop n data = true <-> In data (print_loop n).
Proof.
  induction n as [|d n IH]; simpl.
  - split; [discriminate|tauto].
  - destruct (Z.eqb_spec d data); [tauto|]. rewrite IH. tauto.
Qed.

Lemma print_reverse_loop prev current :
  print_loop (reverse_loop prev current) = rev (print_loop current) ++ print_loop prev.
Proof.
  revert prev. induction current as [|d n IH]; intros prev; [reflexivity|].
  simpl. rewrite IH. simpl. rewrite <- app_assoc. reflexivity.
Qed.

Lemma len_print n : List.length (print_loop n) = len n.
Proof. induction n; simpl; congruence. Qed.

Lemma findMiddle_loop_spec fuel : forall slow fast,
  (len fast <= fuel)%nat -> (len fast <= len slow)%nat -> (0 < len slow)%nat ->
  findMiddle_loop slow fast = Some (print_loop slow !! (len fast / 2)%nat).
Proof.
  induction fuel as [|fuel IH]; intros slow fast Hfuel Hle Hpos.
  - destruct fast; simpl in Hfuel; [|lia]. destruct slow; simpl in *; [lia|reflexivity].
  - destruct fast as [|d1 [|d2 fast']].
    + destruct slow; simpl in *; [lia|reflexivity].
    + destruct slow; simpl in *; [lia|reflexivity].
    + destruct slow as [|ds slow']; [simpl in Hpos; lia|].
      cbn [findMiddle_loop]. simpl in Hle, Hfuel. rewrite IH by (simpl in *; lia).
      cbn [len]. replace (S (S (len fast'))) with (len fast' + 1 * 2)%nat by lia.
      rewrite Nat.div_add by lia. rewrite Nat.add_1_r. reflexivity.
Qed.

Lemma print_unlink_all chain data :
  print_loop (unlink_all chain data)
  = List.filter (fun x => negb (x =? data)) (print_loop chain).
Proof.
  induction chain as [|d n IH]; [reflexivity|]. simpl.
  destruct (d =? data); simpl; congruence.
Qed.

Lemma filter_sublist {A} (f : A -> bool) (l : list A) : sublist (List.filter f l) l.
Proof.
  induction l as [|x l IH]; simpl; [constructor|].
  destruct (f x); now constructor.
Qed.

Lemma removeDuplicates_loop_spec n :
  List.NoDup (print_loop (removeDuplicates_loop n)) /\
  (forall x, In x (print_loop (removeDuplicates_loop n)) <-> In x (print_loop n)) /\
  sublist (print_loop (removeDuplicates_loop n)) (print_loop n).
Proof.
  funelim (removeDuplicates_loop n); try clear Heqcall.
  - simpl. repeat split; try tauto; constructor.
  - destruct H as (Hnd & Hin & Hsub). simpl.
    assert (Hmem : forall x, In x (print_loop (removeDuplicates_loop (unlink_all next d)))
                     <-> In x (print_loop next) /\ x <> d).
    { intros x. rewrite Hin, print_unlink_all, filter_In.
      destruct (Z.eqb_spec x d); simpl; intuition congruence. }
    split; [|split].
    + constructor; [|exact Hnd]. rewrite Hmem. tauto.
    + intros x. rewrite Hmem. destruct (Z.eq_dec d x); intuition congruence.
    + apply sublist_skip. etransitivity; [exact Hsub|].
      rewrite print_unlink_all. apply filter_sublist.
Qed.

End LinkedListFacts.

(** * Facts about lists of positions *)
Module ListFacts.

Lemma dup_index (l : list nat) :
  ~ NoDup l -> exists i j x, (i < j)%nat /\ l !! i = Some x /\ l !! j = Some x.
Proof.
  induction l as [|x l IH]; intros Hn; [destruct Hn; constructor|].
  destruct (decide (x ∈ l)) as [Hin|Hnin].
  - apply list_elem_of_lookup_1 in Hin as [j Hj]. exists 0%nat, (S j), x.
    repeat split; [lia|exact Hj].
  - destruct IH as (i & j & y & Hij & Hi & Hj).
    + intros Hnd. apply Hn. now constructor.
    + exists (S i), (S j), y. repeat split; [lia|exact Hi|exact Hj].
Qed.

Lemma NoDup_lt_length (L : list nat) (n : nat) :
  NoDup L -> Forall (fun l => (l < n)%nat) L -> (List.length L <= n)%nat.
Proof.
  intros Hnd Hlt. rewrite <- (length_seq n 0).
  apply submseteq_length, NoDup_submseteq; [exact Hnd|].
  intros x Hx. apply elem_of_seq. rewrite Forall_forall in Hlt. specialize (Hlt x Hx). lia.
Qed.

End ListFacts.

(** * Facts about [hasCycle] *)
Module LinkedListHeapFacts.
Import LinkedListHeap.

Lemma walk_S h k p : walk h (S k) p = step h (walk h k p).
Proof. reflexivity. Qed.

Lemma walk_add h a b p : walk h (a + b) p = walk h a (walk h b p).
Proof. unfold walk. apply Nat.iter_add. Qed.

Lemma walk_None h k : walk h k None = None.
Proof. induction k as [|k IH]; [reflexivity|]. now rewrite walk_S, IH. Qed.

Lemma walk_absorb h k k' p : walk h k p = None -> (k <= k')%nat -> walk h k' p = None.
Proof.
  intros H Hle. replace k' with ((k' - k) + k)%nat by lia.
  now rewrite walk_add, H, walk_None.
Qed.

Lemma closed_spec h head :
  closed h head = true ->
  (forall l, head = Some l -> (l < List.length h)%nat) /\
  (forall l n l', h !! l = Some n -> next n = Some l' -> (l' < List.length h)%nat).
Proof.
  unfold closed. rewrite andb_true_iff, forallb_forall. intros [Hhead Hall]. split.
  - intros l ->. now apply Nat.ltb_lt.
  - intros l n l' Hl Hn. apply list_elem_of_lookup_2, list_elem_of_In, Hall in Hl.
    rewrite Hn in Hl. now apply Nat.ltb_lt.
Qed.

Lemma walk_range h head k l :
  closed h head = true -> walk h k head = Some l -> (l < List.length h)%nat.
Proof.
  intros Hc. destruct (closed_spec _ _ Hc) as [Hhead Hnext].
  destruct k as [|k]; [apply Hhead|].
  rewrite walk_S. unfold step. destruct (walk h k head) as [l0|]; [|discriminate].
  simpl. destruct (h !! l0) as [n|] eqn:Hn; [|discriminate]. simpl. eauto.
Qed.

Lemma get_next_walk h head k l :
  closed h head = true -> walk h k head = Some l ->
  get_next h (walk h k head) = Some (walk h (S k) head).
Proof.
  intros Hc Hk. rewrite walk_S, Hk. unfold get_next, step. simpl.
  destruct (lookup_lt_is_Some_2 h l (walk_range _ _ _ _ Hc Hk)) as [n ->]. reflexivity.
Qed.

(** From the index [a] on the walk repeats itself every [p] steps. *)
Lemma walk_period h head a p m x :
  walk h a head = walk h (a + p) head -> (a <= x)%nat ->
  walk h (x + m * p) head = walk h x head.
Proof.
  intros Hp Hx. induction m as [|m IH]; [now rewrite Nat.add_0_r|].
  replace (x + S m * p)%nat with ((x + m * p - a) + (a + p))%nat by lia.
  rewrite walk_add, <- Hp, <- walk_add.
  replace (x + m * p - a + a)%nat with (x + m * p)%nat by lia. exact IH.
Qed.

Lemma walk_cyclic h head a p :
  (1 <= p)%nat -> walk h a head = walk h (a + p) head -> walk h a head <> None ->
  forall k, walk h k head <> None.
Proof.
  intros Hp Hper Hne k Hk. apply Hne.
  rewrite <- (walk_period h head a p k a Hper (le_n _)).
  eapply walk_absorb; [exact Hk|]. nia.
Qed.

(** Among the first [N + 1] values of a sequence of positions below [N],
    one is [null] or two are the same. *)
Lemma pigeonhole (N : nat) (g : nat -> option nat) :
  (forall k l, g k = Some l -> (l < N)%nat) ->
  (exists k, (k <= N)%nat /\ g k = None) \/
  (exists a b, (a < b)%nat /\ (b <= N)%nat /\ g a = g b).
Proof.
  intros Hg.
  destruct (decide (Exists (fun k => g k = None) (seq 0 (S N)))) as [He|He].
  - left. apply Exists_exists in He as (k & Hk & Hnone). apply elem_of_seq in Hk.
    exists k. split; [lia|exact Hnone].
  - right. apply not_Exists_Forall in He; [|intros k; apply _].
    rewrite Forall_forall in He.
    set (L := (fun k => default 0%nat (g k)) <$> seq 0 (S N)).
    assert (HL : forall i x, L !! i = Some x -> (i <= N)%nat /\ g i = Some x).
    { intros i x Hi. unfold L in Hi. rewrite list_lookup_fmap in Hi.
      destruct (seq 0 (S N) !! i) as [k|] eqn:Hk; [|discriminate].
      apply lookup_seq in Hk as [-> Hlt]. simpl in Hi. injection Hi as <-.
      split; [lia|]. specialize (He i ltac:(apply elem_of_seq; lia)). simpl in He.
      destruct (g i); [reflexivity|contradiction]. }
    destruct (decide (NoDup L)) as [Hnd|Hnd].
    + exfalso. assert (Hlen : (List.length L <= N)%nat).
      { apply ListFacts.NoDup_lt_length; [exact Hnd|]. apply Forall_lookup. intros i x Hi.
        destruct (HL i x Hi) as [_ Hgi]. eauto. }
      unfold L in Hlen. rewrite length_fmap, length_seq in Hlen. lia.
    + destruct (ListFacts.dup_index L Hnd) as (i & j & x & Hij & Hi & Hj).
      destruct (HL i x Hi) as [_ Hgi]. destruct (HL j x Hj) as [HjN Hgj].
      exists i, j. repeat split; [exact Hij|exact HjN|congruence].
Qed.

(** The loop from its round [i] on, when some round [j] of the next [fuel]
    ones ends it. *)
Lemma hasCycle_loop_run h head : closed h head = true -> forall fuel i,
  (exists j, (i <= j < i + fuel)%nat /\
     (walk h (2 * j) head = None \/ walk h (2 * j + 1) head = None \/
      walk h (j + 1) head = walk h (2 * j + 2) head)) ->
  exists b, hasCycle_loop fuel h (walk h i head) (walk h (2 * i) head) = Return b /\
    (b = true -> forall k, walk h k head <> None) /\
    (b = false -> exists k, walk h k head = None).
Proof.
  intros Hc. induction fuel as [|fuel IH]; intros i (j & Hj & HE); [lia|].
  cbn [hasCycle_loop].
  destruct (walk h (2 * i) head) as [f|] eqn:Hf.
  2: { exists false. split; [reflexivity|]. split; [discriminate|]. eauto. }
  rewrite <- Hf, (get_next_walk h head _ f Hc Hf).
  destruct (walk h (S (2 * i)) head) as [f1|] eqn:Hf1.
  2: { exists false. split; [reflexivity|]. split; [discriminate|]. eauto. }
  destruct (walk h i head) as [s|] eqn:Hs.
  2: { rewrite (walk_absorb h i (2 * i) head Hs) in Hf by lia. discriminate. }
  rewrite <- Hs, (get_next_walk h head _ s Hc Hs).
  rewrite <- Hf1, (get_next_walk h head _ f1 Hc Hf1).
  destruct (decide (walk h (S i) head = walk h (S (S (2 * i))) head)) as [Heq|Hne].
  - exists true. split; [reflexivity|]. split; [|discriminate]. intros _.
    apply (walk_cyclic h head (S i) (S i)); [lia| |].
    + rewrite Heq. f_equal. lia.
    + intros Hn. rewrite (walk_absorb h (S i) (S (2 * i)) head Hn) in Hf1 by lia.
      discriminate.
  - replace (S (S (2 * i))) with (2 * S i)%nat in * by lia.
    apply IH. exists j. split; [|exact HE].
    destruct (decide (j = i)) as [->|]; [|lia]. exfalso.
    destruct HE as [HE|[HE|HE]].
    + congruence.
    + replace (2 * i + 1)%nat with (S (2 * i)) in HE by lia. congruence.
    + apply Hne. replace (S i) with (i + 1)%nat by lia.
      replace (2 * (i + 1))%nat with (2 * i + 2)%nat by lia. exact HE.
Qed.

Lemma hasCycle_spec h head :
  closed h head = true ->
  exists b, hasCycle h head = Return b /\
    (b = true -> forall k, walk h k head <> None) /\
    (b = false -> exists k, walk h k head = None).
Proof.
  intros Hc. unfold hasCycle. destruct head as [l|].
  2: { exists false. split; [reflexivity|]. split; [discriminate|]. now exists 0%nat. }
  apply (hasCycle_loop_run h (Some l) Hc (S (List.length h)) 0).
  destruct (pigeonhole (List.length h) (fun k => walk h k (Some l)))
    as [(k & Hk & Hnone)|(a & b & Hab & Hb & Heq)].
  { intros k x. apply walk_range, Hc. }
  - exists (k / 2)%nat. pose proof (Nat.div_mod_eq k 2) as Hdm.
    pose proof (Nat.mod_upper_bound k 2 ltac:(lia)) as Hm. split; [lia|].
    destruct (decide (k mod 2 = 0)%nat) as [E|E].
    + left. replace (2 * (k / 2))%nat with k by lia. exact Hnone.
    + right. left. replace (2 * (k / 2) + 1)%nat with k by lia. exact Hnone.
  - set (p := (b - a)%nat). set (m := (a / p + 1)%nat).
    assert (Hp : (1 <= p)%nat) by (unfold p; lia).
    pose proof (Nat.div_mod_eq a p) as Hdm.
    pose proof (Nat.mod_upper_bound a p ltac:(lia)) as Hm.
    assert (Hmp : (a < m * p /\ m * p <= b)%nat) by (unfold m, p in *; nia).
    exists (m * p - 1)%nat. split; [lia|]. right. right.
    replace (m * p - 1 + 1)%nat with (m * p)%nat by lia.
    replace (2 * (m * p - 1) + 2)%nat with (m * p + m * p)%nat by lia.
    symmetry. apply (walk_period h (Some l) a p); [|lia].
    rewrite Heq. f_equal. unfold p. lia.
Qed.

End LinkedListHeapFacts.

(** * Further facts about the B+tree *)
Module BPlusMore.
Import BPlus BPlusFacts BPlusExt.
Local Open Scope Z_scope.

(** *** The leaf case of [_insertNonFull] *)

Lemma js_set_middle {A} (hole : A) (p q : list A) g x m :
  List.length p = m -> js_set hole m x (p ++ g :: q) = p ++ x :: q.
Proof.
  intros <-. unfold js_set. rewrite length_app. simpl.
  destruct (Nat.ltb_spec (List.length p) (List.length p + S (List.length q))); [|lia].
  rewrite insert_app_r_alt by lia. now rewrite Nat.sub_diag.
Qed.

(** The shifting loop moves the free slot down past every key greater than
    the new one. *)
Lemma leafShift_spec k (pre : list Z) : forall post g (cpre cpost : list pointer) cg,
  List.length cpre = List.length pre ->
  exists a b ca cb g' cg',
    pre = a ++ b /\ cpre = ca ++ cb /\ List.length ca = List.length a /\
    Forall (fun y => k < y) b /\
    (forall y, last a = Some y -> y <= k) /\
    leafShift (List.length pre) k (pre ++ g :: post) (cpre ++ cg :: cpost)
    = (List.length a, a ++ g' :: b ++ post, ca ++ cg' :: cb ++ cpost).
Proof.
  induction pre as [|x pre IH] using rev_ind; intros post g cpre cpost cg Hlen.
  - destruct cpre; [|discriminate]. exists [], [], [], [], g, cg. simpl.
    repeat split; auto. discriminate.
  - induction cpre as [|cx cpre' _] using rev_ind.
    { rewrite length_app in Hlen. simpl in Hlen. lia. }
    rewrite !length_app in Hlen. simpl in Hlen.
    assert (Hlen' : List.length cpre' = List.length pre) by lia.
    rewrite length_app, Nat.add_1_r. cbn [leafShift].
    rewrite <- !app_assoc. simpl.
    rewrite (lookup_app_r pre) by lia. rewrite Nat.sub_diag. simpl.
    destruct (Z.ltb_spec k x) as [Hkx|Hkx].
    + rewrite (lookup_app_r cpre') by lia. rewrite Hlen', Nat.sub_diag. simpl.
      change (pre ++ x :: g :: post) with (pre ++ [x] ++ g :: post).
      change (cpre' ++ cx :: cg :: cpost) with (cpre' ++ [cx] ++ cg :: cpost).
      rewrite !app_assoc.
      rewrite (js_set_middle 0 (pre ++ [x]) post g x)
        by (rewrite length_app; simpl; lia).
      rewrite (js_set_middle PNull (cpre' ++ [cx]) cpost cg cx)
        by (rewrite length_app; simpl; lia).
      rewrite <- !app_assoc. simpl.
      destruct (IH (x :: post) x cpre' (cx :: cpost) cx Hlen')
        as (a & b & ca & cb & g' & cg' & -> & -> & Hca & Hb & Ha & ->).
      exists a, (b ++ [x]), ca, (cb ++ [cx]), g', cg'.
      rewrite <- !app_assoc. simpl. repeat split; auto.
      rewrite Forall_app, Forall_singleton. auto.
    + exists (pre ++ [x]), [], (cpre' ++ [cx]), [], g, cg.
      rewrite !app_nil_r, !length_app, <- !app_assoc. simpl.
      repeat split; auto; try lia.
      * intros y. rewrite last_snoc. intros [= <-]. lia.
      * now rewrite Nat.add_1_r.
Qed.

(** Lines 140-149 put the new pair behind the keys that are not greater and
    before the keys that are greater; the two arrays stay parallel. *)
Lemma leafInsert_split k v n :
  List.length (childPointers n) = List.length (keys n) ->
  exists a b ca cb,
    keys n = a ++ b /\ childPointers n = ca ++ cb /\
    List.length ca = List.length a /\
    Forall (fun y => k < y) b /\ (forall y, last a = Some y -> y <= k) /\
    leafInsert k v n
    = mkBNode (a ++ k :: b) (ca ++ PData v :: cb) (isLeaf n) (nextLeaf n).
Proof.
  intros Hlen. unfold leafInsert.
  destruct (leafShift_spec k (keys n) [] 0 (childPointers n) [] PNull Hlen)
    as (a & b & ca & cb & g' & cg' & Ea & Eca & Hca & Hb & Ha & E).
  rewrite E. exists a, b, ca, cb. rewrite !app_nil_r.
  rewrite js_set_middle by reflexivity. rewrite js_set_middle by exact Hca.
  repeat split; auto.
Qed.

(** *** What [rangeQuery] and [search] can return *)

Lemma scanLeaf_sound (h : store) l n lo hi : forall ks i res,
  h !! l = Some n ->
  (forall j x, ks !! j = Some x -> keys n !! (i + j)%nat = Some x) ->
  Forall (in_range lo hi h) res ->
  Forall (in_range lo hi h) (fst (scanLeaf ks i (childPointers n) lo hi res)).
Proof.
  induction ks as [|x ks IH]; intros i res Hl Hks Hres; [exact Hres|].
  cbn [scanLeaf].
  assert (Hres' : Forall (in_range lo hi h)
            (if (lo <=? x) && (x <=? hi)
             then res ++ [(x, default PNull (childPointers n !! i))] else res)).
  { destruct (Z.leb_spec lo x), (Z.leb_spec x hi); simpl; auto.
    rewrite Forall_app, Forall_singleton. split; [exact Hres|].
    split; [simpl; lia|]. exists l, n, i. simpl. split; [exact Hl|]. split; [|reflexivity].
    specialize (Hks 0%nat x eq_refl). now rewrite Nat.add_0_r in Hks. }
  destruct (hi <? x); [exact Hres'|].
  apply IH; auto. intros j y Hj. specialize (Hks (S j) y Hj).
  now rewrite Nat.add_succ_r in Hks.
Qed.

Lemma walkLeaves_sound fuel : forall leafNode lo hi res (h h' : store) out,
  walkLeaves fuel leafNode lo hi res h = (h', Done out) ->
  Forall (in_range lo hi h) res ->
  h' = h /\ Forall (in_range lo hi h) out.
Proof.
  induction fuel as [|fuel IH]; intros leafNode lo hi res h h' out; [discriminate|].
  cbn [walkLeaves]. destruct leafNode as [l|]; [|intros [= <- <-]; auto].
  unfold bind at 1, read. destruct (h !! l) as [n|] eqn:Hl; [|discriminate].
  pose proof (scanLeaf_sound h l n lo hi (keys n) 0 res Hl) as Hscan.
  destruct (scanLeaf (keys n) 0 (childPointers n) lo hi res) as [res' returned].
  simpl in Hscan. intros Hrun Hres.
  specialize (Hscan ltac:(intros j x Hj; exact Hj) Hres).
  destruct returned.
  - injection Hrun as <- <-. auto.
  - eapply IH; eauto.
Qed.

Lemma findLeafNode_store fuel : forall cur k (h h' : store) o,
  _findLeafNode fuel cur k h = (h', o) -> h' = h.
Proof.
  induction fuel as [|fuel IH]; intros cur k h h' o; [intros [= <- _]; reflexivity|].
  cbn [_findLeafNode]. destruct cur as [[c| |]|]; try (intros [= <- _]; reflexivity).
  rewrite bind_as_node. unfold bind, read.
  destruct (h !! c) as [n|]; [|intros [= <- _]; reflexivity].
  destruct (isLeaf n); [intros [= <- _]; reflexivity|]. apply IH.
Qed.

Lemma rangeQuery_sound this lo hi out :
  rangeQuery this lo hi = Done out -> Forall (in_range lo hi (nodes this)) out.
Proof.
  unfold rangeQuery, bind.
  destruct (_findLeafNode _ _ _ _) as [h' [leaf| | |]] eqn:Ef; cbn [snd];
    try discriminate.
  apply findLeafNode_store in Ef. subst h'.
  destruct (walkLeaves _ _ _ _ _ _) as [h'' o] eqn:Ew. cbn [snd]. intros ->.
  eapply walkLeaves_sound in Ew; [|constructor]. tauto.
Qed.

Lemma recursiveSearch_sound fuel : forall cur k (h h' : store) v,
  _recursiveSearch fuel cur k h = (h', Done (PData v)) ->
  exists l n i, h !! l = Some n /\ isLeaf n = true /\
                keys n !! i = Some k /\ childPointers n !! i = Some (PData v).
Proof.
  induction fuel as [|fuel IH]; intros cur k h h' v; [discriminate|].
  cbn [_recursiveSearch]. destruct cur as [[c| |]|]; try discriminate.
  rewrite bind_as_node. unfold bind, read.
  destruct (h !! c) as [n|] eqn:Hc; [|discriminate].
  destruct (isLeaf n) eqn:Hleaf; [|apply IH].
  destruct (keys n !! scanUp (keys n) k) as [x|] eqn:Hx; [|discriminate].
  destruct (Z.eqb_spec x k) as [->|]; [|discriminate].
  unfold ret. intros [= _ Hv]. exists c, n, (scanUp (keys n) k).
  repeat split; auto.
  destruct (childPointers n !! scanUp (keys n) k) as [p|]; simpl in Hv; congruence.
Qed.

(** *** Typing, stored pairs and the leaf chain *)

Lemma flat_map_insert {A B} (f : A -> list B) (h : list A) i x y :
  h !! i = Some x ->
  exists a b, flat_map f h = a ++ f x ++ b /\ flat_map f (<[i := y]> h) = a ++ f y ++ b.
Proof.
  intros Hi. exists (flat_map f (take i h)), (flat_map f (drop (S i) h)). split.
  - rewrite <- (take_drop_middle h i x Hi) at 1. now rewrite flat_map_app.
  - rewrite insert_take_drop by (eapply lookup_lt_Some; eauto). now rewrite flat_map_app.
Qed.

Lemma entries_insert_internal (h : store) i x y :
  h !! i = Some x -> isLeaf x = false -> isLeaf y = false ->
  entries (<[i := y]> h) = entries h.
Proof.
  intros Hi Hx Hy. destruct (flat_map_insert leaf_entries h i x y Hi) as (a & b & E1 & E2).
  unfold entries. rewrite E1, E2. unfold leaf_entries. now rewrite Hx, Hy.
Qed.

Lemma chain_ext (h h' : store) f L :
  chain h f L ->
  (forall l n, l ∈ L -> h !! l = Some n ->
               exists n', h' !! l = Some n' /\ nextLeaf n' = nextLeaf n) ->
  chain h' f L.
Proof.
  induction 1 as [|l n ls Hl _ IH]; intros Hagree; [constructor|].
  destruct (Hagree l n) as (n' & Hn' & Hnext); [left|exact Hl|].
  econstructor; [exact Hn'|]. rewrite Hnext. apply IH.
  intros l0 n0 H0. apply Hagree. now right.
Qed.

Lemma chain_lookup (h : store) f L l :
  chain h f L -> l ∈ L -> is_Some (h !! l).
Proof.
  induction 1 as [|l0 n ls Hl _ IH]; intros Hin.
  - inversion Hin.
  - apply elem_of_cons in Hin as [->|Hin]; eauto.
Qed.

Lemma chain_split (h h' : store) f L c C new :
  chain h f L -> NoDup L -> h !! c = Some C ->
  (exists C', h' !! c = Some C' /\ nextLeaf C' = Some new) ->
  (exists N, h' !! new = Some N /\ nextLeaf N = nextLeaf C) ->
  (forall l, l ∈ L -> l <> c -> h' !! l = h !! l) ->
  chain h' f (ins_after c new L).
Proof.
  intros Hch Hnd Hc (C' & HC' & HC'n) (N & HN & HNn) Hother.
  induction Hch as [|l n ls Hl Hrest IH]; [constructor|].
  apply NoDup_cons in Hnd as [Hnotin Hnd]. cbn [ins_after].
  destruct (Nat.eqb_spec l c) as [->|Hlc].
  - replace n with C in * by congruence.
    econstructor; [exact HC'|]. rewrite HC'n.
    econstructor; [exact HN|]. rewrite HNn.
    eapply chain_ext; [exact Hrest|]. intros l0 n0 H0 Hl0. exists n0. split; [|reflexivity].
    rewrite Hother; [exact Hl0|now right|]. intros ->. contradiction.
  - econstructor.
    + rewrite Hother; [exact Hl|now left|exact Hlc].
    + apply IH; [exact Hnd|]. intros l0 H0. apply Hother. now right.
Qed.

Lemma elem_of_ins_after c new L x :
  x ∈ ins_after c new L <-> x ∈ L \/ (x = new /\ c ∈ L).
Proof.
  induction L as [|l ls IH]; cbn [ins_after].
  - rewrite !elem_of_nil. tauto.
  - destruct (Nat.eqb_spec l c) as [->|Hlc]; rewrite !elem_of_cons, ?IH; [tauto|].
    intuition congruence.
Qed.

Lemma NoDup_ins_after c new L :
  NoDup L -> new ∉ L -> NoDup (ins_after c new L).
Proof.
  induction 1 as [|l ls Hl Hnd IH]; intros Hnew; cbn [ins_after]; [constructor|].
  rewrite not_elem_of_cons in Hnew. destruct Hnew as [Hne Hnew].
  destruct (Nat.eqb_spec l c) as [->|Hlc].
  - constructor; [|constructor; auto]. rewrite elem_of_cons. intuition.
  - constructor; [|auto]. rewrite elem_of_ins_after. intuition.
Qed.

Lemma splice_start_same {A B} (a : list A) (b : list B) s :
  List.length a = List.length b ->
  splice_start (List.length a) s = splice_start (List.length b) s.
Proof. now intros ->. Qed.

Lemma zip_take_drop {A B} (a : list A) (b : list B) n :
  zip (take n a) (take n b) ++ zip (drop n a) (drop n b) = zip a b.
Proof. rewrite <- zip_with_take, <- zip_with_drop. apply take_drop. Qed.

(** What [_splitChild] does to the typing of nodes, to the stored pairs and
    to the leaf chain. *)
Lemma split_ext t (h h' : store) p i P c C :
  h !! p = Some P -> isLeaf P = false ->
  childPointers P !! i = Some (PNode c) -> h !! c = Some C -> p <> c ->
  0 <= t - 1 < Z.of_nat (List.length (keys C)) ->
  _splitChild t p i h = (h', Done tt) ->
  ext_inv h -> ext_inv h' /\ entries h' ≡ₚ entries h.
Proof.
  intros Hp HPl Hi Hc Hne Ht Hrun [Hty Hlk].
  assert (Hmed : exists median, js_get (keys C) (t - 1) = Some median).
  { unfold js_get. destruct (Z.ltb_spec (t - 1) 0); [lia|].
    apply lookup_lt_is_Some_2. lia. }
  destruct Hmed as [median Hmed].
  destruct (splitChild_run t h p i P c C median Hp Hi Hc Hne Hmed)
    as (h'' & Hrun' & Hlen & Hp' & Hc' & Hn' & Hother).
  rewrite Hrun in Hrun'. injection Hrun' as <-.
  set (new := List.length h) in *.
  pose proof (lookup_lt_Some _ _ _ Hp) as Hpl.
  pose proof (lookup_lt_Some _ _ _ Hc) as Hcl. fold new in Hpl, Hcl.
  pose proof (proj1 (Forall_lookup _ _) Hty) as Hty'.
  pose proof (Hty' _ _ Hp) as TP. pose proof (Hty' _ _ Hc) as TC.
  unfold node_typed in TP, TC. rewrite HPl in TP.
  match type of Hp' with _ = Some ?x => set (P' := x) in * end.
  match type of Hc' with _ = Some ?x => set (C' := x) in * end.
  match type of Hn' with _ = Some ?x => set (N' := x) in * end.
  assert (Hshape : h' = <[p := P']> (<[c := C']> (h ++ [N']))).
  { apply list_eq. intros l.
    destruct (decide (l = p)) as [->|Hlp].
    { rewrite Hp'. symmetry. apply list_lookup_insert_eq.
      rewrite length_insert, length_app. simpl. lia. }
    rewrite list_lookup_insert_ne by congruence.
    destruct (decide (l = c)) as [->|Hlc].
    { rewrite Hc'. symmetry. apply list_lookup_insert_eq. rewrite length_app. simpl. lia. }
    rewrite list_lookup_insert_ne by congruence.
    destruct (decide (l = new)) as [->|Hln].
    { rewrite Hn'. rewrite lookup_app_r by (fold new; lia). fold new.
      now rewrite Nat.sub_diag. }
    rewrite Hother by assumption.
    destruct (decide (l < new)%nat); [now rewrite lookup_app_l|].
    rewrite (lookup_ge_None_2 h) by (fold new; lia). symmetry.
    apply lookup_ge_None_2. rewrite length_app. simpl. fold new. lia. }
  assert (HtyP : node_typed P').
  { unfold node_typed, P'. fields. rewrite HPl. unfold splice_insert.
    rewrite Forall_app, Forall_cons. repeat split.
    - now apply Forall_take.
    - now apply Forall_drop. }
  assert (HtyCN : node_typed C' /\ node_typed N' /\
                  leaf_entries C = leaf_entries C' ++ leaf_entries N').
  { unfold node_typed, leaf_entries, C', N'. fields. destruct (isLeaf C) eqn:HCl.
    - destruct TC as (TCl & TCd & TCs). unfold splice_from. cbn [fst snd].
      rewrite <- (splice_start_same _ _ (t - 1) TCl).
      rewrite zip_take_drop. repeat split.
      + rewrite !length_take. lia.
      + now apply Forall_take.
      + eapply StronglySorted_app_1_l. rewrite take_drop. exact TCs.
      + rewrite !length_drop. lia.
      + now apply Forall_drop.
      + eapply StronglySorted_app_1_r. rewrite take_drop. exact TCs.
    - unfold splice_from. cbn [fst snd]. repeat split.
      + now apply Forall_take.
      + now apply Forall_drop. }
  destruct HtyCN as (HtyC & HtyN & Hle).
  split; [split|].
  - (* typing *)
    rewrite Hshape. apply Forall_insert; [|exact HtyP].
    apply Forall_insert; [|exact HtyC]. apply Forall_app. split; [exact Hty|].
    now apply Forall_singleton.
  - (* leaf chain *)
    intros _. destruct Hlk as (L & Hch & Hnd & Hcov).
    { intros ->. discriminate. }
    assert (HnewL : new ∉ L).
    { intros Hin. destruct (chain_lookup _ _ _ _ Hch Hin) as [n Hn].
      apply lookup_lt_Some in Hn. fold new in Hn. lia. }
    assert (HpL : p ∉ L).
    { intros Hin. apply Hcov in Hin as (n & Hn & Hnl). congruence. }
    destruct (isLeaf C) eqn:HCl.
    + assert (HcL : c ∈ L) by (apply Hcov; exists C; auto).
      exists (ins_after c new L). split; [|split].
      * apply (chain_split h h' _ L c C new Hch Hnd Hc).
        -- exists C'. split; [exact Hc'|]. unfold C'. now fields.
        -- exists N'. split; [exact Hn'|]. unfold N'. now fields.
        -- intros l Hl Hlc. apply Hother; congruence.
      * now apply NoDup_ins_after.
      * intros l. rewrite elem_of_ins_after, Hcov. unfold leaf_at.
        destruct (decide (l = p)) as [->|Hlp].
        { rewrite Hp', Hp. split.
          - intros [(n & [= <-] & Hn)|[-> _]]; [congruence|lia].
          - intros (n & [= <-] & Hn). unfold P' in Hn. simpl in Hn. congruence. }
        destruct (decide (l = c)) as [->|Hlc].
        { rewrite Hc', Hc. split.
          - intros _. exists C'. split; [reflexivity|]. unfold C'. now fields.
          - intros _. left. eauto. }
        destruct (decide (l = new)) as [->|Hln].
        { rewrite Hn'. split.
          - intros _. exists N'. split; [reflexivity|]. unfold N'. now fields.
          - intros _. right. auto. }
        rewrite Hother by assumption. intuition.
    + exists L. split; [|split; [exact Hnd|]].
      * eapply chain_ext; [exact Hch|]. intros l n Hl Hn. exists n. split; [|reflexivity].
        rewrite Hother; [exact Hn|congruence| |congruence].
        intros ->. apply Hcov in Hl as (n' & Hn'' & Hnl). congruence.
      * intros l. rewrite Hcov. unfold leaf_at.
        destruct (decide (l = p)) as [->|Hlp].
        { rewrite Hp', Hp. split; intros (n & [= <-] & Hn); [congruence|].
          unfold P' in Hn. simpl in Hn. congruence. }
        destruct (decide (l = c)) as [->|Hlc].
        { rewrite Hc', Hc. split; intros (n & [= <-] & Hn); [congruence|].
          unfold C' in Hn. simpl in Hn. congruence. }
        destruct (decide (l = new)) as [->|Hln].
        { rewrite Hn', (lookup_ge_None_2 h new) by (fold new; lia).
          split; [intros (n & [=] & _)|]. intros (n & [= <-] & Hn).
          unfold N' in Hn. simpl in Hn. congruence. }
        now rewrite Hother by assumption.
  - (* stored pairs *)
    rewrite Hshape.
    assert (Hc1 : (h ++ [N']) !! c = Some C) by (apply lookup_app_l_Some; exact Hc).
    assert (Hp1 : <[c := C']> (h ++ [N']) !! p = Some P).
    { rewrite list_lookup_insert_ne by congruence. apply lookup_app_l_Some; exact Hp. }
    rewrite (entries_insert_internal _ _ P P' Hp1 HPl HPl).
    destruct (flat_map_insert leaf_entries _ c C C' Hc1) as (a & b & E1 & E2).
    unfold entries at 1. rewrite E2.
    apply (Permutation_app_inv_r (leaf_entries N')).
    transitivity (flat_map leaf_entries (h ++ [N'])).
    + rewrite E1, Hle. rewrite <- !(assoc_L (++)).
      apply Permutation_app_head. apply Permutation_app_head. apply Permutation_app_comm.
    + rewrite flat_map_app. simpl. now rewrite app_nil_r.
Qed.

Lemma sorted_insert (a b : list Z) k :
  StronglySorted Z.le (a ++ b) -> Forall (fun y => k < y) b ->
  (forall y, last a = Some y -> y <= k) ->
  StronglySorted Z.le (a ++ k :: b).
Proof.
  intros Hs Hb Ha. destruct (TreapFacts.sorted_le_app _ _ Hs) as [Hsa Hsb].
  apply TreapFacts.sorted_le_app_cons. repeat split; auto.
  - destruct a as [|x a' _] using rev_ind; [constructor|].
    rewrite last_snoc in Ha. specialize (Ha x eq_refl).
    apply Forall_app. split; [|constructor; [exact Ha|constructor]].
    rewrite <- (assoc_L (++)) in Hs. simpl in Hs.
    apply TreapFacts.sorted_le_app_cons in Hsa as (_ & _ & Hle & _).
    eapply Forall_impl; [exact Hle|]. simpl. intros; lia.
  - eapply Forall_impl; [exact Hb|]. simpl. intros; lia.
Qed.

(** What the leaf case of [_insertNonFull] does. *)
Lemma leaf_ext (h : store) cur n k v :
  h !! cur = Some n -> isLeaf n = true -> ext_inv h ->
  ext_inv (<[cur := leafInsert k v n]> h) /\
  entries (<[cur := leafInsert k v n]> h) ≡ₚ (k, PData v) :: entries h.
Proof.
  intros Hcur Hleaf [Hty Hlk].
  pose proof (proj1 (Forall_lookup _ _) Hty _ _ Hcur) as Tn.
  unfold node_typed in Tn. rewrite Hleaf in Tn. destruct Tn as (Tl & Td & Ts).
  destruct (leafInsert_split k v n Tl) as (a & b & ca & cb & Ek & Ec & Hl & Hb & Ha & E).
  rewrite E. set (n' := mkBNode _ _ _ _).
  assert (Hlb : List.length cb = List.length b).
  { rewrite Ek, Ec, !length_app in Tl. lia. }
  split; [split|].
  - apply Forall_insert; [exact Hty|]. unfold node_typed, n'. fields. rewrite Hleaf.
    rewrite Ec in Td. apply Forall_app in Td as [Ta Tb]. split; [|split].
    + rewrite !length_app. simpl. lia.
    + apply Forall_app. split; [exact Ta|]. constructor; [exact I|exact Tb].
    + rewrite Ek in Ts. now apply sorted_insert.
  - intros _. destruct Hlk as (L & Hch & Hnd & Hcov).
    { intros ->. discriminate. }
    exists L. split; [|split; [exact Hnd|]].
    + eapply chain_ext; [exact Hch|]. intros l n0 _ Hn0.
      destruct (decide (l = cur)) as [->|Hne].
      * exists n'. split; [apply list_lookup_insert_eq; eapply lookup_lt_Some; eauto|].
        unfold n'. simpl. congruence.
      * exists n0. now rewrite list_lookup_insert_ne by congruence.
    + intros l. rewrite Hcov. unfold leaf_at.
      destruct (decide (l = cur)) as [->|Hne].
      * rewrite list_lookup_insert_eq by (eapply lookup_lt_Some; eauto). rewrite Hcur.
        split; intros _; eauto.
      * now rewrite list_lookup_insert_ne by congruence.
  - destruct (flat_map_insert leaf_entries h cur n n' Hcur) as (x & y & E1 & E2).
    unfold entries. rewrite E1, E2. unfold leaf_entries, n'. fields. rewrite Hleaf, Ek, Ec.
    rewrite !zip_with_app by congruence. simpl.
    rewrite <- !(assoc_L (++)). simpl.
    symmetry. rewrite Permutation_middle. apply Permutation_app_head.
    apply Permutation_middle.
Qed.

(** What the allocation of a new root does. *)
Lemma new_root_ext (h : store) r :
  h <> [] -> ext_inv h ->
  ext_inv (h ++ [mkBNode [] [PNode r] false None]) /\
  entries (h ++ [mkBNode [] [PNode r] false None]) = entries h.
Proof.
  intros Hne [Hty Hlk]. split; [split|].
  - apply Forall_app. split; [exact Hty|]. apply Forall_singleton.
    unfold node_typed. simpl. repeat constructor.
  - intros _. destruct (Hlk Hne) as (L & Hch & Hnd & Hcov).
    exists L. split; [|split; [exact Hnd|]].
    + eapply chain_ext; [exact Hch|]. intros l n _ Hn. exists n. split; [|reflexivity].
      now apply lookup_app_l_Some.
    + intros l. rewrite Hcov. unfold leaf_at. split; intros (n & Hn & Hl).
      * exists n. split; [now apply lookup_app_l_Some|exact Hl].
      * exists n. split; [|exact Hl]. apply lookup_app_Some in Hn as [Hn|[_ Hn]]; [exact Hn|].
        apply list_lookup_singleton_Some in Hn as [_ <-]. discriminate.
  - unfold entries. rewrite flat_map_app. simpl. now rewrite app_nil_r.
Qed.

Section More.
Variable t : Z.
Hypothesis Ht : 2 <= t.

Lemma new_root_wf (h : store) lvl r R :
  store_wf t h lvl r -> h !! r = Some R ->
  Z.of_nat (List.length (keys R)) = 2 * t - 1 ->
  store_wf t (h ++ [mkBNode [] [PNode r] false None])
    (fun l => if (l =? List.length h)%nat then S (lvl r) else lvl l) (List.length h).
Proof.
  intros Hwf HR Hfull. pose proof (proj2 Hwf _ _ HR) as WR. pose proof (proj1 Hwf) as Hr.
  set (new := List.length h). set (N := mkBNode [] [PNode r] false None).
  set (lvl2 := fun l => if (l =? new)%nat then S (lvl r) else lvl l).
  assert (Hl2 : List.length (h ++ [N]) = S new) by (rewrite length_app; simpl; lia).
  split; [lia|]. intros l n Hl.
  apply lookup_app_Some in Hl as [Hl|[Hge Hl]].
  - pose proof (proj2 Hwf _ _ Hl) as [H1 H2 H3 H4 H5].
    pose proof (lookup_lt_Some _ _ _ Hl) as Hll. fold new in Hll.
    assert (El : lvl2 l = lvl l).
    { unfold lvl2. destruct (Nat.eqb_spec l new); [lia|reflexivity]. }
    constructor; rewrite ?El, ?Hl2; auto; try lia.
    + intros _. destruct (decide (l = r)) as [->|Hlr]; [|apply H2; exact Hlr].
      replace n with R by congruence. lia.
    + intros Hleaf q Hq. destruct (H4 Hleaf q Hq) as (c & -> & Hc & Hlv & Hcr).
      fold new in Hc. exists c. unfold lvl2.
      destruct (Nat.eqb_spec c new); [lia|]. repeat split; auto; lia.
  - apply list_lookup_singleton_Some in Hl as [Hl <-]. fold new in Hge, Hl.
    replace l with new by lia.
    unfold N. constructor; fields; rewrite ?Hl2; simpl List.length; try lia; try congruence.
    + intros _ q Hq. apply list_elem_of_singleton in Hq as ->. exists r.
      unfold lvl2. rewrite Nat.eqb_refl.
      destruct (Nat.eqb_spec r new); [lia|].
      repeat split; auto; rewrite ?length_app; simpl; lia.
    + unfold lvl2. rewrite Nat.eqb_refl. pose proof (wf_lvl _ _ _ _ _ _ WR) as Hlv.
      fold new in Hlv. rewrite ?length_app. simpl. lia.
Qed.

Lemma insertNonFull_ext k v fuel : forall (h : store) lvl r cur n,
  store_wf t h lvl r -> h !! cur = Some n ->
  Z.of_nat (List.length (keys n)) < 2 * t - 1 -> (lvl cur < fuel)%nat ->
  ext_inv h ->
  forall h' o, _insertNonFull fuel t (2 * t - 1) (Some (PNode cur)) k v h = (h', o) ->
  ext_inv h' /\ entries h' ≡ₚ grown k v (entries h) o.
Proof.
  induction fuel as [|fuel IH]; intros h lvl r cur n Hwf Hcur Hn Hfuel Hext h' o; [lia|].
  cbn [_insertNonFull]. rewrite bind_as_node, (bind_read _ _ _ _ Hcur).
  pose proof (proj2 Hwf _ _ Hcur) as W.
  destruct (isLeaf n) eqn:Hleaf.
  - rewrite (run_modify _ _ _ _ Hcur). intros [= <- <-]. now apply leaf_ext.
  - set (keyIndex := scanDown (List.length (keys n)) (keys n) k).
    destruct (childPointers n !! keyIndex) as [q|] eqn:Hq.
    2: { intros [= <- <-]. split; [exact Hext|reflexivity]. }
    destruct (wf_kids _ _ _ _ _ _ W Hleaf q) as (c & -> & Hc & Hlv & Hcr).
    { eapply list_elem_of_lookup_2; eauto. }
    destruct (lookup_lt_is_Some_2 h c Hc) as [C HC].
    rewrite bind_as_node, (bind_read _ _ _ _ HC).
    destruct (Z.eqb_spec (Z.of_nat (List.length (keys C))) (2 * t - 1)) as [Hfull|Hfull].
    + destruct (split_wf t Ht h lvl r cur keyIndex n c C Hwf Hcur Hleaf Hn Hq HC Hfull)
        as (h1 & lvl1 & P' & c1 & C1 & c2 & C2 & Hrun & Hwf1 & HP' & HP'l & Hi1 & Hi2 &
            HC1 & HC2 & Hn1 & Hn2 & Hl0 & Hl1 & Hl2 & Hl3).
      destruct (split_ext t h h1 cur keyIndex n c C Hcur Hleaf Hq HC) as [Hext1 Hperm];
        [intros ->; lia|lia|exact Hrun|exact Hext|].
      rewrite (bind_run _ _ _ _ _ Hrun), (bind_read _ _ _ _ HP').
      assert (Hgo : forall j cj Cj, childPointers P' !! j = Some (PNode cj) ->
                h1 !! cj = Some Cj -> Z.of_nat (List.length (keys Cj)) < 2 * t - 1 ->
                lvl1 cj = lvl c ->
                _insertNonFull fuel t (2 * t - 1) (childPointers P' !! j) k v h1 = (h', o) ->
                ext_inv h' /\ entries h' ≡ₚ grown k v (entries h) o).
      { intros j cj Cj Hj HCj Hnj Hlj Hrunj. rewrite Hj in Hrunj.
        destruct (IH h1 lvl1 r cj Cj Hwf1 HCj Hnj ltac:(lia) Hext1 h' o Hrunj) as [H1 H2].
        split; [exact H1|]. rewrite H2. destruct o; simpl; now rewrite Hperm. }
      destruct (keys P' !! keyIndex) as [x|]; [destruct (x <? k)|]; eapply Hgo; eauto.
    + eapply IH; eauto; [|lia].
      pose proof (wf_upper _ _ _ _ _ _ (proj2 Hwf _ _ HC)). lia.
Qed.

Lemma insert_ext this k v :
  tree_wf t this -> ext_inv (nodes this) ->
  ext_inv (nodes (fst (insert this k v))) /\
  entries (nodes (fst (insert this k v)))
    ≡ₚ grown k v (entries (nodes this)) (snd (insert this k v)).
Proof.
  destruct this as [h [r|] t' mk]. 2: {
    intros (Ht' & Hmk & Hh) _. simpl in *. subst. simpl. split; [|reflexivity].
    split.
    - repeat constructor.
    - intros _. exists [0%nat]. split; [|split].
      + econstructor; [reflexivity|]. simpl. constructor.
      + apply NoDup_singleton.
      + intros l. rewrite list_elem_of_singleton. unfold leaf_at. split.
        * intros ->. eexists. split; reflexivity.
        * intros (n & Hn & _). destruct l; [reflexivity|discriminate]. }
  intros (Ht' & Hmk & lvl & Hwf) Hext. simpl in Ht', Hmk, Hwf, Hext. subst t' mk.
  unfold insert. cbn [root nodes minimumDegree maxKeysPerNode].
  destruct (lookup_lt_is_Some_2 h r (proj1 Hwf)) as [R HR].
  rewrite (bind_read _ _ _ _ HR).
  pose proof (proj2 Hwf _ _ HR) as WR.
  destruct (Z.eqb_spec (Z.of_nat (List.length (keys R))) (2 * t - 1)) as [Hfull|Hfull].
  - rewrite bind_new. set (new := List.length h).
    set (h1 := h ++ [mkBNode [] [] false None]).
    assert (H1n : h1 !! new = Some (mkBNode [] [] false None)).
    { unfold h1, new. rewrite lookup_app_r by lia. now rewrite Nat.sub_diag. }
    rewrite (bind_modify _ _ _ _ _ H1n).
    unfold set_childPointers. fields. simpl app.
    set (N := mkBNode [] [PNode r] false None).
    assert (Eh2 : <[new := N]> h1 = h ++ [N]).
    { unfold h1, new. rewrite insert_app_r_alt by lia. now rewrite Nat.sub_diag. }
    rewrite Eh2.
    assert (Hne : h <> []) by (intros ->; discriminate).
    destruct (new_root_ext h r Hne Hext) as [Hext2 Hent2]. fold N in Hext2, Hent2.
    pose proof (new_root_wf h lvl r R Hwf HR Hfull) as Hwf2. fold N new in Hwf2.
    set (lvl2 := fun l => if (l =? new)%nat then S (lvl r) else lvl l) in *.
    assert (H2n : (h ++ [N]) !! new = Some N).
    { unfold new. rewrite lookup_app_r by lia. now rewrite Nat.sub_diag. }
    assert (H2r : (h ++ [N]) !! r = Some R) by (now apply lookup_app_l_Some).
    assert (HNk : Z.of_nat (List.length (keys N)) < 2 * t - 1) by (simpl; lia).
    destruct (split_wf t Ht _ lvl2 new new 0%nat N r R Hwf2 H2n eq_refl HNk eq_refl H2r Hfull)
      as (h3 & lvl3 & P' & c1 & C1 & c2 & C2 & Hrun & Hwf3 & HP' & HP'l & Hi1 & Hi2 &
          HC1 & HC2 & Hn1 & Hn2 & Hl0 & Hl1 & Hl2' & Hl3).
    pose proof (proj1 Hwf) as Hr. fold new in Hr.
    destruct (split_ext t _ h3 new 0%nat N r R H2n eq_refl eq_refl H2r) as [Hext3 Hperm3];
      [lia|lia|exact Hrun|exact Hext2|].
    rewrite (bind_run _ _ _ _ _ Hrun). unfold ret. cbv beta iota.
    assert (HPk : Z.of_nat (List.length (keys P')) < 2 * t - 1).
    { pose proof (splitChild_run t (h ++ [N]) new 0%nat N r R) as Hs.
      unfold js_get in Hs. destruct (Z.ltb_spec (t - 1) 0); [lia|].
      destruct (lookup_lt_is_Some_2 (keys R) (Z.to_nat (t - 1)) ltac:(lia)) as [med Hmed].
      destruct (Hs med H2n eq_refl H2r ltac:(lia) Hmed) as (h3' & Hrun' & _ & Hp3 & _).
      rewrite Hrun in Hrun'. injection Hrun' as <-. rewrite HP' in Hp3.
      apply Some_eq_inv in Hp3. subst P'. fields. rewrite length_splice_insert. simpl. lia. }
    destruct (_insertNonFull _ _ _ _ _ _ h3) as [h4 o] eqn:Hins.
    destruct (insertNonFull_ext k v (List.length h3) h3 lvl3 new new P' Hwf3 HP' HPk
                (wf_lvl _ _ _ _ _ _ (proj2 Hwf3 _ _ HP')) Hext3 h4 o Hins) as [H1 H2].
    simpl. split; [exact H1|]. etransitivity; [exact H2|].
    destruct o; simpl; rewrite Hperm3, Hent2; reflexivity.
  - unfold ret. cbv beta iota.
    assert (HRk : Z.of_nat (List.length (keys R)) < 2 * t - 1).
    { pose proof (wf_upper _ _ _ _ _ _ WR). lia. }
    destruct (_insertNonFull _ _ _ _ _ _ h) as [h4 o] eqn:Hins.
    destruct (insertNonFull_ext k v (List.length h) h lvl r r R Hwf HR HRk
                (wf_lvl _ _ _ _ _ _ WR) Hext h4 o Hins) as [H1 H2].
    simpl. split; [exact H1|exact H2].
Qed.

Lemma reachable_ext this : reachable t this -> ext_inv (nodes this).
Proof.
  induction 1 as [|this k v Hr IH].
  - split; [constructor|]. intros H. now contradiction H.
  - apply insert_ext; [|exact IH]. now apply reachable_wf.
Qed.

End More.

(** *** Queries on the states that [insert] builds *)

Lemma chain_suffix (h : store) f L l :
  chain h f L -> l ∈ L ->
  exists pre post, L = pre ++ post /\ chain h (Some l) post.
Proof.
  induction 1 as [|l0 n ls Hl Hrest IH]; intros Hin; [inversion Hin|].
  apply elem_of_cons in Hin as [->|Hin].
  - exists [], (l0 :: ls). split; [reflexivity|]. econstructor; eauto.
  - destruct (IH Hin) as (pre & post & -> & Hpost).
    exists (l0 :: pre), post. split; [reflexivity|exact Hpost].
Qed.

Lemma chain_all_lt (h : store) f L :
  chain h f L -> Forall (fun l => (l < List.length h)%nat) L.
Proof.
  induction 1 as [|l n ls Hl _ IH]; constructor; [|exact IH].
  eapply lookup_lt_Some; eauto.
Qed.

Lemma entry_of_leaf (h : store) l n i x :
  Forall node_typed h -> h !! l = Some n -> isLeaf n = true -> keys n !! i = Some x ->
  (x, default PNull (childPointers n !! i)) ∈ entries h /\
  is_data (default PNull (childPointers n !! i)).
Proof.
  intros Hty Hl Hleaf Hx.
  pose proof (proj1 (Forall_lookup _ _) Hty _ _ Hl) as Tn.
  unfold node_typed in Tn. rewrite Hleaf in Tn. destruct Tn as (Tl & Td & _).
  destruct (lookup_lt_is_Some_2 (childPointers n) i) as [q Hq].
  { rewrite Tl. eapply lookup_lt_Some; eauto. }
  rewrite Hq. simpl. split.
  - unfold entries. apply list_elem_of_In, in_flat_map. exists n. split.
    + apply list_elem_of_In. eapply list_elem_of_lookup_2; eauto.
    + unfold leaf_entries. rewrite Hleaf. apply list_elem_of_In.
      apply (list_elem_of_lookup_2 _ i). apply lookup_zip_with_Some. eauto.
  - exact (proj1 (Forall_lookup _ _) Td _ _ Hq).
Qed.

Lemma scanLeaf_entries (h : store) l n lo hi : forall ks i res,
  Forall node_typed h -> h !! l = Some n -> isLeaf n = true ->
  (forall j x, ks !! j = Some x -> keys n !! (i + j)%nat = Some x) ->
  Forall (answer lo hi h) res ->
  Forall (answer lo hi h) (fst (scanLeaf ks i (childPointers n) lo hi res)).
Proof.
  induction ks as [|x ks IH]; intros i res Hty Hl Hleaf Hks Hres; [exact Hres|].
  cbn [scanLeaf].
  assert (Hres' : Forall (answer lo hi h)
            (if (lo <=? x) && (x <=? hi)
             then res ++ [(x, default PNull (childPointers n !! i))] else res)).
  { destruct (Z.leb_spec lo x), (Z.leb_spec x hi); simpl; auto.
    rewrite Forall_app, Forall_singleton. split; [exact Hres|].
    split; [simpl; lia|]. eapply entry_of_leaf; eauto.
    specialize (Hks 0%nat x eq_refl). now rewrite Nat.add_0_r in Hks. }
  destruct (hi <? x); [exact Hres'|].
  apply IH; auto. intros j y Hj. specialize (Hks (S j) y Hj).
  now rewrite Nat.add_succ_r in Hks.
Qed.

Lemma walkLeaves_entries (h : store) lo hi : forall post fuel l res,
  Forall node_typed h -> (forall l0, l0 ∈ post -> leaf_at h l0) ->
  chain h l post -> (List.length post < fuel)%nat ->
  Forall (answer lo hi h) res ->
  exists out, walkLeaves fuel l lo hi res h = (h, Done out) /\
              Forall (answer lo hi h) out.
Proof.
  induction post as [|l0 post IH]; intros fuel l res Hty Hleaf Hch Hfuel Hres;
    (destruct fuel as [|fuel]; [simpl in Hfuel; lia|]); inversion Hch; subst; cbn [walkLeaves].
  - eexists. split; [reflexivity|exact Hres].
  - match goal with H : h !! l0 = Some ?m |- _ => rename H into Hl0; rename m into n end.
    rewrite (bind_read _ _ _ _ Hl0).
    destruct (Hleaf l0 ltac:(left)) as (n' & Hn' & Hnl). replace n' with n in * by congruence.
    pose proof (scanLeaf_entries h l0 n lo hi (keys n) 0 res Hty Hl0 Hnl
                  ltac:(intros j x Hj; exact Hj) Hres) as Hscan.
    destruct (scanLeaf (keys n) 0 (childPointers n) lo hi res) as [res' returned].
    simpl in Hscan. destruct returned.
    + eexists. split; [reflexivity|exact Hscan].
    + apply IH; auto.
      * intros l1 H1. apply Hleaf. now right.
      * simpl in Hfuel. lia.
Qed.

Section Queries.
Variable t : Z.
Hypothesis Ht : 2 <= t.

Lemma findLeafNode_leaf fuel : forall (h : store) lvl r cur k,
  store_wf t h lvl r -> (cur < List.length h)%nat -> (S (lvl cur) < fuel)%nat ->
  (exists l, _findLeafNode fuel (Some (PNode cur)) k h = (h, Done l) /\ leaf_at h l) \/
  _findLeafNode fuel (Some (PNode cur)) k h = (h, TypeError).
Proof.
  induction fuel as [|fuel IH]; intros h lvl r cur k Hwf Hcur Hfuel; [lia|].
  cbn [_findLeafNode]. rewrite bind_as_node.
  destruct (lookup_lt_is_Some_2 h cur Hcur) as [n Hn].
  rewrite (bind_read _ _ _ _ Hn).
  destruct (isLeaf n) eqn:Hleaf.
  - left. exists cur. split; [reflexivity|]. exists n. auto.
  - destruct (childPointers n !! scanUp (keys n) k) as [q|] eqn:Hq.
    2: { right. destruct fuel; [lia|reflexivity]. }
    destruct (wf_kids _ _ _ _ _ _ (proj2 Hwf _ _ Hn) Hleaf q) as (c & -> & Hc & Hlv & _).
    { eapply list_elem_of_lookup_2; eauto. }
    eapply IH; eauto. lia.
Qed.

Lemma recursiveSearch_entries fuel : forall (h : store) lvl r cur k,
  store_wf t h lvl r -> Forall node_typed h ->
  (cur < List.length h)%nat -> (S (lvl cur) < fuel)%nat ->
  (exists v, _recursiveSearch fuel (Some (PNode cur)) k h = (h, Done (PData v)) /\
             (k, PData v) ∈ entries h) \/
  _recursiveSearch fuel (Some (PNode cur)) k h = (h, Done PNull) \/
  _recursiveSearch fuel (Some (PNode cur)) k h = (h, TypeError).
Proof.
  induction fuel as [|fuel IH]; intros h lvl r cur k Hwf Hty Hcur Hfuel; [lia|].
  cbn [_recursiveSearch]. rewrite bind_as_node.
  destruct (lookup_lt_is_Some_2 h cur Hcur) as [n Hn].
  rewrite (bind_read _ _ _ _ Hn).
  destruct (isLeaf n) eqn:Hleaf.
  - destruct (keys n !! scanUp (keys n) k) as [x|] eqn:Hx; [|right; left; reflexivity].
    destruct (Z.eqb_spec x k) as [->|]; [|right; left; reflexivity].
    destruct (entry_of_leaf h cur n _ k Hty Hn Hleaf Hx) as [Hin Hd].
    destruct (default PNull (childPointers n !! scanUp (keys n) k)) as [|v|];
      try contradiction.
    left. exists v. split; [reflexivity|exact Hin].
  - destruct (childPointers n !! scanUp (keys n) k) as [q|] eqn:Hq.
    2: { right. right. destruct fuel; [lia|reflexivity]. }
    destruct (wf_kids _ _ _ _ _ _ (proj2 Hwf _ _ Hn) Hleaf q) as (c & -> & Hc & Hlv & _).
    { eapply list_elem_of_lookup_2; eauto. }
    eapply IH; eauto. lia.
Qed.

Lemma rangeQuery_reachable this lo hi :
  reachable t this ->
  (exists out, rangeQuery this lo hi = Done out /\
               Forall (answer lo hi (nodes this)) out) \/
  rangeQuery this lo hi = TypeError.
Proof.
  intros Hr. pose proof (reachable_wf t Ht this Hr) as (_ & _ & Hwf).
  pose proof (reachable_ext t Ht this Hr) as [Hty Hlk].
  unfold rangeQuery. destruct (root this) as [r|]; [|right; reflexivity].
  destruct Hwf as [lvl Hwf]. set (h := nodes this) in *. cbn [fmap option_fmap option_map].
  destruct (findLeafNode_leaf (S (List.length h)) h lvl r r lo Hwf (proj1 Hwf))
    as [(l & Hrun & Hleaf)|Hrun].
  { destruct (lookup_lt_is_Some_2 h r (proj1 Hwf)) as [R HR].
    pose proof (wf_lvl _ _ _ _ _ _ (proj2 Hwf r R HR)) as Hl. lia. }
  2: { right. unfold bind. now rewrite Hrun. }
  left. rewrite (bind_run _ _ _ _ _ Hrun).
  destruct Hlk as (L & Hch & Hnd & Hcov).
  { intros E. rewrite E in Hwf. destruct Hwf as [Hlt _]. simpl in Hlt. lia. }
  destruct (chain_suffix h _ L l Hch (proj2 (Hcov l) Hleaf)) as (pre & post & -> & Hpost).
  destruct (walkLeaves_entries h lo hi post (S (List.length h)) (Some l) [] Hty)
    as (out & Hw & Hout); auto.
  - intros l0 H0. apply Hcov, elem_of_app. now right.
  - pose proof (ListFacts.NoDup_lt_length _ _ Hnd (chain_all_lt _ _ _ Hch)) as Hlen.
    rewrite length_app in Hlen. lia.
  - exists out. rewrite Hw. auto.
Qed.

Lemma search_reachable this k :
  reachable t this ->
  (exists v, search this k = Done (PData v) /\ (k, PData v) ∈ entries (nodes this)) \/
  search this k = Done PNull \/ search this k = TypeError.
Proof.
  intros Hr. pose proof (reachable_wf t Ht this Hr) as (_ & _ & Hwf).
  pose proof (reachable_ext t Ht this Hr) as [Hty _].
  unfold search. destruct (root this) as [r|]; [|right; left; reflexivity].
  destruct Hwf as [lvl Hwf]. set (h := nodes this) in *.
  destruct (lookup_lt_is_Some_2 h r (proj1 Hwf)) as [R HR].
  pose proof (wf_lvl _ _ _ _ _ _ (proj2 Hwf r R HR)) as Hl.
  destruct (recursiveSearch_entries (S (List.length h)) h lvl r r k Hwf Hty (proj1 Hwf))
    as [(v & Hrun & Hin)|[Hrun|Hrun]]; [lia| | |]; rewrite Hrun; simpl; eauto.
Qed.

Lemma insertAll_entries es : forall this this',
  reachable t this -> insertAll this es = (this', Done tt) ->
  entries (nodes this') ≡ₚ entries (nodes this) ++ map (fun e => (fst e, PData (snd e))) es.
Proof.
  induction es as [|[k v] es IH]; intros this this' Hr; cbn [insertAll].
  - intros [= <-]. now rewrite app_nil_r.
  - destruct (insert this k v) as [this1 o] eqn:Hins.
    destruct (insert_ext t Ht this k v (reachable_wf t Ht this Hr)
                (reachable_ext t Ht this Hr)) as [_ Hperm].
    rewrite Hins in Hperm. cbn [fst snd] in Hperm.
    destruct o as [[]| | |]; try discriminate. intros Hrest.
    rewrite (IH this1 this'); [| |exact Hrest].
    + rewrite Hperm. simpl. apply Permutation_middle.
    + replace this1 with (fst (insert this k v)) by now rewrite Hins.
      now constructor.
Qed.

End Queries.

End BPlusMore.

(** * Facts about the traversal of a B+tree *)
Module BPlusTraversalFacts.
Import BPlus BPlusFacts BPlusExt BPlusMore BPlusTraversal.
Local Open Scope Z_scope.

Lemma leafLines_stored (h : store) l n : forall ks i,
  Forall node_typed h -> h !! l = Some n -> isLeaf n = true ->
  (forall j x, ks !! j = Some x -> keys n !! (i + j)%nat = Some x) ->
  Forall (line_stored h) (leafLines ks i (childPointers n)).
Proof.
  induction ks as [|x ks IH]; intros i Hty Hl Hleaf Hks; [constructor|].
  cbn [leafLines]. constructor.
  - simpl. eapply entry_of_leaf; eauto.
    specialize (Hks 0%nat x eq_refl). now rewrite Nat.add_0_r in Hks.
  - apply IH; auto. intros j y Hj. specialize (Hks (S j) y Hj).
    now rewrite Nat.add_succ_r in Hks.
Qed.

Lemma internalLines_run (h : store) recurse cps : forall ks i,
  (forall j, exists ls, recurse (cps !! j) h = (h, Done ls) /\ Forall (line_stored h) ls) ->
  exists ls, internalLines recurse ks i cps h = (h, Done ls) /\ Forall (line_stored h) ls.
Proof.
  induction ks as [|k ks IH]; intros i Hrec; cbn [internalLines].
  - exists []. split; [reflexivity|constructor].
  - destruct (Hrec i) as (a & Ha & Hsa). destruct (IH (S i) Hrec) as (b & Hb & Hsb).
    rewrite (bind_run _ _ _ _ _ Ha), (bind_run _ _ _ _ _ Hb).
    eexists. split; [reflexivity|]. apply Forall_app. split; [exact Hsa|].
    constructor; [exact I|exact Hsb].
Qed.

Section Traversal.
Variable t : Z.
Hypothesis Ht : 2 <= t.

Lemma recursiveInorderTraversal_run fuel : forall (h : store) lvl r cur,
  store_wf t h lvl r -> Forall node_typed h ->
  (cur < List.length h)%nat -> (S (lvl cur) < fuel)%nat ->
  exists ls, _recursiveInorderTraversal fuel (Some (PNode cur)) h = (h, Done ls) /\
             Forall (line_stored h) ls.
Proof.
  induction fuel as [|fuel IH]; intros h lvl r cur Hwf Hty Hcur Hfuel; [lia|].
  cbn [_recursiveInorderTraversal].
  destruct (lookup_lt_is_Some_2 h cur Hcur) as [n Hn].
  rewrite (bind_read _ _ _ _ Hn).
  destruct (isLeaf n) eqn:Hleaf.
  - eexists. split; [reflexivity|]. eapply leafLines_stored; eauto.
  - assert (Hrec : forall j, exists ls,
              _recursiveInorderTraversal fuel (childPointers n !! j) h = (h, Done ls) /\
              Forall (line_stored h) ls).
    { intros j. destruct (childPointers n !! j) as [q|] eqn:Hq.
      - destruct (wf_kids _ _ _ _ _ _ (proj2 Hwf _ _ Hn) Hleaf q) as (c & -> & Hc & Hlv & _).
        { eapply list_elem_of_lookup_2; eauto. }
        eapply IH; eauto. lia.
      - destruct fuel; [lia|]. exists []. split; [reflexivity|constructor]. }
    destruct (internalLines_run h _ (childPointers n) (keys n) 0 Hrec) as (a & Ha & Hsa).
    destruct (Hrec (List.length (keys n))) as (b & Hb & Hsb).
    rewrite (bind_run _ _ _ _ _ Ha), (bind_run _ _ _ _ _ Hb).
    eexists. split; [reflexivity|]. apply Forall_app. auto.
Qed.

Lemma inorderTraversal_reachable this :
  reachable t this ->
  exists ls, inorderTraversal this = Done ls /\ Forall (line_stored (nodes this)) ls.
Proof.
  intros Hr. pose proof (reachable_wf t Ht this Hr) as (_ & _ & Hwf).
  pose proof (reachable_ext t Ht this Hr) as [Hty _].
  unfold inorderTraversal. destruct (root this) as [r|].
  2: { exists []. split; [reflexivity|constructor]. }
  destruct Hwf as [lvl Hwf]. set (h := nodes this) in *. cbn [fmap option_fmap option_map].
  destruct (lookup_lt_is_Some_2 h r (proj1 Hwf)) as [R HR].
  pose proof (wf_lvl _ _ _ _ _ _ (proj2 Hwf r R HR)) as Hl.
  destruct (recursiveInorderTraversal_run (S (List.length h)) h lvl r r Hwf Hty (proj1 Hwf))
    as (ls & Hrun & Hs); [lia|].
  exists ls. rewrite Hrun. auto.
Qed.

End Traversal.
End BPlusTraversalFacts.

(** * Further properties of the code *)
Module Extras.
Import Scenario.
Local Open Scope Z_scope.

(** ** AVL tree ([9.1-avl-tree.js]) *)

(** X1: on an AVL tree built by [insert] calls, the insertion of a key that
    is not stored returns, and the in-order sequence of the new tree is the
    old one with the key put at its sorted place: every stored key is kept,
    one key is added, the order is kept. *)
Theorem X1_avl_insert_new_key (values : list Z) (avl : AVL.AVLTree) (x : Z) :
  AVL.insertAll AVL.empty values = Some avl ->
  ~ In x (AVL.inorder (AVL.root avl)) ->
  exists avl' a b,
    AVL.insert avl x = Some avl' /\
    AVL.inorder (AVL.root avl) = a ++ b /\
    AVL.inorder (AVL.root avl') = a ++ x :: b /\
    Forall (fun y => y < x) a /\ Forall (fun y => x < y) b.
Proof.
  intros Hbuilt Hx. pose proof (AVLFacts.insertAll_built _ _ Hbuilt) as Hinv.
  destruct (AVLFacts.insert_inv avl x Hinv) as (avl' & Hins & _).
  exists avl'. unfold AVL.insert in *.
  destruct (AVL._insert (AVL.root avl) x) as [t'|] eqn:E; [|discriminate].
  injection Hins as <-.
  destruct (AVLMore._insert_absent (AVL.root avl) x t') as (a & b & H); eauto.
  apply AVLFacts.bst_sorted, Hinv.
Qed.

Lemma X1_avl_insert_new_key_witness :
  exists avl' a b,
    AVL.insert (AVL.mkAVLTree (AVL.Node (AVL.Node AVL.Null 10 1 AVL.Null) 20 2
                                 (AVL.Node AVL.Null 30 1 AVL.Null))) 25 = Some avl' /\
    [10; 20; 30] = a ++ b /\
    AVL.inorder (AVL.root avl') = a ++ 25 :: b /\
    Forall (fun y => y < 25) a /\ Forall (fun y => 25 < y) b.
Proof.
  apply (X1_avl_insert_new_key [10; 20; 30]).
  - reflexivity.
  - simpl. lia.
Defined.

(** X2: every sequence of [insert] calls on an empty AVL tree returns, and
    the height stored at the root is logarithmic in the number [n] of stored
    keys: [2 ^ (height / 2) <= n + 1]. *)
Theorem X2_avl_height_logarithmic (values : list Z) :
  exists avl,
    AVL.insertAll AVL.empty values = Some avl /\
    2 ^ (AVL.height (AVL.root avl) / 2)
      <= Z.of_nat (List.length (AVL.inorder (AVL.root avl))) + 1.
Proof.
  destruct (AVLFacts.insertAll_inv values AVL.empty AVLFacts.empty_inv) as (avl & H & Hb & _).
  exists avl. split; [exact H|].
  rewrite (AVLFacts.height_true _ Hb), <- AVLMore.size_inorder.
  now apply AVLMore.balanced_size.
Qed.

(** X3: on a subtree whose stored heights are up to date, [rotateRight] and
    [rotateLeft] undo each other, heights included, and neither changes the
    in-order sequence. *)
Theorem X3_avl_rotations_inverse (y t : AVL.AVLNode) :
  AVL.balanced y ->
  (AVL.rotateRight y = Some t ->
     AVL.rotateLeft t = Some y /\ AVL.inorder t = AVL.inorder y) /\
  (AVL.rotateLeft y = Some t ->
     AVL.rotateRight t = Some y /\ AVL.inorder t = AVL.inorder y).
Proof.
  intros Hb. split; intros H.
  - split; [eapply AVLMore.rotateRight_rotateLeft; eauto|].
    now apply AVLFacts.rotateRight_inorder.
  - split; [eapply AVLMore.rotateLeft_rotateRight; eauto|].
    now apply AVLFacts.rotateLeft_inorder.
Qed.

Lemma X3_avl_rotations_inverse_witness :
  AVL.rotateLeft (AVL.Node AVL.Null 10 2 (AVL.Node AVL.Null 20 1 AVL.Null))
    = Some (AVL.Node (AVL.Node AVL.Null 10 1 AVL.Null) 20 2 AVL.Null) /\
  AVL.inorder (AVL.Node AVL.Null 10 2 (AVL.Node AVL.Null 20 1 AVL.Null))
    = AVL.inorder (AVL.Node (AVL.Node AVL.Null 10 1 AVL.Null) 20 2 AVL.Null).
Proof.
  apply (proj1 (X3_avl_rotations_inverse
                  (AVL.Node (AVL.Node AVL.Null 10 1 AVL.Null) 20 2 AVL.Null)
                  (AVL.Node AVL.Null 10 2 (AVL.Node AVL.Null 20 1 AVL.Null))
                  ltac:(simpl; lia))).
  reflexivity.
Defined.

(** ** Treap ([19-treap.js]) *)

(** X4: on a treap built by [insert] calls, [search] answers [true] for
    exactly the stored values. *)
Theorem X4_treap_search_iff (values : list (Z * Q)) (this : Treap.Treap) (x : Z) :
  Treap.insertAll Treap.empty values = Some this ->
  (Treap.search this x = true <-> In x (Treap.inorder (Treap.root this))).
Proof.
  intros Hbuilt. pose proof (TreapFacts.treap_insertAll_built _ _ Hbuilt) as Hs.
  unfold Treap.search. split.
  - intros H. destruct (In_dec Z.eq_dec x (Treap.inorder (Treap.root this))) as [|Hn]; [easy|].
    rewrite (TreapFacts._search_absent _ _ Hn) in H. discriminate.
  - now apply TreapFacts._search_present.
Qed.

Lemma X4_treap_search_iff_witness :
  Treap.search (Treap.mkTreap (Treap.Node (Treap.Node Treap.Null 3 (1 # 4) Treap.Null)
                                 5 (1 # 2) Treap.Null)) 3 = true <->
  In 3 [3; 5].
Proof.
  apply (X4_treap_search_iff [(5, 1 # 2); (3, 1 # 4)]). reflexivity.
Defined.

(** X5: every sequence of [insert] calls on an empty treap returns, and in
    the treap it builds no node has a priority below that of one of its
    children, whatever the random draws were. *)
Theorem X5_treap_heap_order (values : list (Z * Q)) :
  exists this,
    Treap.insertAll Treap.empty values = Some this /\
    TreapHeap.heap (Treap.root this).
Proof. apply TreapMore.insertAll_heap. exact I. Qed.

(** X6: on a treap built by [insert] calls, [delete] of a stored value
    returns a treap whose in-order sequence is the old one without one
    occurrence of the value, and which still has the heap order. *)
Theorem X6_treap_delete_stored (values : list (Z * Q)) (this : Treap.Treap) (x : Z) :
  Treap.insertAll Treap.empty values = Some this ->
  In x (Treap.inorder (Treap.root this)) ->
  exists this' a b,
    Treap.delete this x = Some this' /\
    Treap.inorder (Treap.root this) = a ++ x :: b /\
    Treap.inorder (Treap.root this') = a ++ b /\
    TreapHeap.heap (Treap.root this').
Proof.
  intros Hbuilt Hx. pose proof (TreapFacts.treap_insertAll_built _ _ Hbuilt) as Hs.
  destruct (TreapMore.insertAll_heap values Treap.empty I) as (this0 & H0 & Hh).
  rewrite Hbuilt in H0. injection H0 as <-.
  destruct (TreapFacts._delete_present _ _ Hs Hx) as (t' & a & b & Hd & E1 & E2).
  destruct (TreapMore._delete_heap _ x Hh) as (t'' & Hd' & Hh' & _).
  rewrite Hd in Hd'. injection Hd' as <-.
  exists (Treap.mkTreap t'), a, b. unfold Treap.delete. rewrite Hd. auto.
Qed.

Lemma X6_treap_delete_stored_witness :
  exists this' a b,
    Treap.delete (Treap.mkTreap (Treap.Node (Treap.Node Treap.Null 3 (1 # 4) Treap.Null)
                                   5 (1 # 2) Treap.Null)) 5 = Some this' /\
    [3; 5] = a ++ 5 :: b /\
    Treap.inorder (Treap.root this') = a ++ b /\
    TreapHeap.heap (Treap.root this').
Proof.
  apply (X6_treap_delete_stored [(5, 1 # 2); (3, 1 # 4)]).
  - reflexivity.
  - simpl. lia.
Defined.

(** X7: [delete] of a value that is not stored returns the treap as it
    is, for every treap. *)
Theorem X7_treap_delete_absent (this : Treap.Treap) (x : Z) :
  ~ In x (Treap.inorder (Treap.root this)) -> Treap.delete this x = Some this.
Proof.
  intros Hx. unfold Treap.delete. rewrite (TreapMore._delete_absent _ _ Hx).
  now destruct this.
Qed.

Lemma X7_treap_delete_absent_witness :
  Treap.delete (Treap.mkTreap (Treap.Node Treap.Null 5 (1 # 2) Treap.Null)) 7
  = Some (Treap.mkTreap (Treap.Node Treap.Null 5 (1 # 2) Treap.Null)).
Proof.
  apply (X7_treap_delete_absent (Treap.mkTreap (Treap.Node Treap.Null 5 (1 # 2) Treap.Null)) 7).
  simpl. lia.
Defined.

(** X8: on a treap built by [insert] calls, [insert] of a value followed by
    [delete] of the same value gives back the in-order sequence of keys, for
    every random draw and also when the value was already stored. *)
Theorem X8_treap_insert_then_delete (values : list (Z * Q)) (this : Treap.Treap)
    (x : Z) (random : Q) :
  Treap.insertAll Treap.empty values = Some this ->
  exists this' this'',
    Treap.insert this x random = Some this' /\
    Treap.delete this' x = Some this'' /\
    Treap.inorder (Treap.root this'') = Treap.inorder (Treap.root this).
Proof.
  intros Hbuilt. pose proof (TreapFacts.treap_insertAll_built _ _ Hbuilt) as Hs.
  destruct (TreapMore._insert_delete (Treap.root this) x random Hs) as (t' & t'' & Hi & Hd & E).
  exists (Treap.mkTreap t'), (Treap.mkTreap t''). unfold Treap.insert, Treap.delete.
  rewrite Hi. simpl. rewrite Hd. auto.
Qed.

Lemma X8_treap_insert_then_delete_witness :
  exists this' this'',
    Treap.insert (Treap.mkTreap (Treap.Node Treap.Null 5 (1 # 2) Treap.Null)) 3 (3 # 4)
      = Some this' /\
    Treap.delete this' 3 = Some this'' /\
    Treap.inorder (Treap.root this'') = [5].
Proof.
  apply (X8_treap_insert_then_delete [(5, 1 # 2)]). reflexivity.
Defined.

(** ** Binary search ([19-treap.js], [binarySearch]) *)

(** X9: for every array, sorted or not, [binarySearch] returns [-1] or an
    index of the array at which the target stands. *)
Theorem X9_binarySearch_sound (sortedArray : list Z) (targetValue : Z) :
  BinarySearch.binarySearch sortedArray targetValue = -1 \/
  (0 <= BinarySearch.binarySearch sortedArray targetValue
     < Z.of_nat (List.length sortedArray) /\
   sortedArray !! Z.to_nat (BinarySearch.binarySearch sortedArray targetValue)
     = Some targetValue).
Proof.
  unfold BinarySearch.binarySearch.
  destruct (BinarySearchFacts.loop_sound sortedArray targetValue 0
              (Z.of_nat (List.length sortedArray) - 1)) as [H|[H1 H2]]; [lia|auto|].
  right. split; [lia|exact H2].
Qed.

(** X10: on an array in ascending order, [binarySearch] returns [-1] exactly
    when the target is not in the array. *)
Theorem X10_binarySearch_sorted (sortedArray : list Z) (targetValue : Z) :
  StronglySorted Z.le sortedArray ->
  (BinarySearch.binarySearch sortedArray targetValue = -1 <->
   ~ In targetValue sortedArray).
Proof.
  intros Hs. unfold BinarySearch.binarySearch. split.
  - intros H Hin. apply list_elem_of_In, list_elem_of_lookup_1 in Hin as [i Hi].
    pose proof (lookup_lt_Some _ _ _ Hi).
    eapply (BinarySearchFacts.loop_complete sortedArray targetValue 0); eauto; try lia.
    exists i. split; [lia|exact Hi].
  - intros Hn.
    destruct (BinarySearchFacts.loop_sound sortedArray targetValue 0
                (Z.of_nat (List.length sortedArray) - 1)) as [H|[_ H2]]; [lia|auto|].
    exfalso. apply Hn, list_elem_of_In. eapply list_elem_of_lookup_2; eauto.
Qed.

Lemma X10_binarySearch_sorted_witness :
  BinarySearch.binarySearch [1; 3; 5; 7; 9] 6 = -1 <-> ~ In 6 [1; 3; 5; 7; 9].
Proof.
  apply (X10_binarySearch_sorted [1; 3; 5; 7; 9] 6).
  repeat constructor; lia.
Defined.

(** ** Linked list ([19-treap.js], [class LinkedList]) *)

(** X11: [insert] puts the value behind the last node: the printed sequence
    is the old one followed by the value. *)
Theorem X11_list_insert_appends (this : LinkedList.LinkedList) (data : Z) :
  LinkedList.print (LinkedList.insert this data) = LinkedList.print this ++ [data].
Proof.
  destruct this as [[|d n]]; [reflexivity|].
  unfold LinkedList.insert, LinkedList.print. cbn [LinkedList.head].
  now rewrite LinkedListFacts.print_insert_loop.
Qed.

(** X12: [delete] leaves a list that does not hold the value as it is, and
    otherwise removes the first node that holds it and no other. *)
Theorem X12_list_delete_first (this : LinkedList.LinkedList) (data : Z) :
  (~ In data (LinkedList.print this) -> LinkedList.delete this data = this) /\
  (forall a b, LinkedList.print this = a ++ data :: b -> ~ In data a ->
     LinkedList.print (LinkedList.delete this data) = a ++ b).
Proof.
  destruct this as [[|d n]]; unfold LinkedList.delete, LinkedList.print;
    cbn [LinkedList.head LinkedList.print_loop].
  - split; [reflexivity|]. intros [|] ?; discriminate.
  - split.
    + intros Hn. destruct (Z.eqb_spec d data) as [->|Hne]; [exfalso; apply Hn; now left|].
      rewrite LinkedListFacts.delete_loop_absent; [reflexivity|].
      intros Hin. apply Hn. now right.
    + intros a b E Ha.
      destruct (Z.eqb_spec d data) as [->|Hne]; cbn [LinkedList.head].
      * destruct a as [|a0 a]; [now injection E as ->|].
        injection E as -> _. exfalso. apply Ha. now left.
      * destruct a as [|a0 a]; [injection E as -> _; congruence|].
        injection E as <- E.
        rewrite (LinkedListFacts.delete_loop_present n data d a b E); [reflexivity|].
        intros Hin. apply Ha. now right.
Qed.

Lemma X12_list_delete_first_witness :
  LinkedList.print
    (LinkedList.delete
       (LinkedList.mkLinkedList
          (LinkedList.mkNode 1 (LinkedList.mkNode 2 (LinkedList.mkNode 1 LinkedList.Null))))
       2)
  = [1] ++ [1].
Proof.
  apply (proj2 (X12_list_delete_first
                  (LinkedList.mkLinkedList
                     (LinkedList.mkNode 1
                        (LinkedList.mkNode 2 (LinkedList.mkNode 1 LinkedList.Null))))
                  2) [1] [1]).
  - reflexivity.
  - simpl. lia.
Defined.

(** X13: [search] answers [true] for exactly the values the list holds. *)
Theorem X13_list_search_iff (this : LinkedList.LinkedList) (data : Z) :
  LinkedList.search this data = true <-> In data (LinkedList.print this).
Proof. apply LinkedListFacts.search_loop_In. Qed.

(** X14: [reverse] turns the printed sequence around, and reversing twice
    gives back the list. *)
Theorem X14_list_reverse (this : LinkedList.LinkedList) :
  LinkedList.print (LinkedList.reverse this) = rev (LinkedList.print this) /\
  LinkedList.reverse (LinkedList.reverse this) = this.
Proof.
  assert (H : forall l, LinkedList.print (LinkedList.reverse l) = rev (LinkedList.print l)).
  { intros l. unfold LinkedList.print, LinkedList.reverse. cbn [LinkedList.head].
    rewrite LinkedListFacts.print_reverse_loop. simpl. now rewrite app_nil_r. }
  split; [apply H|].
  destruct this as [n]. unfold LinkedList.reverse at 1. f_equal.
  apply LinkedListFacts.print_loop_inj.
  change (LinkedList.print (LinkedList.reverse (LinkedList.reverse (LinkedList.mkLinkedList n)))
          = LinkedList.print (LinkedList.mkLinkedList n)).
  now rewrite !H, rev_involutive.
Qed.

(** X15: [findMiddle] never fails: it returns [null] on the empty list and
    otherwise the value at index [floor(n / 2)] of the [n] values. *)
Theorem X15_list_findMiddle (this : LinkedList.LinkedList) :
  LinkedList.findMiddle this
  = Some (LinkedList.print this !! (List.length (LinkedList.print this) / 2)%nat).
Proof.
  destruct this as [[|d n]]; [reflexivity|].
  unfold LinkedList.findMiddle, LinkedList.print. cbn [LinkedList.head].
  rewrite LinkedListFacts.len_print.
  apply (LinkedListFacts.findMiddle_loop_spec (LinkedList.len (LinkedList.mkNode d n)));
    simpl; lia.
Qed.

(** X16: after [removeDuplicates] no value occurs twice, the list holds the
    same values as before, and what is left stands in the old order. *)
Theorem X16_list_removeDuplicates (this : LinkedList.LinkedList) :
  List.NoDup (LinkedList.print (LinkedList.removeDuplicates this)) /\
  (forall x, In x (LinkedList.print (LinkedList.removeDuplicates this))
             <-> In x (LinkedList.print this)) /\
  sublist (LinkedList.print (LinkedList.removeDuplicates this)) (LinkedList.print this).
Proof. apply LinkedListFacts.removeDuplicates_loop_spec. Qed.

(** ** B+tree ([21-b+tree.js]) *)

(** X17: the leaf case of [_insertNonFull], on a leaf with one value per
    key: the new key goes behind the last key that is not greater and before
    the keys that are greater, its value goes to the same index, and the
    other keys and values keep their order and their pairing. *)
Theorem X17_bplus_leaf_insert (k : Z) (v : string) (n : BPlus.BPlusTreeNode) :
  List.length (BPlus.childPointers n) = List.length (BPlus.keys n) ->
  exists a b ca cb,
    BPlus.keys n = a ++ b /\ BPlus.childPointers n = ca ++ cb /\
    List.length ca = List.length a /\
    Forall (fun y => k < y) b /\ (forall y, last a = Some y -> y <= k) /\
    BPlus.leafInsert k v n
    = BPlus.mkBNode (a ++ k :: b) (ca ++ BPlus.PData v :: cb)
        (BPlus.isLeaf n) (BPlus.nextLeaf n).
Proof. apply BPlusMore.leafInsert_split. Qed.

Lemma X17_bplus_leaf_insert_witness :
  let n := BPlus.mkBNode [1; 5; 9]
             [BPlus.PData "a"%string; BPlus.PData "b"%string; BPlus.PData "c"%string]
             true None in
  exists a b ca cb,
    BPlus.keys n = a ++ b /\ BPlus.childPointers n = ca ++ cb /\
    List.length ca = List.length a /\
    Forall (fun y => 5 < y) b /\ (forall y, last a = Some y -> y <= 5) /\
    BPlus.leafInsert 5 "d"%string n
    = BPlus.mkBNode (a ++ 5 :: b) (ca ++ BPlus.PData "d"%string :: cb)
        (BPlus.isLeaf n) (BPlus.nextLeaf n).
Proof.
  apply (X17_bplus_leaf_insert 5 "d"%string
           (BPlus.mkBNode [1; 5; 9]
              [BPlus.PData "a"%string; BPlus.PData "b"%string; BPlus.PData "c"%string]
              true None)).
  reflexivity.
Defined.

(** X18: whatever the state of the tree, every pair that [rangeQuery]
    returns stands at one index of the [keys] and [childPointers] of a node
    and has its key between [startKey] and [endKey]; so when [startKey] is
    greater than [endKey] a call that returns gives the empty array. *)
Theorem X18_bplus_rangeQuery_in_range (this : BPlus.BPlusTree) (startKey endKey : Z)
    (out : list (Z * BPlus.pointer)) :
  BPlus.rangeQuery this startKey endKey = BPlus.Done out ->
  Forall (BPlusExt.in_range startKey endKey (BPlus.nodes this)) out /\
  (endKey < startKey -> out = []).
Proof.
  intros H. pose proof (BPlusMore.rangeQuery_sound _ _ _ _ H) as Hs.
  split; [exact Hs|]. intros Hlt. destruct out as [|x out]; [reflexivity|].
  apply Forall_cons in Hs as [[Hx _] _]. lia.
Qed.

Lemma X18_bplus_rangeQuery_in_range_witness :
  Forall (BPlusExt.in_range 5 15 (BPlus.nodes (after 3 run_test)))
    [(5, BPlus.PData "data3"%string); (7, BPlus.PData "data1"%string);
     (11, BPlus.PData "data4"%string); (13, BPlus.PData "data6"%string)] /\
  (15 < 5 ->
   [(5, BPlus.PData "data3"%string); (7, BPlus.PData "data1"%string);
    (11, BPlus.PData "data4"%string); (13, BPlus.PData "data6"%string)] = []).
Proof.
  apply (X18_bplus_rangeQuery_in_range (after 3 run_test) 5 15).
  vm_compute. reflexivity.
Defined.

(** X19: in every state that [insert] calls build from a new tree of
    minimum degree at least 2, also after calls that threw, every leaf has
    exactly one value per key and holds data only, and every internal node
    holds node references only. *)
Theorem X19_bplus_nodes_typed (t : Z) (this : BPlus.BPlusTree) :
  2 <= t -> BPlus.reachable t this ->
  Forall BPlusExt.node_typed (BPlus.nodes this).
Proof. intros Ht Hr. apply (BPlusMore.reachable_ext t Ht this Hr). Qed.

Lemma X19_bplus_nodes_typed_witness :
  Forall BPlusExt.node_typed (BPlus.nodes (after 3 run_test)).
Proof.
  apply (X19_bplus_nodes_typed 3).
  - lia.
  - apply BPlusFacts.insertAll_reachable, BPlus.reachable_new.
Defined.

(** X20: [insert] neither loses nor duplicates a stored pair.  On every
    state built by [insert] calls (minimum degree at least 2) the pairs held
    in the leaves after a call are those held before, together with the new
    pair when the call returned, and exactly those held before when it
    threw. *)
Theorem X20_bplus_insert_conserves (t : Z) (this : BPlus.BPlusTree) (k : Z) (v : string) :
  2 <= t -> BPlus.reachable t this ->
  BPlusExt.entries (BPlus.nodes (fst (BPlus.insert this k v)))
  ≡ₚ BPlusExt.grown k v (BPlusExt.entries (BPlus.nodes this)) (snd (BPlus.insert this k v)).
Proof.
  intros Ht Hr. apply (BPlusMore.insert_ext t Ht).
  - now apply (BPlusFacts.reachable_wf t Ht).
  - now apply (BPlusMore.reachable_ext t Ht).
Qed.

Lemma X20_bplus_insert_conserves_witness :
  BPlusExt.entries (BPlus.nodes (fst (BPlus.insert (after 2 run_root_split) 7 "h"%string)))
  ≡ₚ BPlusExt.grown 7 "h"%string (BPlusExt.entries (BPlus.nodes (after 2 run_root_split)))
       (snd (BPlus.insert (after 2 run_root_split) 7 "h"%string)).
Proof.
  apply (X20_bplus_insert_conserves 2).
  - lia.
  - apply BPlusFacts.insertAll_reachable, BPlus.reachable_new.
Defined.

(** X21: when all the [insert] calls of a run on a new tree (minimum degree
    at least 2) return, the leaves hold exactly the inserted pairs, each as
    often as it was inserted. *)
Theorem X21_bplus_insertAll_entries (t : Z) (es : list (Z * string))
    (this' : BPlus.BPlusTree) :
  2 <= t ->
  BPlus.insertAll (BPlus.new_BPlusTree t) es = (this', BPlus.Done tt) ->
  BPlusExt.entries (BPlus.nodes this')
  ≡ₚ map (fun e => (fst e, BPlus.PData (snd e))) es.
Proof.
  intros Ht H.
  apply (BPlusMore.insertAll_entries t Ht es _ _ (BPlus.reachable_new t) H).
Qed.

Lemma X21_bplus_insertAll_entries_witness :
  BPlusExt.entries (BPlus.nodes (after 3 run_test))
  ≡ₚ map (fun e => (fst e, BPlus.PData (snd e))) run_test.
Proof.
  apply (X21_bplus_insertAll_entries 3 run_test (after 3 run_test)).
  - lia.
  - vm_compute. reflexivity.
Defined.

(** X22: in every non-empty state built by [insert] calls (minimum degree
    at least 2) the node created first is the head of the leaf chain:
    following [nextLeaf] from it ends at [null] after having visited every
    leaf once, and no other node. *)
Theorem X22_bplus_leaf_chain (t : Z) (this : BPlus.BPlusTree) :
  2 <= t -> BPlus.reachable t this -> BPlus.root this <> None ->
  exists L, BPlusExt.chain (BPlus.nodes this) (Some 0%nat) L /\ NoDup L /\
            forall l, l ∈ L <-> BPlusExt.leaf_at (BPlus.nodes this) l.
Proof.
  intros Ht Hr Hroot. apply (BPlusMore.reachable_ext t Ht this Hr).
  destruct (BPlusFacts.reachable_wf t Ht this Hr) as (_ & _ & Hwf).
  destruct (BPlus.root this) as [r|]; [|congruence].
  destruct Hwf as (lvl & Hlt & _). intros E. rewrite E in Hlt. simpl in Hlt. lia.
Qed.

Lemma X22_bplus_leaf_chain_witness :
  exists L, BPlusExt.chain (BPlus.nodes (after 3 run_test)) (Some 0%nat) L /\ NoDup L /\
            forall l, l ∈ L <-> BPlusExt.leaf_at (BPlus.nodes (after 3 run_test)) l.
Proof.
  apply (X22_bplus_leaf_chain 3).
  - lia.
  - apply BPlusFacts.insertAll_reachable, BPlus.reachable_new.
  - vm_compute. discriminate.
Defined.

(** X23: on every state built by [insert] calls (minimum degree at least 2)
    [rangeQuery] ends: it throws a TypeError or returns, and then every
    returned pair is a pair held in a leaf, with its key between [startKey]
    and [endKey]. *)
Theorem X23_bplus_rangeQuery_reachable (t : Z) (this : BPlus.BPlusTree)
    (startKey endKey : Z) :
  2 <= t -> BPlus.reachable t this ->
  (exists out, BPlus.rangeQuery this startKey endKey = BPlus.Done out /\
               Forall (BPlusExt.answer startKey endKey (BPlus.nodes this)) out) \/
  BPlus.rangeQuery this startKey endKey = BPlus.TypeError.
Proof. intros Ht Hr. now apply (BPlusMore.rangeQuery_reachable t Ht). Qed.

Lemma X23_bplus_rangeQuery_reachable_witness :
  (exists out, BPlus.rangeQuery (after 2 run_misrouted) 0 100 = BPlus.Done out /\
               Forall (BPlusExt.answer 0 100 (BPlus.nodes (after 2 run_misrouted))) out) \/
  BPlus.rangeQuery (after 2 run_misrouted) 0 100 = BPlus.TypeError.
Proof.
  apply (X23_bplus_rangeQuery_reachable 2).
  - lia.
  - apply BPlusFacts.insertAll_reachable, BPlus.reachable_new.
Defined.

(** X24: on every state built by [insert] calls (minimum degree at least 2)
    [search] ends: it throws a TypeError, returns [null], or returns a value
    that a leaf holds under the key searched for. *)
Theorem X24_bplus_search_reachable (t : Z) (this : BPlus.BPlusTree) (keyToFind : Z) :
  2 <= t -> BPlus.reachable t this ->
  (exists v, BPlus.search this keyToFind = BPlus.Done (BPlus.PData v) /\
             (keyToFind, BPlus.PData v) ∈ BPlusExt.entries (BPlus.nodes this)) \/
  BPlus.search this keyToFind = BPlus.Done BPlus.PNull \/
  BPlus.search this keyToFind = BPlus.TypeError.
Proof. intros Ht Hr. now apply (BPlusMore.search_reachable t Ht). Qed.

Lemma X24_bplus_search_reachable_witness :
  (exists v, BPlus.search (after 3 run_test) 13 = BPlus.Done (BPlus.PData v) /\
             (13, BPlus.PData v) ∈ BPlusExt.entries (BPlus.nodes (after 3 run_test))) \/
  BPlus.search (after 3 run_test) 13 = BPlus.Done BPlus.PNull \/
  BPlus.search (after 3 run_test) 13 = BPlus.TypeError.
Proof.
  apply (X24_bplus_search_reachable 3).
  - lia.
  - apply BPlusFacts.insertAll_reachable, BPlus.reachable_new.
Defined.

(** X25: on every state built by [insert] calls (minimum degree at least
    2), also after calls that threw, [inorderTraversal] returns without an
    error, and the pair of every [key: value] line it writes is held in a
    leaf. *)
Theorem X25_bplus_inorderTraversal (t : Z) (this : BPlus.BPlusTree) :
  2 <= t -> BPlus.reachable t this ->
  exists ls, BPlusTraversal.inorderTraversal this = BPlus.Done ls /\
             Forall (BPlusTraversal.line_stored (BPlus.nodes this)) ls.
Proof. intros Ht Hr. now apply (BPlusTraversalFacts.inorderTraversal_reachable t Ht). Qed.

Lemma X25_bplus_inorderTraversal_witness :
  exists ls, BPlusTraversal.inorderTraversal (after 2 run_root_split) = BPlus.Done ls /\
             Forall (BPlusTraversal.line_stored (BPlus.nodes (after 2 run_root_split))) ls.
Proof.
  apply (X25_bplus_inorderTraversal 2).
  - lia.
  - apply BPlusFacts.insertAll_reachable, BPlus.reachable_new.
Defined.

(** ** Linked list in a store ([19-treap.js], [hasCycle]) *)

(** X26: [hasCycle] is right on every list, whether it ends or runs back
    into itself: it returns, and it returns [true] exactly when following
    [next] from the head never reaches [null], [false] exactly when it
    does. *)
Theorem X26_list_hasCycle (h : LinkedListHeap.store) (head : option nat) :
  LinkedListHeap.closed h head = true ->
  exists b, LinkedListHeap.hasCycle h head = LinkedListHeap.Return b /\
    (b = true <-> forall k, LinkedListHeap.walk h k head <> None) /\
    (b = false <-> exists k, LinkedListHeap.walk h k head = None).
Proof.
  intros Hc. destruct (LinkedListHeapFacts.hasCycle_spec h head Hc) as (b & Hb & Ht & Hf).
  exists b. split; [exact Hb|]. split; split; auto.
  - intros Hcyc. destruct b; [reflexivity|]. destruct (Hf eq_refl) as [k Hk].
    now destruct (Hcyc k).
  - intros [k Hk]. destruct b; [|reflexivity]. now destruct (Ht eq_refl k).
Qed.

Lemma X26_list_hasCycle_witness :
  let h := [LinkedListHeap.mkNode 1 (Some 1%nat); LinkedListHeap.mkNode 2 (Some 2%nat);
            LinkedListHeap.mkNode 3 (Some 1%nat)] in
  exists b, LinkedListHeap.hasCycle h (Some 0%nat) = LinkedListHeap.Return b /\
    (b = true <-> forall k, LinkedListHeap.walk h k (Some 0%nat) <> None) /\
    (b = false <-> exists k, LinkedListHeap.walk h k (Some 0%nat) = None).
Proof.
  apply (X26_list_hasCycle
           [LinkedListHeap.mkNode 1 (Some 1%nat); LinkedListHeap.mkNode 2 (Some 2%nat);
            LinkedListHeap.mkNode 3 (Some 1%nat)] (Some 0%nat)).
  reflexivity.
Defined.

End Extras.
